(** * ConfigMate: specification compiler, TOML listener and custom objects

    A shallow embedding of the Go sources

    - [analyzer/spec/spec_parser.go] and its second revision kept as
      [unnamed/part_000] (the CMSL listener that compiles a specification),
    - [analyzer/types/tcustom_object.go] (custom object values),
    - [parsers/toml_parser.go] (the TOML listener building the node tree),

    followed by the properties of the design document that were checked
    against them. *)

From Stdlib Require Import ZArith String Ascii List Lia DecimalString.
From stdpp Require Import base option gmap strings list fin_maps.

Set Default Proof Using "Type".
Set Warnings "-register-all,-clear-no-such-hyp".
Open Scope Z_scope.

(** ** Go runtime *)

Module Go.

(** A Go call either returns or panics; a panic unwinds every caller,
    since nothing in these packages recovers. *)
Inductive Result (A : Type) : Type :=
| Ok (a : A)
| Panic (msg : string).
Arguments Ok {A} a.
Arguments Panic {A} msg.

#[global] Instance Result_ret : MRet Result := fun _ a => Ok a.
#[global] Instance Result_bind : MBind Result := fun _ _ f m =>
  match m with
  | Ok a => f a
  | Panic msg => Panic msg
  end.

(** The value a call returns, [d] standing for it where the call
    panics. *)
Definition returned {A} (d : A) (r : Result A) : A :=
  match r with
  | Ok a => a
  | Panic _ => d
  end.

(** A Go function returning [(T, error)]: a value with a nil error, or
    an error with the message [Error()] prints. *)
Inductive ErrorOr (A : Type) : Type :=
| Success (a : A)
| Failure (err : string).
Arguments Success {A} a.
Arguments Failure {A} err.

(** [int] is 64 bits wide on the supported targets. *)
Definition wrap (z : Z) : Z := (z + 2 ^ 63) mod 2 ^ 64 - 2 ^ 63.
Definition add (x y : Z) : Z := wrap (x + y).
Definition sub (x y : Z) : Z := wrap (x - y).

(** [len(s)] for a string: the number of bytes. *)
Definition len (s : string) : Z := Z.of_nat (String.length s).

(** [strings.HasPrefix(s, prefix)] *)
Definition HasPrefix (s pre : string) : bool := String.prefix pre s.

(** [strings.HasSuffix(s, suffix)] *)
Definition HasSuffix (s suf : string) : bool :=
  (String.length suf <=? String.length s)%nat
  && String.eqb (String.substring (String.length s - String.length suf)
                                  (String.length suf) s) suf.

(** [s[lo:hi]]; a slice expression panics unless [0 <= lo <= hi <= len(s)]. *)
Definition slice (s : string) (lo hi : Z) : Result string :=
  if (0 <=? lo) && (lo <=? hi) && (hi <=? len s)
  then Ok (String.substring (Z.to_nat lo) (Z.to_nat (hi - lo)) s)
  else Panic "runtime error: slice bounds out of range".

(** [strings.Join(elems, sep)] *)
Fixpoint Join (elems : list string) (sep : string) : string :=
  match elems with
  | [] => EmptyString
  | [e] => e
  | e :: rest => e +:+ sep +:+ Join rest sep
  end.

(** [strconv.ParseBool] *)
Definition ParseBool (str : string) : option bool :=
  if bool_decide (str ∈ ["1"; "t"; "T"; "true"; "TRUE"; "True"]) then Some true
  else if bool_decide (str ∈ ["0"; "f"; "F"; "false"; "FALSE"; "False"]) then Some false
  else None.

(** The class [\s] of package regexp: tab, newline, form feed, carriage
    return and space. *)
Definition regexp_space (c : ascii) : bool :=
  bool_decide (nat_of_ascii c ∈ [9; 10; 12; 13; 32]%nat).

(** [regexp.MustCompile(`\s+`).ReplaceAllString(s, " ")]: every maximal run
    of [\s] bytes becomes one space. [in_run] tells that the previous byte
    belonged to a run already replaced. *)
Fixpoint collapse_spaces (in_run : bool) (s : string) : string :=
  match s with
  | EmptyString => EmptyString
  | String c rest =>
      if regexp_space c
      then (if in_run then collapse_spaces true rest
            else String " " (collapse_spaces true rest))
      else String c (collapse_spaces false rest)
  end.

(** White space as [unicode.IsSpace] sees it, in UTF-8: the six ASCII
    bytes, U+0085, U+00A0, U+1680, U+2000..U+200A, U+2028, U+2029, U+202F,
    U+205F and U+3000. [space_width s] is the byte length of the white
    space rune [s] starts with, 0 when it starts with none. *)
Definition space_width (s : list nat) : nat :=
  match s with
  | c :: rest =>
      if bool_decide (c ∈ [9; 10; 11; 12; 13; 32]%nat) then 1%nat
      else match c, rest with
           | 194%nat, d :: _ => if bool_decide (d ∈ [133; 160]%nat) then 2%nat else 0%nat
           | 225%nat, 154%nat :: 128%nat :: _ => 3%nat
           | 226%nat, 128%nat :: d :: _ =>
               if bool_decide ((128 <= d <= 138)%nat ∨ d ∈ [168; 169; 175]%nat)
               then 3%nat else 0%nat
           | 226%nat, 129%nat :: 159%nat :: _ => 3%nat
           | 227%nat, 128%nat :: 128%nat :: _ => 3%nat
           | _, _ => 0%nat
           end
  | [] => 0%nat
  end.

Fixpoint trim_left (fuel : nat) (s : list nat) : list nat :=
  match fuel with
  | O => s
  | S fuel' =>
      match space_width s with
      | O => s
      | w => trim_left fuel' (drop w s)
      end
  end.

(** The same from the right end: the last rune is a white space rune when
    the bytes end with its encoding; [rs] is the byte list reversed. *)
Definition space_width_last (rs : list nat) : nat :=
  if bool_decide (space_width (reverse (take 1 rs)) = 1)%nat then 1%nat
  else if bool_decide (space_width (reverse (take 2 rs)) = 2)%nat then 2%nat
  else if bool_decide (space_width (reverse (take 3 rs)) = 3)%nat then 3%nat
  else 0%nat.

Fixpoint trim_right (fuel : nat) (rs : list nat) : list nat :=
  match fuel with
  | O => rs
  | S fuel' =>
      match space_width_last rs with
      | O => rs
      | w => trim_right fuel' (drop w rs)
      end
  end.

Definition bytes_of (s : string) : list nat := nat_of_ascii <$> list_ascii_of_string s.
Definition string_of (l : list nat) : string := string_of_list_ascii (ascii_of_nat <$> l).

(** [strings.TrimSpace] *)
Definition TrimSpace (s : string) : string :=
  let l := trim_left (String.length s) (bytes_of s) in
  string_of (reverse (trim_right (length l) (reverse l))).

(** [multierr.Combine(errs...)] printed with [%v]: the messages joined by
    a semicolon and a space. *)
Definition multierr_string (errs : list string) : string := Join errs "; ".

(** The stack of golang-collections: [Peek] and [Pop] answer nil on an
    empty stack, and a nil interface fails every type assertion. *)
Definition Push {A} (st : list A) (x : A) : list A := x :: st.
Definition Pop {A} (st : list A) : list A := tail st.
Definition Peek {A} (st : list A) : Result A :=
  match st with
  | x :: _ => Ok x
  | [] => Panic "interface conversion: interface is nil"
  end.
Definition Len {A} (st : list A) : Z := Z.of_nat (length st).

(** The value of a decimal digit. *)
Definition digitOf (c : ascii) : option Z :=
  let n := Z.of_nat (nat_of_ascii c) in
  if (48 <=? n) && (n <=? 57) then Some (n - 48) else None.

(** The loop of [strconv.ParseUint(s, 10, 64)] over the bytes still to
    read, [n] being the number read so far: a byte that is no digit is a
    syntax error, a number that leaves 64 bits a range error, whichever
    comes first. *)
Fixpoint parseUintLoop (s : string) (n : Z) : ErrorOr Z :=
  match s with
  | EmptyString => Success n
  | String c rest =>
      match digitOf c with
      | None => Failure "invalid syntax"
      | Some d =>
          if n >=? 1844674407370955162 then Failure "value out of range"
          else
            let n1 := 10 * n + d in
            if n1 >=? 2 ^ 64 then Failure "value out of range"
            else parseUintLoop rest n1
      end
  end.

Definition ParseUint (s : string) : ErrorOr Z :=
  match s with
  | EmptyString => Failure "invalid syntax"
  | _ => parseUintLoop s 0
  end.

(** [strconv.Atoi] where [int] has 64 bits, that is
    [strconv.ParseInt(s, 10, 0)]; the shortcut Atoi takes on short strings
    gives the same answers. The error is the [Err] of the [*NumError]. *)
Definition Atoi (s : string) : ErrorOr Z :=
  match s with
  | EmptyString => Failure "invalid syntax"
  | String c rest =>
      let neg := Ascii.eqb c "-" in
      let digits := if Ascii.eqb c "+" || neg then rest else s in
      match ParseUint digits with
      | Failure err => Failure err
      | Success un =>
          if negb neg && (un >=? 2 ^ 63) then Failure "value out of range"
          else if neg && (un >? 2 ^ 63) then Failure "value out of range"
          else Success (if neg then - un else un)
      end
  end.

End Go.

Export Go.

(** ** The ANTLR runtime, as far as the listeners read it *)

Module Antlr.

(** A token: [GetLine], [GetColumn], [GetText]. *)
Record Token := {
  GetLine : Z;
  GetColumn : Z;
  GetText : string;
}.

(** A rule context: [GetText], [GetStart], [GetStop]. *)
Record RuleContext := {
  ctxText : string;
  GetStart : Token;
  GetStop : Token;
}.

End Antlr.

(** ** Package parsers: locations *)

Module Parsers.

Record CharLocation := { Line : Z; Column : Z }.
Record TokenLocation := { Start : CharLocation; End : CharLocation }.

(** The zero value of [TokenLocation]. *)
Definition noLocation : TokenLocation :=
  {| Start := {| Line := 0; Column := 0 |}; End := {| Line := 0; Column := 0 |} |}.

#[global] Instance CharLocation_eq_dec : EqDecision CharLocation.
Proof. solve_decision. Defined.
#[global] Instance TokenLocation_eq_dec : EqDecision TokenLocation.
Proof. solve_decision. Defined.

(** [FieldType], [configfile.go] lines 4 to 14. *)
Inductive FieldType := Null | Bool | Int | Float | String | Array | Object.

#[global] Instance FieldType_eq_dec : EqDecision FieldType.
Proof. solve_decision. Defined.

End Parsers.

(** ** Package spec: the specification compiler *)

Module Spec.
Import Antlr.

(** *** The compiled model *)

Record CheckWithLocation := { Check : string; Location : Parsers.TokenLocation }.

Record FieldSpec := {
  Field : string;
  FieldLocation : Parsers.TokenLocation;
  FieldType : string;
  FieldTypeLocation : Parsers.TokenLocation;
  Optional : bool;
  OptionalLocation : Parsers.TokenLocation;
  Default : string;
  DefaultLocation : Parsers.TokenLocation;
  Notes : string;
  NotesLocation : Parsers.TokenLocation;
  Checks : list CheckWithLocation;
}.

Record Specification := {
  File : string;
  FileLocation : Parsers.TokenLocation;
  FileFormat : string;
  FileFormatLocation : Parsers.TokenLocation;
  Imports : gmap string string;
  ImportsLocation : gmap string Parsers.TokenLocation;
  Fields : list FieldSpec;
}.

(** Named object types, as [customObjectFactory] reads them. *)
Record PropertyDef := { propName : string; propType : string; propOptional : bool }.
Record ObjectDef := { Name : string; Properties : list PropertyDef }.

(** *** The parse tree of the CMSL grammar

    The generated parser is not part of the sources; a context is what the
    listener reads from it. *)

Record FileDeclarationContext := { fileSHORT_STRING : Token; fileIDENTIFIER : Token }.
Record ImportItemContext := { importIDENTIFIER : Token; importSHORT_STRING : Token }.

(** The alternatives of [metadataItem]; [OtherMetadata] is any context
    the type switch does not list. *)
Inductive MetadataItem :=
| TypeMetadata (TypeExpr : RuleContext)
| OptionalMetadata (BOOL : Token)
| DefaultMetadata (Primitive : RuleContext)
| NotesMetadata (StringExpr : RuleContext)
| OtherMetadata (text : string).

Record SpecificationItemContext := {
  FieldName : RuleContext;
  AllMetadataItem : list MetadataItem;
  AllCheck : list RuleContext;
}.

(** Rule nodes with their children in source order. The base listener
    does nothing on the rules gathered under [OtherRule]. *)
Inductive ParseTree :=
| FileDeclaration (ctx : FileDeclarationContext) (children : list ParseTree)
| ImportItem (ctx : ImportItemContext) (children : list ParseTree)
| SpecificationItem (ctx : SpecificationItemContext) (children : list ParseTree)
| OtherRule (children : list ParseTree)
| Terminal (symbol : Token).

(** What the lexer and the parser report to an attached error listener. *)
Record SyntaxErrorCall := { seLine : Z; seColumn : Z; seMsg : string }.

(** The generated lexer and parser: [NextTokens] is the token sequence up
    to end of file with the lexer's reports, [Cmsl] the tree of the start
    rule over the tokens still to come with the parser's reports. *)
Record Frontend := {
  NextTokens : string → list Token * list SyntaxErrorCall;
  Cmsl : list Token → ParseTree * list SyntaxErrorCall;
}.

(** *** The listener *)

(** The two revisions of the file: [spec_parser.go] and [part_000]. *)
Inductive Revision := SpecParserGo | Part000.

Record specParserImpl := {
  spec : Specification;
  itemFieldStack : list string;
  errs : list string;
}.

Definition quote : string := String (ascii_of_nat 34) EmptyString.
Definition triple_quote : string := quote +:+ quote +:+ quote.

(** [%d] *)
Definition itoa (z : Z) : string := DecimalString.NilZero.string_of_int (Z.to_int z).

(** [cmslErrorListener.SyntaxError] *)
Definition SyntaxError (errors : list string) (e : SyntaxErrorCall) : list string :=
  errors ++ ["line " +:+ itoa (seLine e) +:+ ":" +:+ itoa (seColumn e) +:+ " " +:+ seMsg e].

(** The location literal every handler builds from a start and a stop
    token. *)
Definition tokenLocation (start stop : Token) : Parsers.TokenLocation :=
  {| Parsers.Start := {| Parsers.Line := GetLine start; Parsers.Column := GetColumn start |};
     Parsers.End := {| Parsers.Line := GetLine stop;
                       Parsers.Column := add (GetColumn stop) (len (GetText stop)) |} |}.

(** [removeStrQuotesAndCleanSpaces]: [spec_parser.go] lines 298 to 309,
    [part_000] lines 291 to 308. *)
Definition removeStrQuotesAndCleanSpaces (rev : Revision) (str : string) : Result string :=
  match rev with
  | SpecParserGo =>
      if HasPrefix str triple_quote then
        unquoted ← slice str 3 (sub (len str) 3);
        mret (collapse_spaces false unquoted)
      else slice str 1 (sub (len str) 1)
  | Part000 =>
      str ← (if HasPrefix str triple_quote then slice str 3 (sub (len str) 3)
             else if HasPrefix str quote then slice str 1 (sub (len str) 1)
             else mret str);
      let str := collapse_spaces false str in
      let str := TrimSpace str in
      mret str
  end.

(** The loop of [condenseListExpressions], [part_000] lines 313 to 316.
    Every turn removes six bytes, so [fuel] turns are enough when
    [fuel] is the length of the string. *)
Fixpoint condenseLoop (fuel : nat) (result typeStr : string) : Result (string * string) :=
  match fuel with
  | O => mret (result, typeStr)
  | S fuel' =>
      if HasPrefix typeStr "list<" && HasSuffix typeStr ">" then
        let result := result +:+ "list:" in
        typeStr ← slice typeStr 5 (sub (len typeStr) 1);
        condenseLoop fuel' result typeStr
      else mret (result, typeStr)
  end.

(** [condenseListExpressions], [part_000] lines 310 to 320. *)
Definition condenseListExpressions (typeStr : string) : Result string :=
  '(result, typeStr) ← condenseLoop (String.length typeStr) EmptyString typeStr;
  mret (result +:+ typeStr).

(** *** The handlers *)

Definition emptyFieldSpec (field : string) (loc : Parsers.TokenLocation) : FieldSpec :=
  {| Field := field; FieldLocation := loc;
     FieldType := EmptyString; FieldTypeLocation := Parsers.noLocation;
     Optional := false; OptionalLocation := Parsers.noLocation;
     Default := EmptyString; DefaultLocation := Parsers.noLocation;
     Notes := EmptyString; NotesLocation := Parsers.noLocation;
     Checks := [] |}.

Definition setFieldType (f : FieldSpec) (v : string) (loc : Parsers.TokenLocation) : FieldSpec :=
  {| Field := Field f; FieldLocation := FieldLocation f;
     FieldType := v; FieldTypeLocation := loc;
     Optional := Optional f; OptionalLocation := OptionalLocation f;
     Default := Default f; DefaultLocation := DefaultLocation f;
     Notes := Notes f; NotesLocation := NotesLocation f;
     Checks := Checks f |}.

Definition setOptional (f : FieldSpec) (v : bool) (loc : Parsers.TokenLocation) : FieldSpec :=
  {| Field := Field f; FieldLocation := FieldLocation f;
     FieldType := FieldType f; FieldTypeLocation := FieldTypeLocation f;
     Optional := v; OptionalLocation := loc;
     Default := Default f; DefaultLocation := DefaultLocation f;
     Notes := Notes f; NotesLocation := NotesLocation f;
     Checks := Checks f |}.

Definition setDefault (f : FieldSpec) (v : string) (loc : Parsers.TokenLocation) : FieldSpec :=
  {| Field := Field f; FieldLocation := FieldLocation f;
     FieldType := FieldType f; FieldTypeLocation := FieldTypeLocation f;
     Optional := Optional f; OptionalLocation := OptionalLocation f;
     Default := v; DefaultLocation := loc;
     Notes := Notes f; NotesLocation := NotesLocation f;
     Checks := Checks f |}.

Definition setNotes (f : FieldSpec) (v : string) (loc : Parsers.TokenLocation) : FieldSpec :=
  {| Field := Field f; FieldLocation := FieldLocation f;
     FieldType := FieldType f; FieldTypeLocation := FieldTypeLocation f;
     Optional := Optional f; OptionalLocation := OptionalLocation f;
     Default := Default f; DefaultLocation := DefaultLocation f;
     Notes := v; NotesLocation := loc;
     Checks := Checks f |}.

Definition appendCheck (f : FieldSpec) (c : CheckWithLocation) : FieldSpec :=
  {| Field := Field f; FieldLocation := FieldLocation f;
     FieldType := FieldType f; FieldTypeLocation := FieldTypeLocation f;
     Optional := Optional f; OptionalLocation := OptionalLocation f;
     Default := Default f; DefaultLocation := DefaultLocation f;
     Notes := Notes f; NotesLocation := NotesLocation f;
     Checks := Checks f ++ [c] |}.

(** [EnterFileDeclaration] *)
Definition EnterFileDeclaration (rev : Revision) (p : specParserImpl)
    (ctx : FileDeclarationContext) : Result specParserImpl :=
  file ← removeStrQuotesAndCleanSpaces rev (GetText (fileSHORT_STRING ctx));
  mret {| spec := {| File := file;
                     FileLocation := tokenLocation (fileSHORT_STRING ctx) (fileSHORT_STRING ctx);
                     FileFormat := GetText (fileIDENTIFIER ctx);
                     FileFormatLocation := tokenLocation (fileIDENTIFIER ctx) (fileIDENTIFIER ctx);
                     Imports := Imports (spec p);
                     ImportsLocation := ImportsLocation (spec p);
                     Fields := Fields (spec p) |};
          itemFieldStack := itemFieldStack p;
          errs := errs p |}.

(** [EnterImportItem] *)
Definition EnterImportItem (rev : Revision) (p : specParserImpl)
    (ctx : ImportItemContext) : Result specParserImpl :=
  path ← removeStrQuotesAndCleanSpaces rev (GetText (importSHORT_STRING ctx));
  mret {| spec := {| File := File (spec p);
                     FileLocation := FileLocation (spec p);
                     FileFormat := FileFormat (spec p);
                     FileFormatLocation := FileFormatLocation (spec p);
                     Imports := <[GetText (importIDENTIFIER ctx) := path]> (Imports (spec p));
                     ImportsLocation :=
                       <[GetText (importIDENTIFIER ctx) :=
                           tokenLocation (importSHORT_STRING ctx) (importSHORT_STRING ctx)]>
                         (ImportsLocation (spec p));
                     Fields := Fields (spec p) |};
          itemFieldStack := itemFieldStack p;
          errs := errs p |}.

(** The dotted path of an item: [spec_parser.go] lines 148 and 149,
    [part_000] lines 137 to 141. *)
Definition fieldPath (rev : Revision) (itemFieldStack : list string) (name : string)
    : Result string :=
  match rev with
  | SpecParserGo =>
      parentField ← Peek itemFieldStack;
      mret (parentField +:+ "." +:+ name)
  | Part000 =>
      if negb (Len itemFieldStack =? 0) then
        parentField ← Peek itemFieldStack;
        mret (parentField +:+ "." +:+ name)
      else mret name
  end.

(** What a first type and a first default declaration store:
    [spec_parser.go] lines 186 and 231, [part_000] lines 179 and 224. *)
Definition storedType (rev : Revision) (text : string) : Result string :=
  match rev with
  | SpecParserGo => mret text
  | Part000 => condenseListExpressions text
  end.

Definition storedDefault (rev : Revision) (text : string) : Result string :=
  match rev with
  | SpecParserGo => mret text
  | Part000 => removeStrQuotesAndCleanSpaces rev text
  end.

(** The variables of the loop over the metadata items. *)
Record MetadataState := {
  fieldSpecification : FieldSpec;
  foundType : bool;
  foundDefault : bool;
  foundOptional : bool;
  foundNotes : bool;
  loopErrs : list string;
}.

Definition duplicateError (kind field : string) : string :=
  "duplicate " +:+ kind +:+ " metadata for field " +:+ field.

Definition missingTypeError (field : string) : string :=
  "missing type metadata for field " +:+ field.

Definition appendErr (s : MetadataState) (e : string) : MetadataState :=
  {| fieldSpecification := fieldSpecification s;
     foundType := foundType s; foundDefault := foundDefault s;
     foundOptional := foundOptional s; foundNotes := foundNotes s;
     loopErrs := loopErrs s ++ [e] |}.

(** One turn of the loop: the type switch of [spec_parser.go] lines 176 to
    264 and [part_000] lines 169 to 257. The notes case leaves
    [foundNotes] as it is, as both revisions do. *)
Definition metadataStep (rev : Revision) (field : string) (s : MetadataState)
    (metadataItem : MetadataItem) : Result MetadataState :=
  match metadataItem with
  | TypeMetadata TypeExpr =>
      if foundType s then mret (appendErr s (duplicateError "type" field))
      else
        ty ← storedType rev (ctxText TypeExpr);
        mret {| fieldSpecification :=
                  setFieldType (fieldSpecification s) ty
                    (tokenLocation (GetStart TypeExpr) (GetStop TypeExpr));
                foundType := true; foundDefault := foundDefault s;
                foundOptional := foundOptional s; foundNotes := foundNotes s;
                loopErrs := loopErrs s |}
  | OptionalMetadata BOOL =>
      if foundOptional s then mret (appendErr s (duplicateError "optional" field))
      else
        match ParseBool (GetText BOOL) with
        | None =>
            Panic ("optional must be a bool, found: " +:+ GetText BOOL
                   +:+ "; this error should have been cought in a previous stage")
        | Some optional =>
            mret {| fieldSpecification :=
                      setOptional (fieldSpecification s) optional (tokenLocation BOOL BOOL);
                    foundType := foundType s; foundDefault := foundDefault s;
                    foundOptional := true; foundNotes := foundNotes s;
                    loopErrs := loopErrs s |}
        end
  | DefaultMetadata Primitive =>
      if foundDefault s then mret (appendErr s (duplicateError "default" field))
      else
        d ← storedDefault rev (ctxText Primitive);
        mret {| fieldSpecification :=
                  setDefault (fieldSpecification s) d
                    (tokenLocation (GetStart Primitive) (GetStop Primitive));
                foundType := foundType s; foundDefault := true;
                foundOptional := foundOptional s; foundNotes := foundNotes s;
                loopErrs := loopErrs s |}
  | NotesMetadata StringExpr =>
      if foundNotes s then mret (appendErr s (duplicateError "notes" field))
      else
        notes ← removeStrQuotesAndCleanSpaces rev (ctxText StringExpr);
        mret {| fieldSpecification :=
                  setNotes (fieldSpecification s) notes
                    (tokenLocation (GetStart StringExpr) (GetStop StringExpr));
                foundType := foundType s; foundDefault := foundDefault s;
                foundOptional := foundOptional s; foundNotes := foundNotes s;
                loopErrs := loopErrs s |}
  | OtherMetadata text =>
      Panic ("unknown metadata item: " +:+ text
             +:+ "; this error should have been cought in a previous stage")
  end.

Fixpoint metadataLoop (rev : Revision) (field : string) (items : list MetadataItem)
    (s : MetadataState) : Result MetadataState :=
  match items with
  | [] => mret s
  | item :: rest => s' ← metadataStep rev field s item; metadataLoop rev field rest s'
  end.

Definition checkOf (check : RuleContext) : CheckWithLocation :=
  {| Check := ctxText check; Location := tokenLocation (GetStart check) (GetStop check) |}.

Definition appendField (s : Specification) (f : FieldSpec) : Specification :=
  {| File := File s; FileLocation := FileLocation s;
     FileFormat := FileFormat s; FileFormatLocation := FileFormatLocation s;
     Imports := Imports s; ImportsLocation := ImportsLocation s;
     Fields := Fields s ++ [f] |}.

(** The field and the flags before the loop over the metadata:
    [spec_parser.go] lines 155 to 172, [part_000] lines 147 to 165. *)
Definition loopStart (p : specParserImpl) (field : string) (ctx : SpecificationItemContext)
    : MetadataState :=
  {| fieldSpecification :=
       emptyFieldSpec field
         (tokenLocation (GetStart (FieldName ctx)) (GetStop (FieldName ctx)));
     foundType := false; foundDefault := false;
     foundOptional := false; foundNotes := false;
     loopErrs := errs p |}.

(** [EnterSpecificationItem]: [spec_parser.go] lines 146 to 290,
    [part_000] lines 135 to 283. *)
Definition EnterSpecificationItem (rev : Revision) (p : specParserImpl)
    (ctx : SpecificationItemContext) : Result specParserImpl :=
  field ← fieldPath rev (itemFieldStack p) (ctxText (FieldName ctx));
  let stack := Push (itemFieldStack p) field in
  s ← metadataLoop rev field (AllMetadataItem ctx) (loopStart p field ctx);
  let errs := if negb (foundType s) then loopErrs s ++ [missingTypeError field]
              else loopErrs s in
  let fieldSpecification :=
    foldl (λ f check, appendCheck f (checkOf check)) (Spec.fieldSpecification s)
          (AllCheck ctx) in
  mret {| spec := appendField (spec p) fieldSpecification;
          itemFieldStack := stack;
          errs := errs |}.

(** [ExitSpecificationItem] *)
Definition ExitSpecificationItem (p : specParserImpl) : specParserImpl :=
  {| spec := spec p; itemFieldStack := Pop (itemFieldStack p); errs := errs p |}.

(** [antlr.ParseTreeWalker.Walk]: enter the rule, walk the children in
    order, exit the rule. *)
Fixpoint Walk (rev : Revision) (p : specParserImpl) (t : ParseTree) : Result specParserImpl :=
  let walkAll :=
    fix walkAll (ts : list ParseTree) (p : specParserImpl) : Result specParserImpl :=
      match ts with
      | [] => mret p
      | t :: ts' => p' ← Walk rev p t; walkAll ts' p'
      end in
  match t with
  | FileDeclaration ctx children =>
      p ← EnterFileDeclaration rev p ctx; walkAll children p
  | ImportItem ctx children =>
      p ← EnterImportItem rev p ctx; walkAll children p
  | SpecificationItem ctx children =>
      p ← EnterSpecificationItem rev p ctx;
      p ← walkAll children p;
      mret (ExitSpecificationItem p)
  | OtherRule children => walkAll children p
  | Terminal _ => mret p
  end.

Fixpoint WalkAll (rev : Revision) (ts : list ParseTree) (p : specParserImpl)
    : Result specParserImpl :=
  match ts with
  | [] => mret p
  | t :: ts' => p' ← Walk rev p t; WalkAll rev ts' p'
  end.

Definition emptySpecification : Specification :=
  {| File := EmptyString; FileLocation := Parsers.noLocation;
     FileFormat := EmptyString; FileFormatLocation := Parsers.noLocation;
     Imports := ∅; ImportsLocation := ∅; Fields := [] |}.

(** The receiver once [Parse] has reset it and prepared the stack:
    [spec_parser.go] lines 82 to 91, [part_000] lines 72 to 80. *)
Definition resetParser (rev : Revision) : specParserImpl :=
  {| spec := emptySpecification;
     itemFieldStack := match rev with
                       | SpecParserGo => Push [] EmptyString
                       | Part000 => []
                       end;
     errs := [] |}.

(** [Parse]: [spec_parser.go] lines 42 to 98, [part_000] lines 42 to 87.
    The result is the receiver as the call leaves it, the specification
    pointer (nil is [None]) and the returned error (nil is [None]).
    In [spec_parser.go] a first loop draws every token from the lexer
    before the listener is attached, so the parser starts at end of file
    and only its own reports reach the listener. *)
Definition Parse (rev : Revision) (front : Frontend) (p : specParserImpl) (text : string)
    : Result (specParserImpl * (option Specification * option string)) :=
  let errors : list string := [] in
  if Z.of_nat (length errors) >? 0 then
    mret (p, (None, Some ("syntax errors: " +:+ multierr_string errors)))
  else
    let '(tree, reports) :=
      match rev with
      | SpecParserGo => Cmsl front []
      | Part000 =>
          let '(tokens, lexReports) := NextTokens front text in
          let '(tree, parseReports) := Cmsl front tokens in
          (tree, lexReports ++ parseReports)
      end in
    let errors := foldl SyntaxError errors reports in
    if Z.of_nat (length errors) >? 0 then
      mret (p, (None, Some ("syntax errors: " +:+ multierr_string errors)))
    else
      p ← Walk rev (resetParser rev) tree;
      mret (p, (Some (spec p), None)).

End Spec.

(** ** Package types: custom objects *)

Module Types.

(** The node tree of package parsers, as a consumer reads it: the
    pointers of an object or an array lead to nodes nobody else owns, and
    nothing here writes through them. *)
Inductive Node :=
| mkNode (Type_ ArrayType : Parsers.FieldType) (Value : NodeValue)
         (NameLocation ValueLocation : Parsers.TokenLocation)
with NodeValue :=
| VNil
| VBool (b : bool)
| VInt (i : Z)
| VFloat (bits : Z)
| VString (s : string)
| VArray (elems : list Node)
| VObject (fields : gmap string Node).

Definition Value (n : Node) : NodeValue := let 'mkNode _ _ v _ _ := n in v.

(** Modelled from the spec: the variants of a typed value other than the
    custom object and the string (section 3, Typed Value: a primitive
    scalar, a list of typed values, or a custom object). Only [*tString]
    and [*tCustomObject] are named in the source. *)
Inductive IType :=
| tBool (value : bool)
| tInt (value : Z)
| tFloat (bits : Z)
| tString (value : string)
| tList (elemType : string) (values : list IType)
| tCustomObjectRef (ObjectName : string) (Fields : gmap string IType).

(** [tCustomObject], lines 10 to 13. *)
Record tCustomObject := {
  ObjectName : string;
  Fields : gmap string IType;
}.

(** A [*tCustomObject] held in an [IType] interface. *)
Definition asIType (t : tCustomObject) : IType :=
  tCustomObjectRef (ObjectName t) (Fields t).

(** [Method] *)
Definition Method : Type := list IType → ErrorOr IType.

Section Factory.

(** [MakeType] is not among the sources. *)
Variable MakeType : string → NodeValue → ErrorOr IType.

(** The loop of [customObjectFactory], lines 22 to 32, over the
    properties still to visit and the fields filled so far. *)
Fixpoint customObjectLoop (objValue : gmap string Node)
    (props : list Spec.PropertyDef) (fields : gmap string IType)
    : ErrorOr (gmap string IType) :=
  match props with
  | [] => Success fields
  | prop :: rest =>
      match objValue !! Spec.propName prop with
      | Some propNode =>
          match MakeType (Spec.propType prop) (Value propNode) with
          | Failure err => Failure err
          | Success t =>
              customObjectLoop objValue rest (<[Spec.propName prop := t]> fields)
          end
      | None =>
          if negb (Spec.propOptional prop)
          then Failure ("missing required property " +:+ Spec.propName prop)
          else customObjectLoop objValue rest fields
      end
  end.

(** [customObjectFactory], lines 15 to 35. *)
Definition customObjectFactory (objValue : gmap string Node)
    (definition : Spec.ObjectDef) : ErrorOr tCustomObject :=
  match customObjectLoop objValue (Spec.Properties definition) ∅ with
  | Success fields => Success {| ObjectName := Spec.Name definition; Fields := fields |}
  | Failure err => Failure err
  end.

End Factory.

(** [TypeName], [Value], [Methods], [MethodDescription]: lines 37 to 57. *)
Definition TypeName (t : tCustomObject) : string := ObjectName t.
Definition tCustomObject_Value (t : tCustomObject) : gmap string IType := Fields t.
Definition Methods (t : tCustomObject) : list string := ["get"].
Definition MethodDescription (t : tCustomObject) (method : string) : string :=
  let tCustomObjectMethodsDescriptions : gmap string string :=
    {[ "get" := ObjectName t +:+ ".get(field string) : Gets the specified field" ]} in
  default EmptyString (tCustomObjectMethodsDescriptions !! method).

(** The [get] entry of the method table, lines 61 to 79. *)
Definition get (t : tCustomObject) : Method := λ args,
  if negb (Z.of_nat (length args) =? 1) then
    Failure (ObjectName t +:+ ".get expects 1 argument")
  else
    match args !! 0%nat with
    | Some (tString field) =>
        match Fields t !! field with
        | None => Failure (ObjectName t +:+ " does not have field " +:+ field)
        | Some v => Success v
        end
    | _ => Failure ("argument to " +:+ ObjectName t +:+ ".get must be a string")
    end.

(** [GetMethod], lines 59 to 90. *)
Definition GetMethod (t : tCustomObject) (method : string) : Method :=
  let tCustomObjectMethods : gmap string Method := {[ "get" := get t ]} in
  match tCustomObjectMethods !! method with
  | None => λ args, Failure (ObjectName t +:+ " does not have method " +:+ method)
  | Some m => m
  end.

(** *** The constructor of typed values *)

Fixpoint depth (n : Node) : nat :=
  let 'mkNode _ _ v _ _ := n in
  match v with
  | VArray elems => S (foldr (λ e d, Nat.max (depth e) d) 0%nat elems)
  | VObject fields => S (map_fold (λ _ e d, Nat.max (depth e) d) 0%nat fields)
  | _ => 0%nat
  end.

Definition valueDepth (v : NodeValue) : nat :=
  match v with
  | VArray elems => S (foldr (λ e d, Nat.max (depth e) d) 0%nat elems)
  | VObject fields => S (map_fold (λ _ e d, Nat.max (depth e) d) 0%nat fields)
  | _ => 0%nat
  end.

Fixpoint makeList (make : NodeValue → ErrorOr IType) (elems : list Node)
    : ErrorOr (list IType) :=
  match elems with
  | [] => Success []
  | e :: rest =>
      match make (Value e) with
      | Failure err => Failure err
      | Success t =>
          match makeList make rest with
          | Failure err => Failure err
          | Success ts => Success (t :: ts)
          end
      end
  end.

Definition typeMismatch (typeDescriptor : string) : string :=
  "value is not of type " +:+ typeDescriptor.

(** Modelled from the spec: [MakeType], which is not among the sources
    (section 4.2). A primitive descriptor wraps a scalar of the same tag,
    by tag equality and with no numeric widening; a [list:] prefix wraps
    every element of an array with the rest of the descriptor, an element
    of another type being an error; a named object descriptor looks up
    the declared properties of that type and builds a custom object with
    [customObjectFactory]. The spec gives no wording for the mismatch
    error; [typeMismatch] stands for it. [fuel] bounds the nesting of
    arrays and objects that is followed, and is spent only on the way
    into one. *)
Fixpoint MakeTypeAux (objects : gmap string Spec.ObjectDef) (fuel : nat)
    (typeDescriptor : string) (value : NodeValue) : ErrorOr IType :=
  if String.eqb typeDescriptor "bool" then
    match value with VBool b => Success (tBool b) | _ => Failure (typeMismatch typeDescriptor) end
  else if String.eqb typeDescriptor "int" then
    match value with VInt i => Success (tInt i) | _ => Failure (typeMismatch typeDescriptor) end
  else if String.eqb typeDescriptor "float" then
    match value with VFloat f => Success (tFloat f) | _ => Failure (typeMismatch typeDescriptor) end
  else if String.eqb typeDescriptor "string" then
    match value with VString s => Success (tString s) | _ => Failure (typeMismatch typeDescriptor) end
  else if HasPrefix typeDescriptor "list:" then
    let elemType :=
      String.substring 5 (String.length typeDescriptor - 5) typeDescriptor in
    match value, fuel with
    | VArray elems, S fuel' =>
        match makeList (MakeTypeAux objects fuel' elemType) elems with
        | Success ts => Success (tList elemType ts)
        | Failure err => Failure err
        end
    | VArray _, O => Failure "value nested too deep"
    | _, _ => Failure (typeMismatch typeDescriptor)
    end
  else
    match objects !! typeDescriptor with
    | None => Failure ("unknown type " +:+ typeDescriptor)
    | Some definition =>
        match value, fuel with
        | VObject fields, S fuel' =>
            match customObjectFactory (MakeTypeAux objects fuel') fields definition with
            | Success t => Success (asIType t)
            | Failure err => Failure err
            end
        | VObject _, O => Failure "value nested too deep"
        | _, _ => Failure (typeMismatch typeDescriptor)
        end
    end.

(** The nesting of the value is fuel enough. *)
Definition MakeType (objects : gmap string Spec.ObjectDef)
    (typeDescriptor : string) (value : NodeValue) : ErrorOr IType :=
  MakeTypeAux objects (valueDepth value) typeDescriptor value.

End Types.

(** ** Package parsers: the TOML listener *)

Module Toml.
Import Antlr.

(** A [*Node]. The listener writes through the pointers it keeps on its
    stack, so the nodes live in a store. *)
Definition ptr : Type := positive.

(** The dynamic value of [Node.Value]: a map and a slice hold pointers. *)
Inductive Value :=
| VNil
| VBool (b : bool)
| VInt (i : Z)
| VFloat (bits : Z)
| VString (s : string)
| VArray (elems : list ptr)
| VObject (fields : gmap string ptr).

(** [Node], with the locations as the listener writes them (a
    [TokenLocation] each). *)
Record Node := {
  Type_ : Parsers.FieldType;
  ArrayType : Parsers.FieldType;
  Value_ : Value;
  NameLocation : Parsers.TokenLocation;
  ValueLocation : Parsers.TokenLocation;
}.

Record CMParserError := { Message : string; Location : Parsers.TokenLocation }.

Record tomlKey := { segments : list string }.

(** [tomlKey.String] *)
Definition String_ (tk : tomlKey) : string := Join (segments tk) ".".

(** A [tomlKey] value printed with [%s]: the method above has a pointer
    receiver, so [fmt] prints the struct. *)
Definition fmtKey (tk : tomlKey) : string := "{[" +:+ Join (segments tk) " " +:+ "]}".

(** [key]: at most one of [Simple_key] and [Dotted_key] is there; the
    latter is listed by the text of its simple keys. *)
Record KeyContext := {
  Simple_key : option string;
  Dotted_key : option (list string);
  keyStart : Token;
  keyStop : Token;
}.

(** [standard_table] and [array_table]. *)
Record TableContext := {
  Key : KeyContext;
  tableStart : Token;
  tableStop : Token;
}.

Record tomlParser := {
  heap : gmap ptr Node;
  configFile : option ptr;
  stack : list ptr;
  directlyDefined : gmap string bool;
  errs : list CMParserError;
}.

(** The location literal of the handlers: lines count from zero. *)
Definition locationOf (start stop : Token) : Parsers.TokenLocation :=
  {| Parsers.Start := {| Parsers.Line := sub (GetLine start) 1;
                         Parsers.Column := GetColumn start |};
     Parsers.End := {| Parsers.Line := sub (GetLine stop) 1;
                       Parsers.Column := add (GetColumn stop) (len (GetText stop)) |} |}.

Definition nullNode : Node :=
  {| Type_ := Parsers.Null; ArrayType := Parsers.Null; Value_ := VNil;
     NameLocation := Parsers.noLocation; ValueLocation := Parsers.noLocation |}.

Definition objectNode : Node :=
  {| Type_ := Parsers.Object; ArrayType := Parsers.Null; Value_ := VObject ∅;
     NameLocation := Parsers.noLocation; ValueLocation := Parsers.noLocation |}.

Definition setValue (n : Node) (ty : Parsers.FieldType) (v : Value) : Node :=
  {| Type_ := ty; ArrayType := ArrayType n; Value_ := v;
     NameLocation := NameLocation n; ValueLocation := ValueLocation n |}.

Definition setNameLocation (n : Node) (loc : Parsers.TokenLocation) : Node :=
  {| Type_ := Type_ n; ArrayType := ArrayType n; Value_ := Value_ n;
     NameLocation := loc; ValueLocation := ValueLocation n |}.

Definition setValueLocation (n : Node) (loc : Parsers.TokenLocation) : Node :=
  {| Type_ := Type_ n; ArrayType := ArrayType n; Value_ := Value_ n;
     NameLocation := NameLocation n; ValueLocation := loc |}.

(** Reading through a pointer; the collector keeps every reachable node,
    so a pointer outside the store is no state of the program. *)
Definition deref (h : gmap ptr Node) (l : ptr) : Result Node :=
  match h !! l with
  | Some n => mret n
  | None => Panic "invalid memory address or nil pointer dereference"
  end.

Definition nonNil (l : option ptr) : Result ptr :=
  match l with
  | Some l => mret l
  | None => Panic "invalid memory address or nil pointer dereference"
  end.

(** [v.(map[string]*Node)] and [v.([]*Node)] *)
Definition asMap (v : Value) : Result (gmap string ptr) :=
  match v with
  | VObject m => mret m
  | _ => Panic "interface conversion: interface {} is not map[string]*parsers.Node"
  end.

Definition asSlice (v : Value) : Result (list ptr) :=
  match v with
  | VArray l => mret l
  | _ => Panic "interface conversion: interface {} is not []*parsers.Node"
  end.

(** [parseKey] and [parseDottedKey], lines 590 to 608. *)
Definition parseKey (ctx : KeyContext) : Result tomlKey :=
  match Simple_key ctx, Dotted_key ctx with
  | Some text, _ => mret {| segments := [text] |}
  | None, Some keys => mret {| segments := foldl (λ acc key, acc ++ [key]) [] keys |}
  | None, None => Panic "This should never happen"
  end.

(** The loop of [getOrCreateNode], lines 616 to 670, from segment
    [index] on; [count] is [len(segments)]. The result is the store with
    the nodes made so far, and the returned pair. The messages name
    [key], which the function does not declare: it is taken to be the key
    the segments come from. *)
Fixpoint getOrCreateLoop (key : tomlKey) (count : Z) (h : gmap ptr Node)
    (currentNode : option ptr) (index : Z) (rest : list string)
    : Result (gmap ptr Node * ErrorOr (option ptr)) :=
  match rest with
  | [] => mret (h, Success currentNode)
  | segment :: rest =>
      match currentNode with
      | None => mret (h, Failure ("cannot traverse nil node in path " +:+ fmtKey key))
      | Some current =>
          node ← deref h current;
          match Type_ node with
          | Parsers.Object =>
              objMap ← asMap (Value_ node);
              match objMap !! segment with
              | Some nextNode =>
                  getOrCreateLoop key count h (Some nextNode) (add index 1) rest
              | None =>
                  let newNode := if index =? sub count 1 then nullNode else objectNode in
                  let new := fresh (dom h) in
                  let h := <[new := newNode]> h in
                  let h := <[current :=
                               setValue node (Type_ node) (VObject (<[segment := new]> objMap))]> h in
                  getOrCreateLoop key count h (Some new) (add index 1) rest
              end
          | Parsers.Array =>
              arrayValue ← asSlice (Value_ node);
              if Z.of_nat (length arrayValue) =? 0 then
                mret (h, Failure ("cannot traverse empty array in path " +:+ fmtKey key))
              else
                let lastItem := last arrayValue in
                getOrCreateLoop key count h lastItem (add index 1) rest
          | _ =>
              mret (h, Failure ("cannot traverse leaf node " +:+ segment
                                +:+ " in path " +:+ fmtKey key))
          end
      end
  end.

(** [getOrCreateNode], lines 613 to 673. *)
Definition getOrCreateNode (h : gmap ptr Node) (parentNode : option ptr) (key : tomlKey)
    : Result (gmap ptr Node * ErrorOr (option ptr)) :=
  getOrCreateLoop key (Z.of_nat (length (segments key))) h parentNode 0 (segments key).

Definition appendError (p : tomlParser) (h : gmap ptr Node) (dd : gmap string bool)
    (e : CMParserError) : tomlParser :=
  {| heap := h; configFile := configFile p; stack := stack p;
     directlyDefined := dd; errs := errs p ++ [e] |}.

Definition keyLocation (ctx : KeyContext) : Parsers.TokenLocation :=
  locationOf (keyStart ctx) (keyStop ctx).

(** [EnterStandard_table], lines 142 to 211. The map of directly defined
    keys is indexed by the key as a string. *)
Definition EnterStandard_table (p : tomlParser) (ctx : TableContext) : Result tomlParser :=
  fieldKey ← parseKey (Key ctx);
  if default false (directlyDefined p !! String_ fieldKey) then
    mret (appendError p (heap p) (directlyDefined p)
            {| Message := "can't redefine existing key " +:+ fmtKey fieldKey;
               Location := keyLocation (Key ctx) |})
  else
    let dd := <[String_ fieldKey := true]> (directlyDefined p) in
    '(h, r) ← getOrCreateNode (heap p) (configFile p) fieldKey;
    match r with
    | Failure err =>
        mret (appendError p h dd {| Message := err; Location := keyLocation (Key ctx) |})
    | Success fieldNode =>
        fieldNode ← nonNil fieldNode;
        node ← deref h fieldNode;
        let node := setNameLocation node (locationOf (tableStart ctx) (tableStop ctx)) in
        let node := setValueLocation node (NameLocation node) in
        let node := if decide (Type_ node = Parsers.Null)
                    then setValue node Parsers.Object (VObject ∅) else node in
        mret {| heap := <[fieldNode := node]> h; configFile := configFile p;
                stack := Push (stack p) fieldNode;
                directlyDefined := dd; errs := errs p |}
    end.

(** [EnterArray_table], lines 214 to 287. *)
Definition EnterArray_table (p : tomlParser) (ctx : TableContext) : Result tomlParser :=
  fieldKey ← parseKey (Key ctx);
  if default false (directlyDefined p !! String_ fieldKey) then
    mret (appendError p (heap p) (directlyDefined p)
            {| Message := "can't redefine existing key " +:+ fmtKey fieldKey;
               Location := keyLocation (Key ctx) |})
  else
    '(h, r) ← getOrCreateNode (heap p) (configFile p) fieldKey;
    match r with
    | Failure err =>
        mret (appendError p h (directlyDefined p)
                {| Message := err; Location := keyLocation (Key ctx) |})
    | Success fieldNode =>
        fieldNode ← nonNil fieldNode;
        node ← deref h fieldNode;
        let node := if decide (Type_ node = Parsers.Null)
                    then setValue node Parsers.Array (VArray []) else node in
        let newInArrayTable :=
          {| Type_ := Parsers.Object; ArrayType := Parsers.Null; Value_ := VObject ∅;
             NameLocation := locationOf (tableStart ctx) (tableStop ctx);
             ValueLocation := Parsers.noLocation |} in
        let newInArrayTable := setValueLocation newInArrayTable (NameLocation newInArrayTable) in
        arrayValue ← asSlice (Value_ node);
        let new := fresh (dom h) in
        let h := <[new := newInArrayTable]> h in
        let h := <[fieldNode := setValue node (Type_ node) (VArray (arrayValue ++ [new]))]> h in
        mret {| heap := h; configFile := configFile p;
                stack := Push (stack p) new;
                directlyDefined := directlyDefined p; errs := errs p |}
    end.

(** The two table headers, which carry no value token. *)
Inductive TableKind := StandardTable | ArrayTable.

Definition EnterTable (kind : TableKind) : tomlParser → TableContext → Result tomlParser :=
  match kind with
  | StandardTable => EnterStandard_table
  | ArrayTable => EnterArray_table
  end.

(** The listener as [Parse] starts it, lines 56 to 66: the root object,
    alone in the store and on the stack. *)
Definition startParser : tomlParser :=
  {| heap := {[ 1%positive := objectNode ]}; configFile := Some 1%positive;
     stack := Push [] 1%positive; directlyDefined := ∅; errs := [] |}.

(** *** Key-value pairs and values *)

(** A quotation mark and an apostrophe, once and three times. *)
Definition basic : string := String (ascii_of_nat 34) EmptyString.
Definition literal : string := String (ascii_of_nat 39) EmptyString.
Definition mlBasic : string := basic +:+ basic +:+ basic.
Definition mlLiteral : string := literal +:+ literal +:+ literal.

(** [cleanString], lines 675 to 687. *)
Definition cleanString (stringValue : string) : Result string :=
  if HasPrefix stringValue mlBasic && HasSuffix stringValue mlBasic then
    slice stringValue 3 (sub (len stringValue) 3)
  else if HasPrefix stringValue mlLiteral && HasSuffix stringValue mlLiteral then
    slice stringValue 3 (sub (len stringValue) 3)
  else if HasPrefix stringValue basic && HasSuffix stringValue basic then
    slice stringValue 1 (sub (len stringValue) 1)
  else if HasPrefix stringValue literal && HasSuffix stringValue literal then
    slice stringValue 1 (sub (len stringValue) 1)
  else mret stringValue.

Definition withHeap (p : tomlParser) (h : gmap ptr Node) : tomlParser :=
  {| heap := h; configFile := configFile p; stack := stack p;
     directlyDefined := directlyDefined p; errs := errs p |}.

Definition withStack (p : tomlParser) (st : list ptr) : tomlParser :=
  {| heap := heap p; configFile := configFile p; stack := st;
     directlyDefined := directlyDefined p; errs := errs p |}.

(** [EnterKey_value], lines 75 to 133. The context is the one of the
    key, the only part of the rule the handler reads. *)
Definition EnterKey_value (p : tomlParser) (ctx : KeyContext) : Result tomlParser :=
  fieldKey ← parseKey ctx;
  parentNode ← Peek (stack p);
  '(h, r) ← getOrCreateNode (heap p) (Some parentNode) fieldKey;
  match r with
  | Failure err =>
      mret (appendError p h (directlyDefined p)
              {| Message := err; Location := keyLocation ctx |})
  | Success fieldNode =>
      fieldNode ← nonNil fieldNode;
      node ← deref h fieldNode;
      if decide (Type_ node ≠ Parsers.Null) then
        mret (appendError p h (directlyDefined p)
                {| Message := "can't redefine existing key " +:+ fmtKey fieldKey;
                   Location := keyLocation ctx |})
      else
        mret {| heap := <[fieldNode := setNameLocation node (keyLocation ctx)]> h;
                configFile := configFile p;
                stack := Push (stack p) fieldNode;
                directlyDefined := directlyDefined p; errs := errs p |}
  end.

(** [ExitKey_value], [ExitInline_table] and [ExitArray]: lines 136 to
    139, 333 to 336 and 382 to 385. *)
Definition ExitKey_value (p : tomlParser) : tomlParser := withStack p (Pop (stack p)).
Definition ExitInline_table (p : tomlParser) : tomlParser := withStack p (Pop (stack p)).
Definition ExitArray (p : tomlParser) : tomlParser := withStack p (Pop (stack p)).

(** The element a value handler appends to an array. *)
Definition elementNode (ty : Parsers.FieldType) (v : Value) (ctx : RuleContext) : Node :=
  {| Type_ := ty; ArrayType := Parsers.Null; Value_ := v;
     NameLocation := Parsers.noLocation;
     ValueLocation := locationOf (GetStart ctx) (GetStop ctx) |}.

(** The branch every value handler ends with, written out in each of
    them (lines 294 to 329, 343 to 378, 392 to 421, 435 to 463, 477 to
    505, 519 to 547 and 556 to 586): on an array the value becomes a new
    last element, otherwise it is written into the node on top of the
    stack. [value] is what the handler evaluates on the way, which may
    panic; [push] tells the two handlers that push the node they filled. *)
Definition storeValue (p : tomlParser) (parentNode : ptr) (ty : Parsers.FieldType)
    (value : Result Value) (ctx : RuleContext) (push : bool) : Result tomlParser :=
  node ← deref (heap p) parentNode;
  if decide (Type_ node = Parsers.Array) then
    arrayValue ← asSlice (Value_ node);
    v ← value;
    let new := fresh (dom (heap p)) in
    let h := <[new := elementNode ty v ctx]> (heap p) in
    let h := <[parentNode := setValue node (Type_ node) (VArray (arrayValue ++ [new]))]> h in
    mret (withStack (withHeap p h) (if push then Push (stack p) new else stack p))
  else
    v ← value;
    let h := <[parentNode :=
                 setValueLocation (setValue node ty v)
                   (locationOf (GetStart ctx) (GetStop ctx))]> (heap p) in
    mret (withStack (withHeap p h) (if push then Push (stack p) parentNode else stack p)).

(** [EnterInline_table], lines 290 to 330. *)
Definition EnterInline_table (p : tomlParser) (ctx : RuleContext) : Result tomlParser :=
  parentNode ← Peek (stack p);
  storeValue p parentNode Parsers.Object (mret (VObject ∅)) ctx true.

(** [EnterArray], lines 339 to 379. *)
Definition EnterArray (p : tomlParser) (ctx : RuleContext) : Result tomlParser :=
  parentNode ← Peek (stack p);
  storeValue p parentNode Parsers.Array (mret (VArray [])) ctx true.

(** [EnterString], lines 388 to 422. *)
Definition EnterString (p : tomlParser) (ctx : RuleContext) : Result tomlParser :=
  parentNode ← Peek (stack p);
  storeValue p parentNode Parsers.String
    (s ← cleanString (ctxText ctx); mret (VString s)) ctx false.

(** [EnterInteger], lines 425 to 464: the text is converted before the
    node is looked at. *)
Definition EnterInteger (p : tomlParser) (ctx : RuleContext) : Result tomlParser :=
  parentNode ← Peek (stack p);
  match Atoi (ctxText ctx) with
  | Failure err => Panic err
  | Success intValue =>
      storeValue p parentNode Parsers.Int (mret (VInt intValue)) ctx false
  end.

(** [EnterBool], lines 509 to 548. *)
Definition EnterBool (p : tomlParser) (ctx : RuleContext) : Result tomlParser :=
  parentNode ← Peek (stack p);
  match ParseBool (ctxText ctx) with
  | None => Panic "invalid syntax"
  | Some boolValue =>
      storeValue p parentNode Parsers.Bool (mret (VBool boolValue)) ctx false
  end.

(** [EnterDate_time], lines 552 to 587: stored as a string. *)
Definition EnterDate_time (p : tomlParser) (ctx : RuleContext) : Result tomlParser :=
  parentNode ← Peek (stack p);
  storeValue p parentNode Parsers.String
    (s ← cleanString (ctxText ctx); mret (VString s)) ctx false.

(** *** The parse tree of the TOML grammar and the walk *)

(** Rule nodes with their children in source order; [ROther] is any rule
    the listener has no handler for. *)
Inductive TomlTree :=
| RKey_value (ctx : KeyContext) (children : list TomlTree)
| RStandard_table (ctx : TableContext) (children : list TomlTree)
| RArray_table (ctx : TableContext) (children : list TomlTree)
| RInline_table (ctx : RuleContext) (children : list TomlTree)
| RArray (ctx : RuleContext) (children : list TomlTree)
| RString (ctx : RuleContext) (children : list TomlTree)
| RInteger (ctx : RuleContext) (children : list TomlTree)
| RFloating_point (ctx : RuleContext) (children : list TomlTree)
| RBool (ctx : RuleContext) (children : list TomlTree)
| RDate_time (ctx : RuleContext) (children : list TomlTree)
| ROther (children : list TomlTree)
| RTerminal (symbol : Token).

(** The generated lexer and parser with the error listener attached: the
    tree of the start rule and the errors the listener has gathered. *)
Record Frontend := { TomlRule : string → TomlTree * list CMParserError }.

Section Values.

(** [strconv.ParseFloat(s, 64)], the float given by its bits. *)
Variable ParseFloat : string → ErrorOr Z.

(** [EnterFloating_point], lines 467 to 506. *)
Definition EnterFloating_point (p : tomlParser) (ctx : RuleContext) : Result tomlParser :=
  parentNode ← Peek (stack p);
  match ParseFloat (ctxText ctx) with
  | Failure err => Panic err
  | Success floatValue =>
      storeValue p parentNode Parsers.Float (mret (VFloat floatValue)) ctx false
  end.

(** [antlr.ParseTreeWalker.Walk] with the listener: enter the rule,
    walk the children in order, exit the rule. The table headers have
    no exit handler. *)
Fixpoint Walk (p : tomlParser) (t : TomlTree) : Result tomlParser :=
  let walkAll :=
    fix walkAll (ts : list TomlTree) (p : tomlParser) : Result tomlParser :=
      match ts with
      | [] => mret p
      | t :: ts' => p' ← Walk p t; walkAll ts' p'
      end in
  match t with
  | RKey_value ctx children =>
      p ← EnterKey_value p ctx; p ← walkAll children p; mret (ExitKey_value p)
  | RStandard_table ctx children =>
      p ← EnterStandard_table p ctx; walkAll children p
  | RArray_table ctx children =>
      p ← EnterArray_table p ctx; walkAll children p
  | RInline_table ctx children =>
      p ← EnterInline_table p ctx; p ← walkAll children p; mret (ExitInline_table p)
  | RArray ctx children =>
      p ← EnterArray p ctx; p ← walkAll children p; mret (ExitArray p)
  | RString ctx children => p ← EnterString p ctx; walkAll children p
  | RInteger ctx children => p ← EnterInteger p ctx; walkAll children p
  | RFloating_point ctx children => p ← EnterFloating_point p ctx; walkAll children p
  | RBool ctx children => p ← EnterBool p ctx; walkAll children p
  | RDate_time ctx children => p ← EnterDate_time p ctx; walkAll children p
  | ROther children => walkAll children p
  | RTerminal _ => mret p
  end.

Fixpoint WalkAll (ts : list TomlTree) (p : tomlParser) : Result tomlParser :=
  match ts with
  | [] => mret p
  | t :: ts' => p' ← Walk p t; WalkAll ts' p'
  end.

(** The walk of one node, taken apart: the handler called on the way
    in, the children, the handler called on the way out. *)
Definition enterRule (p : tomlParser) (t : TomlTree) : Result tomlParser :=
  match t with
  | RKey_value ctx _ => EnterKey_value p ctx
  | RStandard_table ctx _ => EnterStandard_table p ctx
  | RArray_table ctx _ => EnterArray_table p ctx
  | RInline_table ctx _ => EnterInline_table p ctx
  | RArray ctx _ => EnterArray p ctx
  | RString ctx _ => EnterString p ctx
  | RInteger ctx _ => EnterInteger p ctx
  | RFloating_point ctx _ => EnterFloating_point p ctx
  | RBool ctx _ => EnterBool p ctx
  | RDate_time ctx _ => EnterDate_time p ctx
  | ROther _ | RTerminal _ => mret p
  end.

Definition childrenOf (t : TomlTree) : list TomlTree :=
  match t with
  | RKey_value _ children | RStandard_table _ children | RArray_table _ children
  | RInline_table _ children | RArray _ children | RString _ children
  | RInteger _ children | RFloating_point _ children | RBool _ children
  | RDate_time _ children | ROther children => children
  | RTerminal _ => []
  end.

Definition exitRule (p : tomlParser) (t : TomlTree) : tomlParser :=
  match t with
  | RKey_value _ _ => ExitKey_value p
  | RInline_table _ _ => ExitInline_table p
  | RArray _ _ => ExitArray p
  | _ => p
  end.

(** The receiver as [Parse] prepares it for the walk, lines 56 to 66:
    a new root object, alone on the stack; the nodes of an earlier call
    stay where they are, and so do the errors gathered so far. *)
Definition prepare (p : tomlParser) : tomlParser :=
  let root := fresh (dom (heap p)) in
  {| heap := <[root := objectNode]> (heap p); configFile := Some root;
     stack := Push [] root; directlyDefined := ∅; errs := errs p |}.

(** [Parse], lines 31 to 72. The result is the receiver as the call
    leaves it, the returned node (nil is [None]) and the returned
    errors (nil is the empty list). *)
Definition Parse (front : Frontend) (p : tomlParser) (data : string)
    : Result (tomlParser * (option ptr * list CMParserError)) :=
  let '(tree, errors) := TomlRule front data in
  if Z.of_nat (length errors) >? 0 then mret (p, (None, errors))
  else
    p ← Walk (prepare p) tree;
    mret (p, (configFile p, [])).

End Values.

End Toml.

(** ** The design document's notions, stated on the parse tree *)

Module Design.
Import Antlr.

(** The four kinds of metadata a field may declare. *)
Inductive MetadataKind := KType | KOptional | KDefault | KNotes.

#[global] Instance MetadataKind_eq_dec : EqDecision MetadataKind.
Proof. solve_decision. Defined.

Definition kindName (k : MetadataKind) : string :=
  match k with
  | KType => "type"
  | KOptional => "optional"
  | KDefault => "default"
  | KNotes => "notes"
  end.

Definition kindOf (item : Spec.MetadataItem) : option MetadataKind :=
  match item with
  | Spec.TypeMetadata _ => Some KType
  | Spec.OptionalMetadata _ => Some KOptional
  | Spec.DefaultMetadata _ => Some KDefault
  | Spec.NotesMetadata _ => Some KNotes
  | Spec.OtherMetadata _ => None
  end.

(** The kinds a field declares, in the order of the declarations. *)
Definition declaredKinds (items : list Spec.MetadataItem) : list MetadataKind :=
  omap kindOf items.

(** The extra declarations: every declaration of a kind that an earlier
    declaration of the field (or [seen]) has already given. *)
Fixpoint extraDeclarations (seen : list MetadataKind) (kinds : list MetadataKind)
    : list MetadataKind :=
  match kinds with
  | [] => []
  | k :: rest =>
      if decide (k ∈ seen) then k :: extraDeclarations seen rest
      else extraDeclarations (k :: seen) rest
  end.

(** The first declaration of a kind. *)
Definition firstOf (k : MetadataKind) (items : list Spec.MetadataItem)
    : option Spec.MetadataItem :=
  head (filter (λ item, kindOf item = Some k) items).

(** The last declaration of a kind. *)
Definition lastOf (k : MetadataKind) (items : list Spec.MetadataItem)
    : option Spec.MetadataItem :=
  last (filter (λ item, kindOf item = Some k) items).

(** The value a field stores for a kind, and the value a declaration
    gives: the text of the declaration as the handler normalises it. *)
Inductive MetadataValue := TextValue (s : string) | BoolValue (b : bool).

Definition storedValue (k : MetadataKind) (f : Spec.FieldSpec) : MetadataValue :=
  match k with
  | KType => TextValue (Spec.FieldType f)
  | KOptional => BoolValue (Spec.Optional f)
  | KDefault => TextValue (Spec.Default f)
  | KNotes => TextValue (Spec.Notes f)
  end.

Definition declaredValue (rev : Spec.Revision) (item : Spec.MetadataItem)
    : Result MetadataValue :=
  match item with
  | Spec.TypeMetadata TypeExpr =>
      ty ← Spec.storedType rev (ctxText TypeExpr); mret (TextValue ty)
  | Spec.OptionalMetadata BOOL =>
      match ParseBool (GetText BOOL) with
      | Some b => mret (BoolValue b)
      | None => Panic "optional must be a bool"
      end
  | Spec.DefaultMetadata Primitive =>
      d ← Spec.storedDefault rev (ctxText Primitive); mret (TextValue d)
  | Spec.NotesMetadata StringExpr =>
      notes ← Spec.removeStrQuotesAndCleanSpaces rev (ctxText StringExpr);
      mret (TextValue notes)
  | Spec.OtherMetadata _ => Panic "unknown metadata item"
  end.

(** The flag the loop keeps for a kind. *)
Definition found (k : MetadataKind) (s : Spec.MetadataState) : bool :=
  match k with
  | KType => Spec.foundType s
  | KOptional => Spec.foundOptional s
  | KDefault => Spec.foundDefault s
  | KNotes => Spec.foundNotes s
  end.

(** The flags of the loop against the kinds met so far; the notes flag
    is never raised. *)
Definition agree (seen : list MetadataKind) (s : Spec.MetadataState) : Prop :=
  Spec.foundType s = bool_decide (KType ∈ seen) ∧
  Spec.foundOptional s = bool_decide (KOptional ∈ seen) ∧
  Spec.foundDefault s = bool_decide (KDefault ∈ seen) ∧
  Spec.foundNotes s = false.

(** The errors the loop reports for a list of extra declarations: one
    for each, except for notes. *)
Definition reportedDuplicates (field : string) (extras : list MetadataKind) : list string :=
  (λ k, Spec.duplicateError (kindName k) field) <$> filter (λ k, k ≠ KNotes) extras.

(** The dotted path of a field: the parent's path, a separator and the
    local name; the local name alone when there is no parent. *)
Definition pathOf (parent : option string) (name : string) : string :=
  match parent with
  | Some parentPath => parentPath +:+ "." +:+ name
  | None => name
  end.

(** The paths of the fields a tree declares, in source order, below a
    field of path [parent]. *)
Fixpoint declaredPaths (parent : option string) (t : Spec.ParseTree) : list string :=
  match t with
  | Spec.SpecificationItem ctx children =>
      let path := pathOf parent (ctxText (Spec.FieldName ctx)) in
      path :: concat (map (declaredPaths (Some path)) children)
  | Spec.FileDeclaration _ children
  | Spec.ImportItem _ children
  | Spec.OtherRule children => concat (map (declaredPaths parent) children)
  | Spec.Terminal _ => []
  end.

(** The errors a field is to be reported for: one for each extra
    declaration the loop reports, then the missing type. *)
Definition fieldErrors (field : string) (items : list Spec.MetadataItem) : list string :=
  reportedDuplicates field (extraDeclarations [] (declaredKinds items))
  ++ (if bool_decide (KType ∈ declaredKinds items) then []
      else [Spec.missingTypeError field]).

(** The errors of the fields a tree declares, in source order, below a
    field of path [parent]. *)
Fixpoint declaredErrors (parent : option string) (t : Spec.ParseTree) : list string :=
  match t with
  | Spec.SpecificationItem ctx children =>
      let path := pathOf parent (ctxText (Spec.FieldName ctx)) in
      fieldErrors path (Spec.AllMetadataItem ctx)
      ++ concat (map (declaredErrors (Some path)) children)
  | Spec.FileDeclaration _ children
  | Spec.ImportItem _ children
  | Spec.OtherRule children => concat (map (declaredErrors parent) children)
  | Spec.Terminal _ => []
  end.

(** What stands for the root on the path stack of each revision: an
    empty path in [spec_parser.go], nothing in [part_000]. *)
Definition rootOf (rev : Spec.Revision) : option string :=
  match rev with
  | Spec.SpecParserGo => Some EmptyString
  | Spec.Part000 => None
  end.

(** A descriptor is a list expression when the loop of
    [condenseListExpressions] takes a turn on it. *)
Definition isListExpression (typeStr : string) : bool :=
  HasPrefix typeStr "list<" && HasSuffix typeStr ">".

(** A string literal the handlers can strip: two quotes around it, or
    two triple quotes, in a text that fits a Go string. *)
Definition unquotable (rev : Spec.Revision) (text : string) : bool :=
  (len text <? 2 ^ 63) &&
  match rev with
  | Spec.SpecParserGo =>
      if HasPrefix text Spec.triple_quote then 6 <=? len text else 2 <=? len text
  | Spec.Part000 =>
      if HasPrefix text Spec.triple_quote then 6 <=? len text
      else if HasPrefix text Spec.quote then 2 <=? len text
      else true
  end.

(** The metadata the grammar lets through: a boolean literal for
    optional, literals that can be stripped, and no alternative the
    handler does not know. *)
Definition conformingItem (rev : Spec.Revision) (item : Spec.MetadataItem) : bool :=
  match item with
  | Spec.TypeMetadata TypeExpr => len (ctxText TypeExpr) <? 2 ^ 63
  | Spec.OptionalMetadata BOOL => bool_decide (is_Some (ParseBool (GetText BOOL)))
  | Spec.DefaultMetadata Primitive =>
      match rev with
      | Spec.SpecParserGo => true
      | Spec.Part000 => unquotable rev (ctxText Primitive)
      end
  | Spec.NotesMetadata StringExpr => unquotable rev (ctxText StringExpr)
  | Spec.OtherMetadata _ => false
  end.

(** A tree the parser builds from a text it accepts. *)
Fixpoint conforming (rev : Spec.Revision) (t : Spec.ParseTree) : bool :=
  match t with
  | Spec.FileDeclaration ctx children =>
      unquotable rev (GetText (Spec.fileSHORT_STRING ctx))
      && forallb (conforming rev) children
  | Spec.ImportItem ctx children =>
      unquotable rev (GetText (Spec.importSHORT_STRING ctx))
      && forallb (conforming rev) children
  | Spec.SpecificationItem ctx children =>
      forallb (conformingItem rev) (Spec.AllMetadataItem ctx)
      && forallb (conforming rev) children
  | Spec.OtherRule children => forallb (conforming rev) children
  | Spec.Terminal _ => true
  end.

(** [spec_parser.go] reads the top of the path stack on every item, so
    the stack must hold the root. *)
Definition hasRoot (rev : Spec.Revision) (st : list string) : Prop :=
  rev = Spec.SpecParserGo → st ≠ [].

(** A stored type on which normalising changes nothing. *)
Definition normalised (f : Spec.FieldSpec) : Prop :=
  Spec.condenseListExpressions (Spec.FieldType f) = Ok (Spec.FieldType f).

(** The outcome of a table header that went through: the node on top of
    the stack carries the span of the header as both locations. *)
Definition headerNode (p p' : Toml.tomlParser) (ctx : Toml.TableContext) : Prop :=
  Toml.errs p' = Toml.errs p ∧
  ∃ l node,
    Toml.stack p' = l :: Toml.stack p ∧
    Toml.heap p' !! l = Some node ∧
    Toml.Type_ node ≠ Parsers.Null ∧
    Toml.NameLocation node
      = Toml.locationOf (Toml.tableStart ctx) (Toml.tableStop ctx) ∧
    Toml.ValueLocation node = Toml.NameLocation node.

(** The outcome of a header that was refused: one more error, the stack
    as it was. *)
Definition headerRefused (p p' : Toml.tomlParser) : Prop :=
  (∃ e, Toml.errs p' = Toml.errs p ++ [e]) ∧ Toml.stack p' = Toml.stack p.

(** A token as the lexer makes it: a line from one on, a column from
    zero on, some text, all within a source that fits the memory. *)
Definition realToken (t : Token) : Prop :=
  1 <= GetLine t < 2 ^ 62 ∧ 0 <= GetColumn t < 2 ^ 62 ∧ 0 < len (GetText t) < 2 ^ 62.

(** *** Notions for the rest of the listeners *)

(** How many declarations of a kind a field gives, and how many
    duplicate reports of a kind a list of errors holds for it. *)
Definition declarationsOf (k : MetadataKind) (items : list Spec.MetadataItem) : nat :=
  length (filter (λ item, kindOf item = Some k) items).

Definition reportsOf (k : MetadataKind) (field : string) (errs : list string) : nat :=
  length (filter (λ e, e = Spec.duplicateError (kindName k) field) errs).

(** The import items of a tree, in source order. *)
Fixpoint declaredImports (t : Spec.ParseTree) : list Spec.ImportItemContext :=
  match t with
  | Spec.ImportItem ctx children => ctx :: concat (map declaredImports children)
  | Spec.FileDeclaration _ children
  | Spec.SpecificationItem _ children
  | Spec.OtherRule children => concat (map declaredImports children)
  | Spec.Terminal _ => []
  end.

(** The last import item that names an alias. *)
Definition lastImport (alias : string) (imports : list Spec.ImportItemContext)
    : option Spec.ImportItemContext :=
  last (filter (λ ctx, GetText (Spec.importIDENTIFIER ctx) = alias) imports).

(** What the front end reported to the error listener of [Parse]: the
    parser alone in [spec_parser.go], the lexer and then the parser in
    [part_000]. *)
Definition reports (rev : Spec.Revision) (front : Spec.Frontend) (text : string)
    : list Spec.SyntaxErrorCall :=
  match rev with
  | Spec.SpecParserGo => (Spec.Cmsl front []).2
  | Spec.Part000 =>
      (Spec.NextTokens front text).2
      ++ (Spec.Cmsl front (Spec.NextTokens front text).1).2
  end.

(** The tree [Parse] walks. *)
Definition parsed (rev : Spec.Revision) (front : Spec.Frontend) (text : string)
    : Spec.ParseTree :=
  match rev with
  | Spec.SpecParserGo => (Spec.Cmsl front []).1
  | Spec.Part000 => (Spec.Cmsl front (Spec.NextTokens front text).1).1
  end.

(** A descriptor inside [k] list brackets, and the same with [k] list
    prefixes. *)
Fixpoint listOf (k : nat) (elem : string) : string :=
  match k with
  | O => elem
  | S k' => "list<" +:+ listOf k' elem +:+ ">"
  end.

Fixpoint condensed (k : nat) (elem : string) : string :=
  match k with
  | O => elem
  | S k' => "list:" +:+ condensed k' elem
  end.

(** The path and the location an import item stores for its alias. *)
Definition importAlias (ctx : Spec.ImportItemContext) : string :=
  GetText (Spec.importIDENTIFIER ctx).

Definition importPath (rev : Spec.Revision) (ctx : Spec.ImportItemContext) : string :=
  returned EmptyString
    (Spec.removeStrQuotesAndCleanSpaces rev (GetText (Spec.importSHORT_STRING ctx))).

Definition importLocation (ctx : Spec.ImportItemContext) : Parsers.TokenLocation :=
  Spec.tokenLocation (Spec.importSHORT_STRING ctx) (Spec.importSHORT_STRING ctx).

(** A metadata item the handler cannot read where it stands, after the
    items [before]: an alternative it does not know, or a first optional
    declaration whose text is no boolean. *)
Definition unreadable (before : list Spec.MetadataItem) (item : Spec.MetadataItem) : Prop :=
  match item with
  | Spec.OtherMetadata _ => True
  | Spec.OptionalMetadata BOOL =>
      ParseBool (GetText BOOL) = None ∧ KOptional ∉ declaredKinds before
  | _ => False
  end.

(** The two import tables after the import items [imports], each of
    which was read without a panic, starting from the tables of [p]. *)
Definition importsAfter (rev : Spec.Revision) (imports : list Spec.ImportItemContext)
    (p p' : Spec.specParserImpl) : Prop :=
  Spec.Imports (Spec.spec p')
    = foldl (λ m ctx, <[importAlias ctx := importPath rev ctx]> m)
            (Spec.Imports (Spec.spec p)) imports ∧
  Spec.ImportsLocation (Spec.spec p')
    = foldl (λ m ctx, <[importAlias ctx := importLocation ctx]> m)
            (Spec.ImportsLocation (Spec.spec p)) imports ∧
  Forall (λ ctx, Spec.removeStrQuotesAndCleanSpaces rev
                   (GetText (Spec.importSHORT_STRING ctx))
                 = Ok (importPath rev ctx)) imports.

(** *** Custom objects *)

(** The last property of a declaration list that bears a name. *)
Definition lastProperty (name : string) (props : list Spec.PropertyDef)
    : option Spec.PropertyDef :=
  last (filter (λ prop, Spec.propName prop = name) props).

(** A property the factory passes: present with a value of its type, or
    absent and optional. *)
Definition propertyPasses (make : string → Types.NodeValue → ErrorOr Types.IType)
    (objValue : gmap string Types.Node) (prop : Spec.PropertyDef) : Prop :=
  match objValue !! Spec.propName prop with
  | Some propNode => ∃ t, make (Spec.propType prop) (Types.Value propNode) = Success t
  | None => Spec.propOptional prop = true
  end.

(** A property the factory stops at, with the error it returns: the
    error of the value, or the missing required property. *)
Definition propertyFails (make : string → Types.NodeValue → ErrorOr Types.IType)
    (objValue : gmap string Types.Node) (prop : Spec.PropertyDef) (err : string) : Prop :=
  match objValue !! Spec.propName prop with
  | Some propNode => make (Spec.propType prop) (Types.Value propNode) = Failure err
  | None =>
      Spec.propOptional prop = false ∧
      err = "missing required property " +:+ Spec.propName prop
  end.

(** *** The store of the TOML listener *)

(** The tag that goes with the dynamic type of a value. *)
Definition typeOf (v : Toml.Value) : Parsers.FieldType :=
  match v with
  | Toml.VNil => Parsers.Null
  | Toml.VBool _ => Parsers.Bool
  | Toml.VInt _ => Parsers.Int
  | Toml.VFloat _ => Parsers.Float
  | Toml.VString _ => Parsers.String
  | Toml.VArray _ => Parsers.Array
  | Toml.VObject _ => Parsers.Object
  end.

(** A pointer with a node behind it. *)
Definition live (h : gmap Toml.ptr Toml.Node) (l : Toml.ptr) : Prop := is_Some (h !! l).

(** The pointers a value holds are live. *)
Definition valueLive (h : gmap Toml.ptr Toml.Node) (v : Toml.Value) : Prop :=
  match v with
  | Toml.VArray elems => Forall (live h) elems
  | Toml.VObject fields => map_Forall (λ _ l, live h l) fields
  | _ => True
  end.

(** A node whose tag tells the type of its value, so that the casts of
    the readers hold, with live pointers in it. *)
Definition nodeSound (h : gmap Toml.ptr Toml.Node) (n : Toml.Node) : Prop :=
  Toml.Type_ n = typeOf (Toml.Value_ n) ∧ valueLive h (Toml.Value_ n).

Definition storeSound (h : gmap Toml.ptr Toml.Node) : Prop :=
  map_Forall (λ _ n, nodeSound h n) h.

(** A listener over a sound store, with live pointers on its stack and
    a live root, if it has one. *)
Definition sound (p : Toml.tomlParser) : Prop :=
  storeSound (Toml.heap p) ∧
  Forall (live (Toml.heap p)) (Toml.stack p) ∧
  from_option (live (Toml.heap p)) True (Toml.configFile p).

(** What a call may do to a node that was there before it: add entries
    to the map of an object, and nothing else. *)
Definition grown (n n' : Toml.Node) : Prop :=
  Toml.Type_ n' = Toml.Type_ n ∧
  Toml.ArrayType n' = Toml.ArrayType n ∧
  Toml.NameLocation n' = Toml.NameLocation n ∧
  Toml.ValueLocation n' = Toml.ValueLocation n ∧
  match Toml.Value_ n, Toml.Value_ n' with
  | Toml.VObject fields, Toml.VObject fields' => fields ⊆ fields'
  | v, v' => v' = v
  end.

Definition storeGrown (h h' : gmap Toml.ptr Toml.Node) : Prop :=
  ∀ l n, h !! l = Some n → ∃ n', h' !! l = Some n' ∧ grown n n'.

(** A text [strconv.Atoi] reads: decimal digits, one at least, after at
    most one sign. *)
Definition allDigits (s : string) : bool :=
  forallb (λ c, bool_decide (is_Some (digitOf c))) (list_ascii_of_string s).

Definition signed (s : string) : bool :=
  match s with
  | String c _ => Ascii.eqb c "+" || Ascii.eqb c "-"
  | EmptyString => false
  end.

Definition digitsOf (s : string) : string :=
  match s with
  | String c rest => if signed s then rest else s
  | EmptyString => s
  end.

Definition decimal (s : string) : bool :=
  negb (String.eqb (digitsOf s) EmptyString) && allDigits (digitsOf s).

(** The number a string of decimal digits writes, after the digits
    that gave [n], and the number a decimal text writes. *)
Fixpoint numberOf (digits : string) (n : Z) : Z :=
  match digits with
  | EmptyString => n
  | String c rest => numberOf rest (10 * n + default 0 (digitOf c))
  end.

Definition written (s : string) : Z :=
  if HasPrefix s "-" then - numberOf (digitsOf s) 0 else numberOf (digitsOf s) 0.

(** The texts on which [cleanString] panics. *)
Definition bareDelimiters : list string :=
  [Toml.basic; Toml.literal;
   Toml.mlBasic; Toml.mlBasic +:+ Toml.basic; Toml.mlBasic +:+ Toml.basic +:+ Toml.basic;
   Toml.mlLiteral; Toml.mlLiteral +:+ Toml.literal;
   Toml.mlLiteral +:+ Toml.literal +:+ Toml.literal].

(** The delimiters [cleanString] knows, and no delimiter. *)
Definition delimiters : list string :=
  [Toml.mlBasic; Toml.mlLiteral; Toml.basic; Toml.literal; EmptyString].

(** What a handler may do to the listener: a sound listener stays
    sound, the root stays, no node leaves the store and no error is taken
    back. *)
Definition steps (p p' : Toml.tomlParser) : Prop :=
  (sound p → sound p') ∧
  Toml.configFile p' = Toml.configFile p ∧
  (∀ q, live (Toml.heap p) q → live (Toml.heap p') q) ∧
  ∃ new, Toml.errs p' = Toml.errs p ++ new.

(** *** Values in the TOML tree *)

(** A tree in which the listener has no handler. *)
Fixpoint silent (t : Toml.TomlTree) : bool :=
  match t with
  | Toml.ROther children => forallb silent children
  | Toml.RTerminal _ => true
  | _ => false
  end.

(** What a scalar rule stores when its handler returns: the context it
    takes the location from, the tag and the value. The rule may stand
    alone inside rules without a handler, as the grammar wraps it. *)
Fixpoint scalarOf (ParseFloat : string → ErrorOr Z) (t : Toml.TomlTree)
    : option (RuleContext * Parsers.FieldType * Toml.Value) :=
  match t with
  | Toml.RString ctx children | Toml.RDate_time ctx children =>
      match Toml.cleanString (ctxText ctx) with
      | Ok s => if forallb silent children
                then Some (ctx, Parsers.String, Toml.VString s) else None
      | Panic _ => None
      end
  | Toml.RInteger ctx children =>
      match Atoi (ctxText ctx) with
      | Success i => if forallb silent children
                     then Some (ctx, Parsers.Int, Toml.VInt i) else None
      | Failure _ => None
      end
  | Toml.RFloating_point ctx children =>
      match ParseFloat (ctxText ctx) with
      | Success f => if forallb silent children
                     then Some (ctx, Parsers.Float, Toml.VFloat f) else None
      | Failure _ => None
      end
  | Toml.RBool ctx children =>
      match ParseBool (ctxText ctx) with
      | Some b => if forallb silent children
                  then Some (ctx, Parsers.Bool, Toml.VBool b) else None
      | None => None
      end
  | Toml.ROther [t'] => scalarOf ParseFloat t'
  | _ => None
  end.

(** The scalars among the children of an array, in source order, when
    every child is a scalar or a tree without handlers. *)
Fixpoint elements (ParseFloat : string → ErrorOr Z) (children : list Toml.TomlTree)
    : option (list (RuleContext * Parsers.FieldType * Toml.Value)) :=
  match children with
  | [] => Some []
  | child :: rest =>
      if silent child then elements ParseFloat rest
      else
        match scalarOf ParseFloat child, elements ParseFloat rest with
        | Some e, Some es => Some (e :: es)
        | _, _ => None
        end
  end.

(** The node an array holds for a scalar. *)
Definition elementOf (e : RuleContext * Parsers.FieldType * Toml.Value) : Toml.Node :=
  Toml.elementNode e.1.2 e.2 e.1.1.

(** The node a key holds once a scalar has been written into it. *)
Definition valueNode (key : Toml.KeyContext)
    (e : RuleContext * Parsers.FieldType * Toml.Value) : Toml.Node :=
  {| Toml.Type_ := e.1.2; Toml.ArrayType := Parsers.Null; Toml.Value_ := e.2;
     Toml.NameLocation := Toml.keyLocation key;
     Toml.ValueLocation := Toml.locationOf (GetStart e.1.1) (GetStop e.1.1) |}.

(** A node overwritten by a scalar. *)
Definition overwritten (node : Toml.Node)
    (e : RuleContext * Parsers.FieldType * Toml.Value) : Toml.Node :=
  Toml.setValueLocation (Toml.setValue node e.1.2 e.2)
    (Toml.locationOf (GetStart e.1.1) (GetStop e.1.1)).

(** The node the tree holds for a table header of key [key] at the top
    level: the entry of the root for a standard table, the last element
    of the array in that entry for an array of tables. *)
Definition tableNode (h : gmap Toml.ptr Toml.Node) (root : Toml.ptr) (key : string)
    (kind : Toml.TableKind) : option Toml.ptr :=
  match h !! root with
  | Some rootNode =>
      match Toml.Value_ rootNode with
      | Toml.VObject fields =>
          match fields !! key, kind with
          | Some l, Toml.StandardTable => Some l
          | Some l, Toml.ArrayTable =>
              match h !! l with
              | Some arrayNode =>
                  match Toml.Value_ arrayNode with
                  | Toml.VArray elems => last elems
                  | _ => None
                  end
              | None => None
              end
          | None, _ => None
          end
      | _ => None
      end
  | None => None
  end.

(** A span from one line, column pair to another. *)
Definition span (line column line' column' : Z) : Parsers.TokenLocation :=
  {| Parsers.Start := {| Parsers.Line := line; Parsers.Column := column |};
     Parsers.End := {| Parsers.Line := line'; Parsers.Column := column' |} |}.

End Design.

(** ** Concrete inputs *)

Module Examples.
Import Antlr.

Definition token (line column : Z) (text : string) : Token :=
  {| GetLine := line; GetColumn := column; GetText := text |}.

(** A rule context spanning one token. *)
Definition rule (line column : Z) (text : string) : RuleContext :=
  {| ctxText := text; GetStart := token line column text;
     GetStop := token line column text |}.

Definition quoted (s : string) : string := Spec.quote +:+ s +:+ Spec.quote.

(** A field [port] that declares [optional: false] and no type. *)
Definition portWithoutType : Spec.SpecificationItemContext :=
  {| Spec.FieldName := rule 4 4 "port";
     Spec.AllMetadataItem := [Spec.OptionalMetadata (token 4 20 "false")];
     Spec.AllCheck := [] |}.

(** A field [port] that declares [type: int], [notes: "first"] and
    [notes: "second"]. *)
Definition portWithTwoNotes : Spec.SpecificationItemContext :=
  {| Spec.FieldName := rule 4 4 "port";
     Spec.AllMetadataItem :=
       [Spec.TypeMetadata (rule 4 16 "int");
        Spec.NotesMetadata (rule 4 28 (quoted "first"));
        Spec.NotesMetadata (rule 4 44 (quoted "second"))];
     Spec.AllCheck := [] |}.

(** A field [port] that declares type, optional and default twice each,
    and a check. *)
Definition portWithDuplicates : Spec.SpecificationItemContext :=
  {| Spec.FieldName := rule 4 4 "port";
     Spec.AllMetadataItem :=
       [Spec.TypeMetadata (rule 4 16 "int");
        Spec.TypeMetadata (rule 4 27 "string");
        Spec.OptionalMetadata (token 4 45 "true");
        Spec.OptionalMetadata (token 4 61 "false");
        Spec.DefaultMetadata (rule 4 77 "1");
        Spec.DefaultMetadata (rule 4 89 "2")];
     Spec.AllCheck := [rule 5 8 "range(1,65535)"] |}.

Definition serverItem : Spec.SpecificationItemContext :=
  {| Spec.FieldName := rule 3 2 "server";
     Spec.AllMetadataItem := [Spec.TypeMetadata (rule 3 16 "object")];
     Spec.AllCheck := [] |}.

Definition portsItem : Spec.SpecificationItemContext :=
  {| Spec.FieldName := rule 4 4 "ports";
     Spec.AllMetadataItem := [Spec.TypeMetadata (rule 4 17 "list<list<int>>")];
     Spec.AllCheck := [] |}.

Definition fileDeclaration : Spec.FileDeclarationContext :=
  {| Spec.fileSHORT_STRING := token 1 6 (quoted "./config.toml");
     Spec.fileIDENTIFIER := token 1 22 "toml" |}.

(** A file declaration and a specification with one field, its type
    missing. *)
Definition treeWithoutType : Spec.ParseTree :=
  Spec.OtherRule
    [Spec.FileDeclaration fileDeclaration [];
     Spec.OtherRule [Spec.SpecificationItem portWithoutType []]].

(** A field [server] with a nested field [ports]. *)
Definition nestedTree : Spec.ParseTree :=
  Spec.OtherRule
    [Spec.FileDeclaration fileDeclaration [];
     Spec.OtherRule
       [Spec.SpecificationItem serverItem
          [Spec.OtherRule [Spec.SpecificationItem portsItem []]]]].

(** One top-level field. *)
Definition topLevelTree : Spec.ParseTree :=
  Spec.SpecificationItem serverItem [].

(** A lexer and a parser that accept the text and answer [tree]. *)
Definition frontendOf (tree : Spec.ParseTree) : Spec.Frontend :=
  {| Spec.NextTokens := λ _, ([], []); Spec.Cmsl := λ _, (tree, []) |}.

(** A receiver that has not parsed anything yet. *)
Definition newSpecParser : Spec.specParserImpl :=
  {| Spec.spec := Spec.emptySpecification; Spec.itemFieldStack := []; Spec.errs := [] |}.

(** The listener after the walk [Parse] makes over a tree. *)
Definition walked (rev : Spec.Revision) (tree : Spec.ParseTree) : Spec.specParserImpl :=
  returned newSpecParser (Spec.Walk rev (Spec.resetParser rev) tree).

(** The listener after entering an item first thing. *)
Definition entered (rev : Spec.Revision) (ctx : Spec.SpecificationItemContext)
    : Spec.specParserImpl :=
  returned newSpecParser (Spec.EnterSpecificationItem rev (Spec.resetParser rev) ctx).

(** An object type [person]: a required [name:string] and an optional
    [age:int]. *)
Definition person : Spec.ObjectDef :=
  {| Spec.Name := "person";
     Spec.Properties :=
       [{| Spec.propName := "name"; Spec.propType := "string"; Spec.propOptional := false |};
        {| Spec.propName := "age"; Spec.propType := "int"; Spec.propOptional := true |}] |}.

(** A string node, as a parser leaves it. *)
Definition stringNode (s : string) (line column : Z) : Types.Node :=
  Types.mkNode Parsers.String Parsers.Null (Types.VString s)
    {| Parsers.Start := {| Parsers.Line := line; Parsers.Column := 0 |};
       Parsers.End := {| Parsers.Line := line; Parsers.Column := column |} |}
    {| Parsers.Start := {| Parsers.Line := line; Parsers.Column := column + 3 |};
       Parsers.End := {| Parsers.Line := line;
                         Parsers.Column := column + 5 + len s |} |}.

(** [name = "a"], [age = "x"], [nick = "b"]. *)
Definition nameOnly : gmap string Types.Node := {[ "name" := stringNode "a" 0 4 ]}.
Definition nameAndBadAge : gmap string Types.Node :=
  {[ "name" := stringNode "a" 0 4; "age" := stringNode "x" 1 3 ]}.
Definition nameAndNick : gmap string Types.Node :=
  {[ "name" := stringNode "a" 0 4; "nick" := stringNode "b" 1 4 ]}.

Definition alice : Types.tCustomObject :=
  {| Types.ObjectName := "person";
     Types.Fields := {[ "name" := Types.tString "a"; "age" := Types.tInt 30 ]} |}.

(** The header [[servers]] and the header [[[servers]]] at the start of
    the second line. *)
Definition serversKey (column : Z) : Toml.KeyContext :=
  {| Toml.Simple_key := Some "servers"; Toml.Dotted_key := None;
     Toml.keyStart := token 2 column "servers";
     Toml.keyStop := token 2 column "servers" |}.

Definition standardHeader : Toml.TableContext :=
  {| Toml.Key := serversKey 1;
     Toml.tableStart := token 2 0 "["; Toml.tableStop := token 2 8 "]" |}.

Definition arrayHeader : Toml.TableContext :=
  {| Toml.Key := serversKey 2;
     Toml.tableStart := token 2 0 "[["; Toml.tableStop := token 2 9 "]]" |}.

Definition header (kind : Toml.TableKind) : Toml.TableContext :=
  match kind with
  | Toml.StandardTable => standardHeader
  | Toml.ArrayTable => arrayHeader
  end.

(** The listener after the header, met first thing in the file. *)
Definition afterHeader (kind : Toml.TableKind) : Toml.tomlParser :=
  returned Toml.startParser (Toml.EnterTable kind Toml.startParser (header kind)).

(** Two imports under the same alias, and one under another. *)
Definition importItem (line : Z) (alias path : string) : Spec.ImportItemContext :=
  {| Spec.importIDENTIFIER := token line 0 alias;
     Spec.importSHORT_STRING := token line 10 (quoted path) |}.

Definition treeWithImports : Spec.ParseTree :=
  Spec.OtherRule
    [Spec.FileDeclaration fileDeclaration [];
     Spec.OtherRule
       [Spec.ImportItem (importItem 2 "db" "./first.toml") [];
        Spec.ImportItem (importItem 3 "cache" "./cache.toml") [];
        Spec.ImportItem (importItem 4 "db" "./second.toml") []]].

(** A lexer and a parser that report one error each. *)
Definition failingFrontend : Spec.Frontend :=
  {| Spec.NextTokens := λ _,
       ([], [{| Spec.seLine := 1; Spec.seColumn := 0;
                Spec.seMsg := "token recognition error" |}]);
     Spec.Cmsl := λ _,
       (Spec.OtherRule [],
        [{| Spec.seLine := 2; Spec.seColumn := 4; Spec.seMsg := "missing type" |}]) |}.

(** No float is read in the examples. *)
Definition noFloats : string → ErrorOr Z := λ _, Failure "invalid syntax".

Definition simpleKey (line : Z) (name : string) : Toml.KeyContext :=
  {| Toml.Simple_key := Some name; Toml.Dotted_key := None;
     Toml.keyStart := token line 0 name; Toml.keyStop := token line 0 name |}.

(** The value rule around a string, an integer and an array. *)
Definition stringValue (line : Z) (text : string) : Toml.TomlTree :=
  Toml.ROther [Toml.RString (rule line 8 text) [Toml.RTerminal (token line 8 text)]].

Definition integerValue (line column : Z) (text : string) : Toml.TomlTree :=
  Toml.ROther [Toml.RInteger (rule line column text)
                 [Toml.RTerminal (token line column text)]].

(** [name = value] on a line: the key, the equals sign, the value. *)
Definition keyValue (line : Z) (name : string) (value : Toml.TomlTree) : Toml.TomlTree :=
  Toml.RKey_value (simpleKey line name)
    [Toml.ROther [Toml.RTerminal (token line 0 name)];
     Toml.RTerminal (token line 6 "=");
     value].

(** [ports = [80, 443]] *)
Definition portsArray : Toml.TomlTree :=
  Toml.ROther
    [Toml.RArray (rule 3 8 "[80,443]")
       [Toml.RTerminal (token 3 8 "[");
        integerValue 3 9 "80";
        Toml.RTerminal (token 3 11 ",");
        integerValue 3 12 "443";
        Toml.RTerminal (token 3 15 "]")]].

(** A file of three lines: a string, an integer and an array. *)
Definition tomlFile : Toml.TomlTree :=
  Toml.ROther
    [keyValue 1 "host" (stringValue 1 (quoted "localhost"));
     keyValue 2 "port" (integerValue 2 8 "8080");
     keyValue 3 "ports" portsArray].

(** [port] given a value twice. *)
Definition tomlWithRedefinition : Toml.TomlTree :=
  Toml.ROther
    [keyValue 1 "port" (integerValue 1 8 "80");
     keyValue 2 "port" (integerValue 2 8 "443")].

(** The listener after the walk [Parse] makes over a tree, from a
    receiver that has not parsed anything yet. *)
Definition newTomlParser : Toml.tomlParser :=
  {| Toml.heap := ∅; Toml.configFile := None; Toml.stack := [];
     Toml.directlyDefined := ∅; Toml.errs := [] |}.

Definition walkedToml (tree : Toml.TomlTree) : Toml.tomlParser :=
  returned newTomlParser (Toml.Walk noFloats Toml.startParser tree).

(** A front end that accepts the text and answers [tree], and one that
    reports an error. *)
Definition tomlFrontendOf (tree : Toml.TomlTree) : Toml.Frontend :=
  {| Toml.TomlRule := λ _, (tree, []) |}.

Definition failingTomlFrontend : Toml.Frontend :=
  {| Toml.TomlRule := λ _,
       (Toml.ROther [],
        [{| Toml.Message := "mismatched input";
            Toml.Location := Toml.locationOf (token 1 0 "=") (token 1 0 "=") |}]) |}.

(** The listener after [port = 80], and after the key of [ports = ...]
    alone. *)
Definition afterPort : Toml.tomlParser :=
  walkedToml (keyValue 1 "port" (integerValue 1 8 "80")).

Definition afterPortsKey : Toml.tomlParser :=
  returned newTomlParser (Toml.EnterKey_value Toml.startParser (simpleKey 3 "ports")).

(** The header [[[port]]] on the second line. *)
Definition portHeader : Toml.TableContext :=
  {| Toml.Key := simpleKey 2 "port";
     Toml.tableStart := token 2 0 "[["; Toml.tableStop := token 2 6 "]]" |}.

(** What [Parse] answers on a tree the front end accepts. *)
Definition parsedToml (tree : Toml.TomlTree)
    : Toml.tomlParser * (option Toml.ptr * list Toml.CMParserError) :=
  returned (newTomlParser, (None, []))
    (Toml.Parse noFloats (tomlFrontendOf tree) newTomlParser EmptyString).

(** The header [[a]] and the header [[[a]]] on the first line. *)
Definition aHeader (kind : Toml.TableKind) : Toml.TableContext :=
  match kind with
  | Toml.StandardTable =>
      {| Toml.Key := {| Toml.Simple_key := Some "a"; Toml.Dotted_key := None;
                        Toml.keyStart := token 1 1 "a"; Toml.keyStop := token 1 1 "a" |};
         Toml.tableStart := token 1 0 "["; Toml.tableStop := token 1 2 "]" |}
  | Toml.ArrayTable =>
      {| Toml.Key := {| Toml.Simple_key := Some "a"; Toml.Dotted_key := None;
                        Toml.keyStart := token 1 2 "a"; Toml.keyStop := token 1 2 "a" |};
         Toml.tableStart := token 1 0 "[["; Toml.tableStop := token 1 3 "]]" |}
  end.

Definition aHeaderRule (kind : Toml.TableKind) : Toml.TomlTree :=
  Toml.ROther
    [match kind with
     | Toml.StandardTable =>
         Toml.RStandard_table (aHeader kind)
           [Toml.RTerminal (token 1 0 "["); Toml.ROther [Toml.RTerminal (token 1 1 "a")];
            Toml.RTerminal (token 1 2 "]")]
     | Toml.ArrayTable =>
         Toml.RArray_table (aHeader kind)
           [Toml.RTerminal (token 1 0 "[["); Toml.ROther [Toml.RTerminal (token 1 2 "a")];
            Toml.RTerminal (token 1 3 "]]")]
     end].

(** The value rule around an empty inline table. *)
Definition emptyInlineTable (line : Z) : Toml.TomlTree :=
  Toml.ROther
    [Toml.RInline_table
       {| ctxText := "{}"; GetStart := token line 8 "{"; GetStop := token line 9 "}" |}
       [Toml.RTerminal (token line 8 "{"); Toml.RTerminal (token line 9 "}")]].

(** The file
<<
    [a]
    x     = 1
    x     = {}
>>
    under either kind of header, as the parser hands it to the walker. *)
Definition tableWithRedefinition (kind : Toml.TableKind) : Toml.TomlTree :=
  Toml.ROther
    [aHeaderRule kind;
     keyValue 2 "x" (integerValue 2 8 "1");
     keyValue 3 "x" (emptyInlineTable 3)].

(** The same file cut after its header. *)
Definition tableAlone (kind : Toml.TableKind) : Toml.TomlTree :=
  Toml.ROther [aHeaderRule kind].

End Examples.

(** * Properties *)

Import Antlr.

(** ** Strings and machine integers *)

Lemma wrap_small z : - 2 ^ 63 <= z < 2 ^ 63 → wrap z = z.
Proof.
  intros Hz. unfold wrap.
  rewrite Z.mod_small by lia. lia.
Qed.

Lemma string_app_cons (x : ascii) (a b : string) :
  String x a +:+ b = String x (a +:+ b).
Proof. reflexivity. Qed.

Lemma string_app_assoc (a b c : string) : (a +:+ b) +:+ c = a +:+ (b +:+ c).
Proof.
  induction a as [|x a IH]; [done|].
  by rewrite !string_app_cons, IH.
Qed.

Lemma string_app_nil_r (a : string) : a +:+ EmptyString = a.
Proof.
  induction a as [|x a IH]; [done|].
  by rewrite string_app_cons, IH.
Qed.

Lemma substring_length_le (s : string) (n m : nat) :
  (String.length (substring n m s) ≤ String.length s - n)%nat.
Proof.
  revert n m. induction s as [|c s IH]; intros [|n] [|m]; simpl; try lia.
  - specialize (IH 0%nat m). lia.
  - apply IH.
  - apply IH.
Qed.

Lemma slice_Ok (s : string) (lo hi : Z) (r : string) :
  slice s lo hi = Ok r →
  0 <= lo <= hi ∧ hi <= len s ∧ r = substring (Z.to_nat lo) (Z.to_nat (hi - lo)) s.
Proof.
  unfold slice.
  destruct (Z.leb_spec 0 lo), (Z.leb_spec lo hi), (Z.leb_spec hi (len s));
    simpl; intros Hs; inversion Hs; subst. repeat split; lia || done.
Qed.

Lemma slice_in_range (s : string) (lo hi : Z) :
  0 <= lo <= hi → hi <= len s →
  slice s lo hi = Ok (substring (Z.to_nat lo) (Z.to_nat (hi - lo)) s).
Proof.
  intros [H1 H2] H3. unfold slice.
  destruct (Z.leb_spec 0 lo), (Z.leb_spec lo hi), (Z.leb_spec hi (len s)); simpl; try lia; done.
Qed.

Lemma bind_Ok {A B} (m : Result A) (f : A → Result B) (b : B) :
  m ≫= f = Ok b → ∃ a, m = Ok a ∧ f a = Ok b.
Proof. destruct m; simpl; [eauto | done]. Qed.

(** ** The handlers on small inputs *)

Example removeStrQuotesAndCleanSpaces_short :
  Spec.removeStrQuotesAndCleanSpaces Spec.SpecParserGo (Examples.quoted "  a   b ")
    = Ok "  a   b " ∧
  Spec.removeStrQuotesAndCleanSpaces Spec.Part000 (Examples.quoted "  a   b ")
    = Ok "a b".
Proof. by vm_compute. Qed.

Example removeStrQuotesAndCleanSpaces_triple :
  let text := Spec.triple_quote +:+ " a  b" +:+ Spec.triple_quote in
  Spec.removeStrQuotesAndCleanSpaces Spec.SpecParserGo text = Ok " a b" ∧
  Spec.removeStrQuotesAndCleanSpaces Spec.Part000 text = Ok "a b".
Proof. by vm_compute. Qed.

(** A text of one byte cannot be stripped of two quotes. *)
Example removeStrQuotesAndCleanSpaces_panics :
  Spec.removeStrQuotesAndCleanSpaces Spec.SpecParserGo "x"
    = Panic "runtime error: slice bounds out of range".
Proof. by vm_compute. Qed.

Example condenseListExpressions_unbalanced :
  Spec.condenseListExpressions "list<list<int>" = Ok "list:list<int" ∧
  Spec.condenseListExpressions "list<>" = Ok "list:".
Proof. by vm_compute. Qed.

Example examples_conform (rev : Spec.Revision) :
  Design.conforming rev Examples.nestedTree = true ∧
  Design.conforming rev Examples.treeWithoutType = true.
Proof. by destruct rev; vm_compute. Qed.

(** ** Normalisation of type descriptors *)

Import Design.

Lemma list_prefix_length (s : string) :
  HasPrefix s "list<" = true → (5 ≤ String.length s)%nat.
Proof.
  unfold HasPrefix. intros H%prefix_correct.
  pose proof (substring_length_le s 0 (String.length "list<")) as Hl.
  rewrite H in Hl. simpl in Hl. lia.
Qed.

Lemma isListExpression_length (s : string) :
  isListExpression s = true → (6 ≤ String.length s)%nat.
Proof.
  unfold isListExpression. intros [Hp Hs]%andb_true_iff.
  pose proof (list_prefix_length s Hp) as H5.
  destruct (decide (String.length s = 5%nat)) as [Heq|]; [|lia].
  exfalso. apply prefix_correct in Hp.
  destruct s as [|c1 [|c2 [|c3 [|c4 [|c5 [|c6 r]]]]]]; simplify_eq/=.
Qed.

Lemma starts_with_list_colon (x : string) :
  isListExpression ("list:" +:+ x) = false.
Proof. reflexivity. Qed.

(** What [condenseLoop] returns: either no turn was taken and the rest is
    no list expression, or the result was extended by [list:]. *)
Lemma condenseLoop_Ok (fuel : nat) (result typeStr r t : string) :
  (String.length typeStr ≤ fuel)%nat →
  Spec.condenseLoop fuel result typeStr = Ok (r, t) →
  isListExpression t = false ∧
  ((r = result ∧ t = typeStr) ∨ ∃ x, r = result +:+ ("list:" +:+ x)).
Proof.
  revert result typeStr. induction fuel as [|fuel IH]; intros result typeStr Hlen; simpl.
  - intros [= <- <-]. destruct typeStr; [|simpl in Hlen; lia]. auto.
  - fold (isListExpression typeStr). destruct (isListExpression typeStr) eqn:Hc.
    + destruct (slice typeStr 5 (sub (len typeStr) 1)) as [s'|] eqn:Hs; simpl; [|done].
      intros Hloop. apply slice_Ok in Hs as (Hlo & Hhi & ->).
      apply IH in Hloop as [Hnl Hr].
      * split; [done|]. right. destruct Hr as [[-> _]|[x ->]].
        -- exists EmptyString. by rewrite string_app_nil_r.
        -- exists ("list:" +:+ x). by rewrite string_app_assoc.
      * pose proof (substring_length_le typeStr (Z.to_nat 5) (Z.to_nat (sub (len typeStr) 1 - 5))).
        apply isListExpression_length in Hc. lia.
    + intros [= <- <-]. auto.
Qed.

Lemma condenseLoop_total (fuel : nat) (result typeStr : string) :
  len typeStr < 2 ^ 63 →
  ∃ r t, Spec.condenseLoop fuel result typeStr = Ok (r, t).
Proof.
  revert result typeStr. induction fuel as [|fuel IH]; intros result typeStr Hlen; simpl.
  - eauto.
  - fold (isListExpression typeStr). destruct (isListExpression typeStr) eqn:Hc; [|eauto].
    apply isListExpression_length in Hc.
    assert (sub (len typeStr) 1 = len typeStr - 1) as ->.
    { unfold sub. apply wrap_small. unfold len in *. lia. }
    rewrite slice_in_range by (unfold len; lia). simpl.
    apply IH.
    pose proof (substring_length_le typeStr (Z.to_nat 5) (Z.to_nat (len typeStr - 1 - 5))).
    unfold len in *. lia.
Qed.

Lemma condense_fixed (r : string) :
  isListExpression r = false → Spec.condenseListExpressions r = Ok r.
Proof.
  intros Hr. unfold Spec.condenseListExpressions.
  destruct (String.length r); simpl; [done|].
  fold (isListExpression r). by rewrite Hr.
Qed.

Lemma condense_normal (typeStr r : string) :
  Spec.condenseListExpressions typeStr = Ok r → isListExpression r = false.
Proof.
  unfold Spec.condenseListExpressions.
  destruct (Spec.condenseLoop _ _ _) as [[r' t]|] eqn:Hloop; simpl; [|done].
  intros [= <-]. apply condenseLoop_Ok in Hloop as [Hnl [[-> ->]|[x ->]]]; [| |done].
  - done.
  - simpl. apply starts_with_list_colon.
Qed.

Lemma condense_idempotent (typeStr r : string) :
  Spec.condenseListExpressions typeStr = Ok r → Spec.condenseListExpressions r = Ok r.
Proof. intros H. by apply condense_fixed, (condense_normal typeStr). Qed.

Lemma condense_total (typeStr : string) :
  len typeStr < 2 ^ 63 → ∃ r, Spec.condenseListExpressions typeStr = Ok r.
Proof.
  intros Hlen. unfold Spec.condenseListExpressions.
  destruct (condenseLoop_total (String.length typeStr) EmptyString typeStr Hlen) as (r & t & ->).
  simpl. eauto.
Qed.

(** ** The loop over the metadata of a field *)

Section MetadataLoop.
Import Spec Design.
Variable rev : Revision.
Variable field : string.

Lemma metadataStep_errs (seen : list MetadataKind) (s s' : MetadataState)
    (item : MetadataItem) :
  agree seen s →
  metadataStep rev field s item = Ok s' →
  ∃ k, kindOf item = Some k ∧
       agree (if decide (k ∈ seen) then seen else k :: seen) s' ∧
       loopErrs s' = loopErrs s ++ reportedDuplicates field (extraDeclarations seen [k]).
Proof.
  destruct s as [fs ft fd fo fn es]. unfold agree; simpl.
  intros (-> & -> & -> & ->) Hstep.
  destruct item as [te|tok|pr|se|text]; simpl in Hstep; [| | | |done].
  - exists KType. split; [done|]. simpl. unfold reportedDuplicates.
    destruct (decide (KType ∈ seen)) as [Hin|Hin].
    + rewrite bool_decide_eq_true_2 in Hstep by done. injection Hstep as <-. simpl.
      rewrite bool_decide_eq_true_2 by done.
      done.
    + rewrite bool_decide_eq_false_2 in Hstep by done.
      apply bind_Ok in Hstep as (ty & _ & [= <-]). simpl.
      rewrite app_nil_r. repeat split; try done; apply bool_decide_ext; set_solver.
  - exists KOptional. split; [done|]. simpl. unfold reportedDuplicates.
    destruct (decide (KOptional ∈ seen)) as [Hin|Hin].
    + rewrite bool_decide_eq_true_2 in Hstep by done. injection Hstep as <-. simpl.
      rewrite (bool_decide_eq_true_2 (KOptional ∈ seen)) by done.
      done.
    + rewrite bool_decide_eq_false_2 in Hstep by done.
      destruct (ParseBool _); [|done]. injection Hstep as <-. simpl.
      rewrite app_nil_r. repeat split; try done; apply bool_decide_ext; set_solver.
  - exists KDefault. split; [done|]. simpl. unfold reportedDuplicates.
    destruct (decide (KDefault ∈ seen)) as [Hin|Hin].
    + rewrite bool_decide_eq_true_2 in Hstep by done. injection Hstep as <-. simpl.
      rewrite (bool_decide_eq_true_2 (KDefault ∈ seen)) by done.
      done.
    + rewrite bool_decide_eq_false_2 in Hstep by done.
      apply bind_Ok in Hstep as (d & _ & [= <-]). simpl.
      rewrite app_nil_r. repeat split; try done; apply bool_decide_ext; set_solver.
  - exists KNotes. split; [done|].
    apply bind_Ok in Hstep as (notes & _ & [= <-]). simpl.
    unfold reportedDuplicates.
    destruct (decide (KNotes ∈ seen)); simpl.
    + by rewrite app_nil_r.
    + rewrite app_nil_r. repeat split; try done; apply bool_decide_ext; set_solver.
Qed.

Lemma extraDeclarations_cons (seen : list MetadataKind) (k : MetadataKind)
    (rest : list MetadataKind) :
  extraDeclarations seen (k :: rest) =
  extraDeclarations seen [k]
    ++ extraDeclarations (if decide (k ∈ seen) then seen else k :: seen) rest.
Proof. simpl. by destruct (decide (k ∈ seen)). Qed.

Lemma metadataLoop_errs (items : list MetadataItem) (seen : list MetadataKind)
    (s s' : MetadataState) :
  agree seen s →
  metadataLoop rev field items s = Ok s' →
  loopErrs s' =
    loopErrs s ++ reportedDuplicates field (extraDeclarations seen (declaredKinds items)) ∧
  foundType s' = bool_decide (KType ∈ seen ++ declaredKinds items).
Proof.
  revert seen s. induction items as [|item rest IH]; intros seen s Hagree Hloop;
    simpl in Hloop.
  - injection Hloop as <-. simpl. rewrite !app_nil_r. split; [done|]. apply Hagree.
  - apply bind_Ok in Hloop as (s1 & Hstep & Hloop).
    destruct (metadataStep_errs seen s s1 item Hagree Hstep) as (k & Hk & Hagree1 & Herrs).
    destruct (IH _ _ Hagree1 Hloop) as [Herrs' Hfound].
    assert (declaredKinds (item :: rest) = k :: declaredKinds rest) as ->.
    { unfold declaredKinds. simpl. by rewrite Hk. }
    rewrite extraDeclarations_cons. unfold reportedDuplicates in *.
    rewrite filter_app, fmap_app, app_assoc, <- Herrs. split; [done|].
    rewrite Hfound. apply bool_decide_ext.
    destruct (decide (k ∈ seen)); set_solver.
Qed.

Lemma extraDeclarations_NoDup (seen kinds : list MetadataKind) :
  NoDup kinds → (∀ k, k ∈ kinds → k ∉ seen) → extraDeclarations seen kinds = [].
Proof.
  revert seen. induction kinds as [|k rest IH]; intros seen Hnd Hfresh; [done|].
  simpl. apply NoDup_cons in Hnd as [Hk Hnd].
  rewrite decide_False by (apply Hfresh; set_solver).
  apply IH; [done|]. intros k' Hin. specialize (Hfresh k'). set_solver.
Qed.

(** Only the kinds type, optional and default are ever reported. *)
Lemma reportedDuplicates_kinds (extras : list MetadataKind) :
  Forall (λ e, ∃ k, k ∈ [KType; KOptional; KDefault] ∧ e = duplicateError (kindName k) field)
         (reportedDuplicates field extras).
Proof.
  unfold reportedDuplicates. apply Forall_fmap, Forall_forall.
  intros k [Hk _]%list_elem_of_filter. exists k. split; [|done].
  destruct k; set_solver.
Qed.

(** *** The value kept for each kind *)

Lemma metadataStep_value (s s' : MetadataState) (item : MetadataItem) (k' : MetadataKind) :
  metadataStep rev field s item = Ok s' →
  kindOf item = Some k' →
  (∀ k, k ≠ k' →
     storedValue k (fieldSpecification s') = storedValue k (fieldSpecification s) ∧
     found k s' = found k s) ∧
  (found k' s = true →
     storedValue k' (fieldSpecification s') = storedValue k' (fieldSpecification s) ∧
     found k' s' = true) ∧
  (found k' s = false →
     declaredValue rev item = Ok (storedValue k' (fieldSpecification s')) ∧
     found k' s' = bool_decide (k' ≠ KNotes)).
Proof.
  destruct s as [fs ft fd fo fn es].
  destruct item as [te|tok|pr|se|text]; simpl; intros Hstep [= <-]; simpl.
  - destruct ft; simpl in Hstep.
    + injection Hstep as <-. simpl. split; [by intros []|]. split; [done|done].
    + apply bind_Ok in Hstep as (ty & Hty & [= <-]). simpl. rewrite Hty.
      split; [by intros []|]. split; [done|done].
  - destruct fo; simpl in Hstep.
    + injection Hstep as <-. simpl. split; [by intros []|]. split; [done|done].
    + destruct (ParseBool _) as [b|]; [|done]. injection Hstep as <-. simpl.
      split; [by intros []|]. split; [done|done].
  - destruct fd; simpl in Hstep.
    + injection Hstep as <-. simpl. split; [by intros []|]. split; [done|done].
    + apply bind_Ok in Hstep as (d & Hd & [= <-]). simpl. rewrite Hd.
      split; [by intros []|]. split; [done|done].
  - destruct fn; simpl in Hstep.
    + injection Hstep as <-. simpl. split; [by intros []|]. split; [done|done].
    + apply bind_Ok in Hstep as (n & Hn & [= <-]). simpl. rewrite Hn.
      split; [by intros []|]. split; [done|done].
Qed.

Lemma metadataStep_kind (s s' : MetadataState) (item : MetadataItem) :
  metadataStep rev field s item = Ok s' → ∃ k, kindOf item = Some k.
Proof. destruct item; simpl; eauto. done. Qed.

(** Once a kind is found, the loop leaves its value alone. *)
Lemma metadataLoop_kept (k : MetadataKind) (items : list MetadataItem)
    (s s' : MetadataState) :
  found k s = true →
  metadataLoop rev field items s = Ok s' →
  storedValue k (fieldSpecification s') = storedValue k (fieldSpecification s) ∧
  found k s' = true.
Proof.
  revert s. induction items as [|item rest IH]; intros s Hfound Hloop; simpl in Hloop.
  - by injection Hloop as <-.
  - apply bind_Ok in Hloop as (s1 & Hstep & Hloop).
    destruct (metadataStep_kind _ _ _ Hstep) as [k' Hk'].
    destruct (metadataStep_value _ _ _ _ Hstep Hk') as (Hother & Hsame & _).
    destruct (decide (k = k')) as [->|Hne].
    + destruct (Hsame Hfound) as [Hv Hf]. destruct (IH _ Hf Hloop) as [Hv' Hf'].
      by rewrite Hv', Hv.
    + destruct (Hother k Hne) as [Hv Hf]. rewrite <- Hf in Hfound.
      destruct (IH _ Hfound Hloop) as [Hv' Hf']. by rewrite Hv', Hv.
Qed.

Lemma firstOf_cons (k : MetadataKind) (item : MetadataItem) (rest : list MetadataItem) :
  firstOf k (item :: rest) =
  if decide (kindOf item = Some k) then Some item else firstOf k rest.
Proof.
  unfold firstOf. destruct (decide (kindOf item = Some k)).
  - by rewrite filter_cons_True.
  - by rewrite filter_cons_False.
Qed.

(** For type, optional and default the first declaration is the one
    whose value stays. *)
Lemma metadataLoop_first (k : MetadataKind) (items : list MetadataItem)
    (s s' : MetadataState) :
  k ≠ KNotes →
  found k s = false →
  metadataLoop rev field items s = Ok s' →
  match firstOf k items with
  | Some item => declaredValue rev item = Ok (storedValue k (fieldSpecification s'))
  | None => storedValue k (fieldSpecification s') = storedValue k (fieldSpecification s)
  end.
Proof.
  intros Hk. revert s. induction items as [|item rest IH]; intros s Hfound Hloop;
    simpl in Hloop.
  - by injection Hloop as <-.
  - apply bind_Ok in Hloop as (s1 & Hstep & Hloop).
    destruct (metadataStep_kind _ _ _ Hstep) as [k' Hk'].
    destruct (metadataStep_value _ _ _ _ Hstep Hk') as (Hother & _ & Hnew).
    rewrite firstOf_cons. destruct (decide (kindOf item = Some k)) as [Heq|Hne].
    + assert (k' = k) as -> by congruence.
      destruct (Hnew Hfound) as [Hv Hf].
      rewrite bool_decide_eq_true_2 in Hf by done.
      destruct (metadataLoop_kept _ _ _ _ Hf Hloop) as [-> _]. done.
    + assert (k ≠ k') as Hkk by congruence.
      destruct (Hother k Hkk) as [Hv Hf]. rewrite <- Hf in Hfound.
      specialize (IH _ Hfound Hloop). destruct (firstOf k rest); [done|].
      by rewrite IH.
Qed.

Lemma lastOf_cons (k : MetadataKind) (item : MetadataItem) (rest : list MetadataItem) :
  lastOf k (item :: rest) =
  match lastOf k rest with
  | Some item' => Some item'
  | None => if decide (kindOf item = Some k) then Some item else None
  end.
Proof.
  unfold lastOf. destruct (decide (kindOf item = Some k)).
  - rewrite filter_cons_True by done.
    destruct (filter _ rest) as [|x l] eqn:Hf; [done|].
    rewrite last_cons_cons. destruct (last (x :: l)) eqn:Hl; [done|].
    by apply last_None in Hl.
  - rewrite filter_cons_False by done. by destruct (last _).
Qed.

(** For notes the flag is never raised, and the last declaration is the
    one whose value stays. *)
Lemma metadataLoop_notes_last (items : list MetadataItem) (s s' : MetadataState) :
  foundNotes s = false →
  metadataLoop rev field items s = Ok s' →
  foundNotes s' = false ∧
  match lastOf KNotes items with
  | Some item => declaredValue rev item = Ok (storedValue KNotes (fieldSpecification s'))
  | None => storedValue KNotes (fieldSpecification s')
            = storedValue KNotes (fieldSpecification s)
  end.
Proof.
  revert s. induction items as [|item rest IH]; intros s Hfound Hloop; simpl in Hloop.
  - by injection Hloop as <-.
  - apply bind_Ok in Hloop as (s1 & Hstep & Hloop).
    destruct (metadataStep_kind _ _ _ Hstep) as [k' Hk'].
    destruct (metadataStep_value _ _ _ _ Hstep Hk') as (Hother & _ & Hnew).
    assert (foundNotes s1 = false) as Hf1.
    { destruct (decide (k' = KNotes)) as [->|Hne].
      - destruct (Hnew Hfound) as [_ Hf]. change (found KNotes s1 = false).
        rewrite Hf. apply bool_decide_eq_false_2. naive_solver.
      - destruct (Hother KNotes) as [_ Hf]; [done|]. simpl in Hf. congruence. }
    destruct (IH _ Hf1 Hloop) as [Hf' Hlast]. split; [done|].
    rewrite lastOf_cons. destruct (lastOf KNotes rest); [done|].
    destruct (decide (kindOf item = Some KNotes)) as [Heq|Hne].
    + assert (k' = KNotes) as -> by congruence.
      destruct (Hnew Hfound) as [Hv _]. by rewrite Hlast.
    + assert (KNotes ≠ k') as Hkk by congruence.
      destruct (Hother KNotes Hkk) as [Hv _]. by rewrite Hlast.
Qed.

End MetadataLoop.

(** ** The listener of the specification compiler *)

Section Listener.
Import Spec Design.
Variable rev : Revision.

Lemma metadataStep_Field (field : string) (s s' : MetadataState) (item : MetadataItem) :
  metadataStep rev field s item = Ok s' →
  Field (fieldSpecification s') = Field (fieldSpecification s).
Proof.
  destruct s as [fs ft fd fo fn es].
  destruct item as [te|tok|pr|se|text]; simpl; [destruct ft|destruct fo|destruct fd|destruct fn|];
    simpl; intros Hstep; try done; try (by injection Hstep as <-).
  - by apply bind_Ok in Hstep as (? & _ & [= <-]).
  - destruct (ParseBool _); [|done]. by injection Hstep as <-.
  - by apply bind_Ok in Hstep as (? & _ & [= <-]).
  - by apply bind_Ok in Hstep as (? & _ & [= <-]).
Qed.

Lemma metadataLoop_Field (field : string) (items : list MetadataItem)
    (s s' : MetadataState) :
  metadataLoop rev field items s = Ok s' →
  Field (fieldSpecification s') = Field (fieldSpecification s).
Proof.
  revert s. induction items as [|item rest IH]; intros s Hloop; simpl in Hloop.
  - by injection Hloop as <-.
  - apply bind_Ok in Hloop as (s1 & Hstep & Hloop).
    rewrite (IH _ Hloop). by apply metadataStep_Field in Hstep.
Qed.

Lemma appendChecks_Field (checks : list RuleContext) (f : FieldSpec) :
  Field (foldl (λ f check, appendCheck f (checkOf check)) f checks) = Field f.
Proof. revert f. induction checks as [|c rest IH]; intros f; simpl; [done|]. by rewrite IH. Qed.

Lemma appendChecks_value (k : MetadataKind) (checks : list RuleContext) (f : FieldSpec) :
  storedValue k (foldl (λ f check, appendCheck f (checkOf check)) f checks)
  = storedValue k f.
Proof.
  revert f. induction checks as [|c rest IH]; intros f; simpl; [done|].
  rewrite IH. by destruct k.
Qed.

Lemma EnterSpecificationItem_Ok (p p' : specParserImpl) (ctx : SpecificationItemContext) :
  EnterSpecificationItem rev p ctx = Ok p' →
  ∃ field s,
    fieldPath rev (itemFieldStack p) (ctxText (FieldName ctx)) = Ok field ∧
    metadataLoop rev field (AllMetadataItem ctx) (loopStart p field ctx) = Ok s ∧
    spec p' = appendField (spec p)
                (foldl (λ f check, appendCheck f (checkOf check)) (fieldSpecification s)
                       (AllCheck ctx)) ∧
    itemFieldStack p' = field :: itemFieldStack p ∧
    errs p' = loopErrs s ++ (if foundType s then [] else [missingTypeError field]).
Proof.
  unfold EnterSpecificationItem.
  intros (field & Hfield & (s & Hloop & [= <-])%bind_Ok)%bind_Ok.
  exists field, s. repeat split; try done. simpl.
  destruct (foundType s); simpl; [by rewrite app_nil_r | done].
Qed.

Lemma fieldPath_pathOf (st : list string) (name field : string) :
  fieldPath rev st name = Ok field → field = pathOf (head st) name.
Proof.
  unfold fieldPath. destruct rev, st as [|parent st]; simpl; try done; by intros [= <-].
Qed.

(** Entering an item appends one field, whose path is the one pushed. *)
Lemma EnterSpecificationItem_field (p p' : specParserImpl) (ctx : SpecificationItemContext) :
  EnterSpecificationItem rev p ctx = Ok p' →
  ∃ f, Fields (spec p') = Fields (spec p) ++ [f] ∧
       Field f = pathOf (head (itemFieldStack p)) (ctxText (FieldName ctx)) ∧
       itemFieldStack p' = Field f :: itemFieldStack p.
Proof.
  intros (field & s & Hfield & Hloop & Hspec & Hstack & _)%EnterSpecificationItem_Ok.
  eexists. rewrite Hspec. split; [done|].
  rewrite appendChecks_Field, (metadataLoop_Field _ _ _ _ Hloop). simpl.
  split; [by apply fieldPath_pathOf|done].
Qed.

Lemma EnterFileDeclaration_Ok (p p' : specParserImpl) (ctx : FileDeclarationContext) :
  EnterFileDeclaration rev p ctx = Ok p' →
  Fields (spec p') = Fields (spec p) ∧ itemFieldStack p' = itemFieldStack p ∧
  errs p' = errs p.
Proof. unfold EnterFileDeclaration. by intros (? & _ & [= <-])%bind_Ok. Qed.

Lemma EnterImportItem_Ok (p p' : specParserImpl) (ctx : ImportItemContext) :
  EnterImportItem rev p ctx = Ok p' →
  Fields (spec p') = Fields (spec p) ∧ itemFieldStack p' = itemFieldStack p ∧
  errs p' = errs p.
Proof. unfold EnterImportItem. by intros (? & _ & [= <-])%bind_Ok. Qed.

(** *** The walk *)

Lemma ParseTree_ind' (P : ParseTree → Prop) :
  (∀ ctx children, Forall P children → P (FileDeclaration ctx children)) →
  (∀ ctx children, Forall P children → P (ImportItem ctx children)) →
  (∀ ctx children, Forall P children → P (SpecificationItem ctx children)) →
  (∀ children, Forall P children → P (OtherRule children)) →
  (∀ symbol, P (Terminal symbol)) →
  ∀ t, P t.
Proof.
  intros Hfile Himport Hitem Hother Hterm.
  fix IH 1. intros [ctx children|ctx children|ctx children|children|symbol].
  - apply Hfile. induction children; constructor; auto.
  - apply Himport. induction children; constructor; auto.
  - apply Hitem. induction children; constructor; auto.
  - apply Hother. induction children; constructor; auto.
  - apply Hterm.
Qed.

Lemma Walk_FileDeclaration (p : specParserImpl) ctx children :
  Walk rev p (FileDeclaration ctx children)
  = EnterFileDeclaration rev p ctx ≫= WalkAll rev children.
Proof.
  simpl. destruct (EnterFileDeclaration rev p ctx) as [p1|]; simpl; [|done].
  revert p1. induction children as [|t ts IH]; intros p1; simpl; [done|].
  destruct (Walk rev p1 t); simpl; [apply IH|done].
Qed.

Lemma Walk_ImportItem (p : specParserImpl) ctx children :
  Walk rev p (ImportItem ctx children)
  = EnterImportItem rev p ctx ≫= WalkAll rev children.
Proof.
  simpl. destruct (EnterImportItem rev p ctx) as [p1|]; simpl; [|done].
  revert p1. induction children as [|t ts IH]; intros p1; simpl; [done|].
  destruct (Walk rev p1 t); simpl; [apply IH|done].
Qed.

Lemma Walk_SpecificationItem (p : specParserImpl) ctx children :
  Walk rev p (SpecificationItem ctx children)
  = p1 ← EnterSpecificationItem rev p ctx;
    p2 ← WalkAll rev children p1;
    mret (ExitSpecificationItem p2).
Proof.
  simpl. destruct (EnterSpecificationItem rev p ctx) as [p1|]; simpl; [|done].
  f_equal. revert p1. induction children as [|t ts IH]; intros p1; simpl; [done|].
  destruct (Walk rev p1 t); simpl; [apply IH|done].
Qed.

Lemma Walk_OtherRule (p : specParserImpl) children :
  Walk rev p (OtherRule children) = WalkAll rev children p.
Proof.
  simpl. revert p. induction children as [|t ts IH]; intros p; simpl; [done|].
  destruct (Walk rev p t); simpl; [apply IH|done].
Qed.

(** A relation between the states before and after that every handler
    establishes holds across a walk. *)
Lemma Walk_relates (R : relation specParserImpl) :
  Reflexive R → Transitive R →
  (∀ p ctx p', EnterFileDeclaration rev p ctx = Ok p' → R p p') →
  (∀ p ctx p', EnterImportItem rev p ctx = Ok p' → R p p') →
  (∀ p ctx p', EnterSpecificationItem rev p ctx = Ok p' → R p p') →
  (∀ p, R p (ExitSpecificationItem p)) →
  ∀ t p p', Walk rev p t = Ok p' → R p p'.
Proof.
  intros Hrefl Htrans Hfile Himport Hitem Hexit.
  assert (∀ children, Forall (λ t, ∀ p p', Walk rev p t = Ok p' → R p p') children →
          ∀ p p', WalkAll rev children p = Ok p' → R p p') as Hall.
  { induction 1 as [|t ts Ht _ IH]; intros p p'; simpl.
    - by intros [= <-].
    - intros (p1 & H1 & H2)%bind_Ok. etrans; eauto. }
  induction t as [ctx ch IH|ctx ch IH|ctx ch IH|ch IH|symbol] using ParseTree_ind';
    intros p p'.
  - rewrite Walk_FileDeclaration. intros (p1 & H1 & H2)%bind_Ok. etrans; eauto.
  - rewrite Walk_ImportItem. intros (p1 & H1 & H2)%bind_Ok. etrans; eauto.
  - rewrite Walk_SpecificationItem.
    intros (p1 & H1 & (p2 & H2 & [= <-])%bind_Ok)%bind_Ok.
    etrans; [eauto|]. etrans; eauto.
  - rewrite Walk_OtherRule. eauto.
  - simpl. by intros [= <-].
Qed.

(** The paths stored by a walk are the declared ones, and the stack is
    back where it was. *)
Lemma Walk_paths (t : ParseTree) (p p' : specParserImpl) :
  Walk rev p t = Ok p' →
  Field <$> Fields (spec p')
    = (Field <$> Fields (spec p)) ++ declaredPaths (head (itemFieldStack p)) t ∧
  itemFieldStack p' = itemFieldStack p.
Proof.
  assert (∀ children,
            Forall (λ t, ∀ p p', Walk rev p t = Ok p' →
                      Field <$> Fields (spec p')
                        = (Field <$> Fields (spec p))
                            ++ declaredPaths (head (itemFieldStack p)) t ∧
                      itemFieldStack p' = itemFieldStack p) children →
          ∀ p p', WalkAll rev children p = Ok p' →
            Field <$> Fields (spec p')
              = (Field <$> Fields (spec p))
                  ++ concat (map (declaredPaths (head (itemFieldStack p))) children) ∧
            itemFieldStack p' = itemFieldStack p) as Hall.
  { induction 1 as [|c cs Hc _ IH]; intros q q'; simpl.
    - intros [= <-]. by rewrite app_nil_r.
    - intros (q1 & H1 & H2)%bind_Ok.
      destruct (Hc _ _ H1) as [Hf1 Hs1]. destruct (IH _ _ H2) as [Hf2 Hs2].
      rewrite Hf2, Hf1, Hs1, app_assoc. split; [done|congruence]. }
  revert p p'.
  induction t as [ctx ch IH|ctx ch IH|ctx ch IH|ch IH|symbol] using ParseTree_ind';
    intros p p'.
  - rewrite Walk_FileDeclaration. intros (p1 & H1 & H2)%bind_Ok.
    apply EnterFileDeclaration_Ok in H1 as (Hf & Hs & _).
    destruct (Hall _ IH _ _ H2) as [Hf2 Hs2]. simpl. rewrite Hf2, Hf, Hs. split; congruence.
  - rewrite Walk_ImportItem. intros (p1 & H1 & H2)%bind_Ok.
    apply EnterImportItem_Ok in H1 as (Hf & Hs & _).
    destruct (Hall _ IH _ _ H2) as [Hf2 Hs2]. simpl. rewrite Hf2, Hf, Hs. split; congruence.
  - rewrite Walk_SpecificationItem.
    intros (p1 & H1 & (p2 & H2 & [= <-])%bind_Ok)%bind_Ok.
    apply EnterSpecificationItem_field in H1 as (f & Hf & Hpath & Hs).
    destruct (Hall _ IH _ _ H2) as [Hf2 Hs2]. simpl.
    rewrite Hf2, Hf, Hs2, Hs, fmap_app, <- app_assoc. simpl. rewrite Hpath. done.
  - rewrite Walk_OtherRule. intros H. by apply Hall.
  - simpl. intros [= <-]. by rewrite app_nil_r.
Qed.

End Listener.

(** ** The specification compiler: the properties *)

Section SpecificationCompiler.
Import Spec Design.

Lemma resetParser_root (rev : Revision) :
  head (itemFieldStack (resetParser rev)) = rootOf rev.
Proof. by destruct rev. Qed.

(** [C3], as the sources have it. The stored path of every field is the
    path of the enclosing field, a single dot and the local name. For a
    top-level field the path is the local name alone in [part_000], whose
    path stack starts empty, and a dot followed by the local name in
    [spec_parser.go], which pushes an empty root path first. *)
Theorem stored_paths_follow_nesting (rev : Revision) (tree : ParseTree)
    (p : specParserImpl) :
  Walk rev (resetParser rev) tree = Ok p →
  Field <$> Fields (spec p) = declaredPaths (rootOf rev) tree ∧
  (∀ parent name, pathOf (Some parent) name = parent +:+ "." +:+ name) ∧
  (∀ name, pathOf (rootOf Part000) name = name) ∧
  (∀ name, pathOf (rootOf SpecParserGo) name = "." +:+ name).
Proof.
  intros Hwalk. apply Walk_paths in Hwalk as [Hpaths _].
  rewrite resetParser_root in Hpaths. by destruct rev.
Qed.

Lemma stored_paths_follow_nesting_witness :
  Walk SpecParserGo (resetParser SpecParserGo) Examples.nestedTree
    = Ok (Examples.walked SpecParserGo Examples.nestedTree) ∧
  Field <$> Fields (spec (Examples.walked SpecParserGo Examples.nestedTree))
    = [".server"; ".server.ports"] ∧
  Walk Part000 (resetParser Part000) Examples.nestedTree
    = Ok (Examples.walked Part000 Examples.nestedTree) ∧
  Field <$> Fields (spec (Examples.walked Part000 Examples.nestedTree))
    = ["server"; "server.ports"].
Proof.
  assert (Walk SpecParserGo (resetParser SpecParserGo) Examples.nestedTree
          = Ok (Examples.walked SpecParserGo Examples.nestedTree)) as H1
    by (vm_compute; reflexivity).
  assert (Walk Part000 (resetParser Part000) Examples.nestedTree
          = Ok (Examples.walked Part000 Examples.nestedTree)) as H2
    by (vm_compute; reflexivity).
  split; [exact H1|]. split.
  - rewrite (proj1 (stored_paths_follow_nesting _ _ _ H1)). vm_compute. reflexivity.
  - split; [exact H2|].
    rewrite (proj1 (stored_paths_follow_nesting _ _ _ H2)). vm_compute. reflexivity.
Defined.

(** [C3] as it is worded fails on [spec_parser.go]: the top-level field
    [server] is stored under the path [.server]. *)
Lemma top_level_path_keeps_separator :
  ¬ (∀ rev tree p,
       Walk rev (resetParser rev) tree = Ok p →
       Field <$> Fields (spec p) = declaredPaths None tree).
Proof.
  intros H.
  specialize (H SpecParserGo Examples.topLevelTree
                (Examples.walked SpecParserGo Examples.topLevelTree)).
  assert (Field <$> Fields (spec (Examples.walked SpecParserGo Examples.topLevelTree))
          = [".server"]) as Hcode by (vm_compute; reflexivity).
  rewrite Hcode in H. specialize (H ltac:(vm_compute; reflexivity)).
  vm_compute in H. discriminate H.
Qed.

(** *** Type descriptors *)

Lemma EnterSpecificationItem_normalised (p p' : specParserImpl)
    (ctx : SpecificationItemContext) :
  EnterSpecificationItem Part000 p ctx = Ok p' →
  ∃ f, Fields (spec p') = Fields (spec p) ++ [f] ∧ normalised f.
Proof.
  intros (field & s & Hfield & Hloop & Hspec & _)%EnterSpecificationItem_Ok.
  eexists. rewrite Hspec. split; [done|]. unfold normalised.
  pose proof (appendChecks_value KType (AllCheck ctx) (fieldSpecification s)) as Hv.
  injection Hv as ->.
  pose proof (metadataLoop_first Part000 field KType _ (loopStart p field ctx) s
                ltac:(done) eq_refl Hloop) as Hfirst.
  destruct (firstOf KType (AllMetadataItem ctx)) as [item|] eqn:Hitem.
  - apply head_Some_elem_of, list_elem_of_filter in Hitem as [Hkind _].
    destruct item as [te| | | |]; simplify_eq/=.
    apply bind_Ok in Hfirst as (ty & Hty & [= <-]).
    by apply condense_idempotent in Hty.
  - by injection Hfirst as ->.
Qed.

Lemma Walk_normalised (tree : ParseTree) (p p' : specParserImpl) :
  Walk Part000 p tree = Ok p' →
  ∃ new, Fields (spec p') = Fields (spec p) ++ new ∧ Forall normalised new.
Proof.
  revert tree p p'. apply Walk_relates.
  - intros p. exists []. by rewrite app_nil_r.
  - intros p1 p2 p3 (n1 & -> & H1) (n2 & -> & H2). exists (n1 ++ n2).
    rewrite app_assoc. split; [done|]. by apply Forall_app.
  - intros p ctx p' (-> & _)%EnterFileDeclaration_Ok. exists []. by rewrite app_nil_r.
  - intros p ctx p' (-> & _)%EnterImportItem_Ok. exists []. by rewrite app_nil_r.
  - intros p ctx p' (f & -> & Hf)%EnterSpecificationItem_normalised.
    exists [f]. split; [done|]. by constructor.
  - intros p. exists []. by rewrite app_nil_r.
Qed.

(** [C4]. [list<list<int>>] becomes [list:list:int] and [int] stays;
    [condenseListExpressions] returns on every Go string, and what it
    returns it leaves unchanged when applied again; so does every
    [FieldType] that [part_000], the revision that normalises, stores. *)
Theorem condenseListExpressions_idempotent :
  condenseListExpressions "list<list<int>>" = Ok "list:list:int" ∧
  condenseListExpressions "int" = Ok "int" ∧
  (∀ typeStr, len typeStr < 2 ^ 63 →
     ∃ r, condenseListExpressions typeStr = Ok r ∧ condenseListExpressions r = Ok r) ∧
  (∀ tree p, Walk Part000 (resetParser Part000) tree = Ok p →
     Forall (λ f, condenseListExpressions (FieldType f) = Ok (FieldType f))
            (Fields (spec p))).
Proof.
  split; [by vm_compute|]. split; [by vm_compute|]. split.
  - intros typeStr Hlen. destruct (condense_total typeStr Hlen) as [r Hr].
    exists r. split; [done|]. by apply condense_idempotent in Hr.
  - intros tree p (new & -> & Hnew)%Walk_normalised. done.
Qed.

Lemma condenseListExpressions_idempotent_witness :
  len "list<list<string>>" < 2 ^ 63 ∧
  (∃ r, condenseListExpressions "list<list<string>>" = Ok r ∧
        condenseListExpressions r = Ok r) ∧
  Walk Part000 (resetParser Part000) Examples.nestedTree
    = Ok (Examples.walked Part000 Examples.nestedTree) ∧
  Forall (λ f, condenseListExpressions (FieldType f) = Ok (FieldType f))
         (Fields (spec (Examples.walked Part000 Examples.nestedTree))).
Proof.
  destruct condenseListExpressions_idempotent as (_ & _ & Hidem & Hstored).
  assert (len "list<list<string>>" < 2 ^ 63) as Hlen by (vm_compute; reflexivity).
  assert (Walk Part000 (resetParser Part000) Examples.nestedTree
          = Ok (Examples.walked Part000 Examples.nestedTree)) as Hwalk
    by (vm_compute; reflexivity).
  split; [exact Hlen|]. split; [exact (Hidem _ Hlen)|].
  split; [exact Hwalk|]. exact (Hstored _ _ Hwalk).
Defined.

(** *** Metadata *)

Lemma loopStart_agree (p : specParserImpl) (field : string)
    (ctx : SpecificationItemContext) :
  agree [] (loopStart p field ctx).
Proof. done. Qed.

Lemma EnterSpecificationItem_errs (rev : Revision) (p p' : specParserImpl)
    (ctx : SpecificationItemContext) :
  EnterSpecificationItem rev p ctx = Ok p' →
  ∃ field,
    fieldPath rev (itemFieldStack p) (ctxText (FieldName ctx)) = Ok field ∧
    errs p' = errs p ++ fieldErrors field (AllMetadataItem ctx).
Proof.
  intros (field & s & Hfield & Hloop & _ & _ & Herrs)%EnterSpecificationItem_Ok.
  exists field. split; [done|].
  destruct (metadataLoop_errs rev field _ [] _ _ (loopStart_agree p field ctx) Hloop)
    as [Hl Hf].
  rewrite Herrs, Hl, Hf. unfold fieldErrors. simpl. by rewrite app_assoc.
Qed.

(** The errors a walk gathers are those of the fields of the tree, in
    source order; none is taken back. *)
Lemma Walk_errs (rev : Revision) (t : ParseTree) (p p' : specParserImpl) :
  Walk rev p t = Ok p' →
  errs p' = errs p ++ declaredErrors (head (itemFieldStack p)) t.
Proof.
  assert (∀ children,
            Forall (λ t, ∀ p p', Walk rev p t = Ok p' →
                      errs p' = errs p ++ declaredErrors (head (itemFieldStack p)) t)
                   children →
          ∀ p p', WalkAll rev children p = Ok p' →
            errs p' = errs p
                      ++ concat (map (declaredErrors (head (itemFieldStack p))) children))
    as Hall.
  { induction 1 as [|c cs Hc _ IH]; intros q q'; simpl.
    - intros [= <-]. by rewrite app_nil_r.
    - intros (q1 & H1 & H2)%bind_Ok.
      rewrite (IH _ _ H2), (Hc _ _ H1), app_assoc.
      apply Walk_paths in H1 as [_ Hstack]. by rewrite Hstack. }
  revert p p'.
  induction t as [ctx ch IH|ctx ch IH|ctx ch IH|ch IH|symbol] using ParseTree_ind';
    intros p p'.
  - rewrite Walk_FileDeclaration. intros (p1 & H1 & H2)%bind_Ok.
    apply EnterFileDeclaration_Ok in H1 as (_ & Hs & He).
    rewrite (Hall _ IH _ _ H2), Hs, He. done.
  - rewrite Walk_ImportItem. intros (p1 & H1 & H2)%bind_Ok.
    apply EnterImportItem_Ok in H1 as (_ & Hs & He).
    rewrite (Hall _ IH _ _ H2), Hs, He. done.
  - rewrite Walk_SpecificationItem.
    intros (p1 & H1 & (p2 & H2 & [= <-])%bind_Ok)%bind_Ok.
    destruct (EnterSpecificationItem_errs _ _ _ _ H1) as (field & Hfield & Herrs).
    apply fieldPath_pathOf in Hfield as ->.
    apply EnterSpecificationItem_field in H1 as (f & _ & Hpath & Hstack).
    simpl. rewrite (Hall _ IH _ _ H2), Herrs, Hstack, Hpath, app_assoc. done.
  - rewrite Walk_OtherRule. intros H. by apply Hall.
  - simpl. intros [= <-]. by rewrite app_nil_r.
Qed.

(** [C5]. Entering a field that declares no type appends the error
    [missing type metadata for field] with its path; with a type declared
    and no kind declared twice nothing is appended, whichever of
    optional, default and notes are left out. The errors appended are the
    reports of duplicates followed by the missing type, if it is. *)
Theorem missing_type_is_reported (rev : Revision) (p p' : specParserImpl)
    (ctx : SpecificationItemContext) :
  EnterSpecificationItem rev p ctx = Ok p' →
  ∃ field,
    fieldPath rev (itemFieldStack p) (ctxText (FieldName ctx)) = Ok field ∧
    (KType ∉ declaredKinds (AllMetadataItem ctx) →
       ∃ duplicates, errs p' = errs p ++ duplicates ++ [missingTypeError field]) ∧
    (KType ∈ declaredKinds (AllMetadataItem ctx) →
       NoDup (declaredKinds (AllMetadataItem ctx)) →
       errs p' = errs p) ∧
    errs p' = errs p
              ++ reportedDuplicates field
                   (extraDeclarations [] (declaredKinds (AllMetadataItem ctx)))
              ++ (if bool_decide (KType ∈ declaredKinds (AllMetadataItem ctx))
                  then [] else [missingTypeError field]).
Proof.
  intros (field & Hfield & Herrs)%EnterSpecificationItem_errs.
  unfold fieldErrors in Herrs.
  exists field. split; [done|]. split; [|split; [|done]].
  - intros Hno. rewrite bool_decide_eq_false_2 in Herrs by done. eauto.
  - intros Hty Hnd. rewrite bool_decide_eq_true_2 in Herrs by done.
    rewrite extraDeclarations_NoDup in Herrs; [|done|].
    + by rewrite !app_nil_r in Herrs.
    + intros k _. apply not_elem_of_nil.
Qed.

Lemma missing_type_is_reported_witness :
  EnterSpecificationItem Part000 (resetParser Part000) Examples.portWithoutType
    = Ok (Examples.entered Part000 Examples.portWithoutType) ∧
  errs (Examples.entered Part000 Examples.portWithoutType)
    = ["missing type metadata for field port"].
Proof.
  assert (EnterSpecificationItem Part000 (resetParser Part000) Examples.portWithoutType
          = Ok (Examples.entered Part000 Examples.portWithoutType)) as Henter
    by (vm_compute; reflexivity).
  split; [exact Henter|].
  destruct (missing_type_is_reported _ _ _ _ Henter) as (field & Hfield & _ & _ & Herrs).
  rewrite Herrs. vm_compute in Hfield. injection Hfield as <-.
  vm_compute. reflexivity.
Defined.

(** The value stored for type, optional and default is the one of the
    first declaration. *)
Lemma first_declaration_is_kept (rev : Revision) (p p' : specParserImpl)
    (ctx : SpecificationItemContext) (k : MetadataKind) (item : MetadataItem) :
  EnterSpecificationItem rev p ctx = Ok p' →
  k ≠ KNotes →
  firstOf k (AllMetadataItem ctx) = Some item →
  ∃ f, Fields (spec p') = Fields (spec p) ++ [f] ∧
       declaredValue rev item = Ok (storedValue k f).
Proof.
  intros (field & s & _ & Hloop & Hspec & _)%EnterSpecificationItem_Ok Hk Hitem.
  eexists. rewrite Hspec. split; [done|]. rewrite appendChecks_value.
  pose proof (metadataLoop_first rev field k _ (loopStart p field ctx) s Hk
                ltac:(by destruct k) Hloop) as Hfirst.
  by rewrite Hitem in Hfirst.
Qed.

(** The value stored for notes is the one of the last declaration. *)
Lemma last_notes_declaration_is_kept (rev : Revision) (p p' : specParserImpl)
    (ctx : SpecificationItemContext) (item : MetadataItem) :
  EnterSpecificationItem rev p ctx = Ok p' →
  lastOf KNotes (AllMetadataItem ctx) = Some item →
  ∃ f, Fields (spec p') = Fields (spec p) ++ [f] ∧
       declaredValue rev item = Ok (storedValue KNotes f).
Proof.
  intros (field & s & _ & Hloop & Hspec & _)%EnterSpecificationItem_Ok Hitem.
  eexists. rewrite Hspec. split; [done|]. rewrite appendChecks_value.
  destruct (metadataLoop_notes_last rev field _ (loopStart p field ctx) s eq_refl Hloop)
    as [_ Hlast].
  by rewrite Hitem in Hlast.
Qed.

(** Every kind has one extra declaration less than declarations. *)
Lemma extraDeclarations_count (k : MetadataKind) (seen kinds : list MetadataKind) :
  length (filter (λ k', k' = k) (extraDeclarations seen kinds))
  = (length (filter (λ k', k' = k) kinds)
     - (if decide (k ∈ seen) then 0 else if decide (k ∈ kinds) then 1 else 0))%nat.
Proof.
  revert seen. induction kinds as [|k' rest IH]; intros seen; simpl.
  - by destruct (decide (k ∈ seen)).
  - destruct (decide (k' ∈ seen)) as [Hin|Hin].
    + destruct (decide (k' = k)) as [->|Hne].
      * rewrite !filter_cons_True by done. simpl. rewrite IH.
        rewrite !decide_True by (done || set_solver). lia.
      * rewrite !filter_cons_False by done. rewrite IH.
        destruct (decide (k ∈ seen)); [done|].
        destruct (decide (k ∈ rest)), (decide (k ∈ k' :: rest)); set_solver || lia.
    + destruct (decide (k' = k)) as [->|Hne].
      * rewrite filter_cons_True by done. simpl. rewrite IH.
        rewrite (decide_True (P := k ∈ k :: seen)) by set_solver.
        rewrite decide_False by done. rewrite decide_True by set_solver. lia.
      * rewrite filter_cons_False by done. rewrite IH.
        destruct (decide (k ∈ seen)), (decide (k ∈ k' :: seen)); try set_solver.
        destruct (decide (k ∈ rest)), (decide (k ∈ k' :: rest)); set_solver || lia.
Qed.

(** A field that declares type, optional and default twice each: three
    reports, and the first values stay. *)
Example duplicates_are_reported (rev : Revision) :
  errs (Examples.entered rev Examples.portWithDuplicates)
    = [duplicateError "type" (pathOf (rootOf rev) "port");
       duplicateError "optional" (pathOf (rootOf rev) "port");
       duplicateError "default" (pathOf (rootOf rev) "port")] ∧
  (λ f, (FieldType f, Optional f, Default f))
    <$> Fields (spec (Examples.entered rev Examples.portWithDuplicates))
    = [("int", true, "1")].
Proof. destruct rev; vm_compute; done. Qed.

(** [C2] at a field that declares its notes twice: neither revision
    reports the second declaration, and both store its value, not the
    first one. *)
Theorem second_notes_declaration_wins (rev : Revision) :
  EnterSpecificationItem rev (resetParser rev) Examples.portWithTwoNotes
    = Ok (Examples.entered rev Examples.portWithTwoNotes) ∧
  extraDeclarations [] (declaredKinds (AllMetadataItem Examples.portWithTwoNotes))
    = [KNotes] ∧
  errs (Examples.entered rev Examples.portWithTwoNotes) = [] ∧
  Notes <$> Fields (spec (Examples.entered rev Examples.portWithTwoNotes)) = ["second"].
Proof. destruct rev; vm_compute; done. Qed.

(** *** [Parse] *)

Lemma Parse_returns (rev : Revision) (front : Frontend) (p p' : specParserImpl)
    (text : string) (s : option Specification) (e : option string) :
  Parse rev front p text = Ok (p', (s, e)) →
  (s = None ∧ is_Some e ∧ p' = p) ∨ (s = Some (spec p') ∧ e = None).
Proof.
  unfold Parse. simpl.
  destruct (match rev with SpecParserGo => _ | Part000 => _ end) as [tree reports].
  destruct (_ >? _).
  - intros [= <- <- <-]. left. eauto.
  - intros (q & _ & [= <- <- <-])%bind_Ok. by right.
Qed.

(** A returned specification is the one of a walk from the reset
    receiver, over the tree of the parser. *)
Lemma Parse_walks (rev : Revision) (front : Frontend) (p p' : specParserImpl)
    (text : string) (s : Specification) (e : option string) :
  Parse rev front p text = Ok (p', (Some s, e)) →
  ∃ tree, Walk rev (resetParser rev) tree = Ok p' ∧ s = spec p'.
Proof.
  unfold Parse. simpl.
  destruct (match rev with SpecParserGo => _ | Part000 => _ end) as [tree reports].
  destruct (_ >? _); [done|].
  intros (q & Hwalk & [= <- <- <-])%bind_Ok. eauto.
Qed.

(** The specification and the error [Parse] returns are never both nil. *)
Lemma Parse_never_both_nil (rev : Revision) (front : Frontend) (p p' : specParserImpl)
    (text : string) (s : option Specification) (e : option string) :
  Parse rev front p text = Ok (p', (s, e)) → is_Some s ∨ is_Some e.
Proof. intros [(_ & He & _)|[-> _]]%Parse_returns; eauto. Qed.

(** With a specification [Parse] returns a nil error, whatever the walk
    has gathered in [errs]. *)
Lemma Parse_error_with_specification (rev : Revision) (front : Frontend)
    (p p' : specParserImpl) (text : string) (s : Specification) (e : option string) :
  Parse rev front p text = Ok (p', (Some s, e)) → e = None.
Proof. intros [(? & _)|[_ ->]]%Parse_returns; done. Qed.

(** [C1] at a specification whose only field declares no type: the walk
    gathers the error, and [Parse] returns the specification with a nil
    error, in both revisions. *)
Theorem Parse_drops_gathered_errors (rev : Revision) (text : string) :
  Parse rev (Examples.frontendOf Examples.treeWithoutType) Examples.newSpecParser text
    = Ok (Examples.walked rev Examples.treeWithoutType,
          (Some (spec (Examples.walked rev Examples.treeWithoutType)), None)) ∧
  errs (Examples.walked rev Examples.treeWithoutType)
    = [missingTypeError (pathOf (rootOf rev) "port")].
Proof. destruct rev; vm_compute; done. Qed.

(** [C4] as it is worded fails on [spec_parser.go], which stores the
    type as it is written: the stored [list<list<int>>] is changed by the
    normalisation. *)
Lemma stored_type_is_not_normalised :
  ¬ (∀ rev tree p,
       Walk rev (resetParser rev) tree = Ok p →
       Forall (λ f, condenseListExpressions (FieldType f) = Ok (FieldType f))
              (Fields (spec p))).
Proof.
  intros H.
  specialize (H SpecParserGo Examples.nestedTree
                (Examples.walked SpecParserGo Examples.nestedTree)
                ltac:(vm_compute; reflexivity)).
  assert (FieldType <$> Fields (spec (Examples.walked SpecParserGo Examples.nestedTree))
          = ["object"; "list<list<int>>"]) as Hcode by (vm_compute; reflexivity).
  destruct (Fields (spec (Examples.walked SpecParserGo Examples.nestedTree)))
    as [|f1 [|f2 rest]]; try discriminate Hcode.
  injection Hcode as _ Hf2 _.
  apply Forall_cons in H as [_ [H2 _]%Forall_cons].
  rewrite Hf2 in H2. vm_compute in H2. discriminate H2.
Qed.

End SpecificationCompiler.

(** ** The compiler returns on every tree the grammar builds *)

Section Totality.
Import Spec Design.

Lemma sub_len (s : string) (n : Z) :
  len s < 2 ^ 63 → 0 <= n < 2 ^ 62 → sub (len s) n = len s - n.
Proof. intros Hs Hn. unfold sub. apply wrap_small. unfold len in *. lia. Qed.

Lemma removeStrQuotesAndCleanSpaces_total (rev : Revision) (text : string) :
  unquotable rev text = true →
  ∃ r, removeStrQuotesAndCleanSpaces rev text = Ok r.
Proof.
  unfold unquotable, removeStrQuotesAndCleanSpaces.
  intros [Hlen%Z.ltb_lt Hq]%andb_true_iff.
  assert (0 <= len text) as Hpos by (unfold len; lia).
  destruct rev.
  - destruct (HasPrefix text triple_quote).
    + apply Z.leb_le in Hq. rewrite sub_len, slice_in_range by lia. simpl. eauto.
    + apply Z.leb_le in Hq. rewrite sub_len, slice_in_range by lia. eauto.
  - destruct (HasPrefix text triple_quote).
    + apply Z.leb_le in Hq. rewrite sub_len, slice_in_range by lia. simpl. eauto.
    + destruct (HasPrefix text quote).
      * apply Z.leb_le in Hq. rewrite sub_len, slice_in_range by lia. simpl. eauto.
      * simpl. eauto.
Qed.

Lemma metadataStep_total (rev : Revision) (field : string) (s : MetadataState) (item : MetadataItem) :
  conformingItem rev item = true → ∃ s', metadataStep rev field s item = Ok s'.
Proof.
  destruct item as [te|tok|pr|se|text]; simpl; intros Hitem; [| | | |done].
  - destruct (foundType s); [eauto|].
    apply Z.ltb_lt in Hitem. unfold storedType. destruct rev; [simpl; eauto|].
    destruct (condense_total _ Hitem) as [r ->]. simpl. eauto.
  - destruct (foundOptional s); [eauto|].
    apply bool_decide_eq_true in Hitem as [b ->]. eauto.
  - destruct (foundDefault s); [eauto|].
    unfold storedDefault. destruct rev; [simpl; eauto|].
    destruct (removeStrQuotesAndCleanSpaces_total _ _ Hitem) as [r Hr].
    rewrite Hr. simpl. eauto.
  - destruct (foundNotes s); [eauto|].
    destruct (removeStrQuotesAndCleanSpaces_total _ _ Hitem) as [r ->]. simpl. eauto.
Qed.

Lemma metadataLoop_total (rev : Revision) (field : string) (items : list MetadataItem) (s : MetadataState) :
  forallb (conformingItem rev) items = true →
  ∃ s', metadataLoop rev field items s = Ok s'.
Proof.
  revert s. induction items as [|item rest IH]; intros s; simpl; [eauto|].
  intros [Hitem Hrest]%andb_true_iff.
  destruct (metadataStep_total rev field s item Hitem) as [s1 ->]. simpl. by apply IH.
Qed.

Lemma fieldPath_total (rev : Revision) (st : list string) (name : string) :
  hasRoot rev st → ∃ field, fieldPath rev st name = Ok field.
Proof.
  unfold hasRoot, fieldPath. intros Hroot.
  destruct rev, st as [|parent st]; simpl; eauto. by destruct Hroot.
Qed.

Lemma EnterSpecificationItem_total (rev : Revision) (p : specParserImpl) (ctx : SpecificationItemContext) :
  hasRoot rev (itemFieldStack p) →
  forallb (conformingItem rev) (AllMetadataItem ctx) = true →
  ∃ p', EnterSpecificationItem rev p ctx = Ok p'.
Proof.
  intros Hroot Hitems. unfold EnterSpecificationItem.
  destruct (fieldPath_total rev _ (ctxText (FieldName ctx)) Hroot) as [field ->]. simpl.
  destruct (metadataLoop_total rev field _ (loopStart p field ctx) Hitems) as [s ->].
  simpl. eauto.
Qed.

Lemma Walk_total (rev : Revision) (t : ParseTree) (p : specParserImpl) :
  conforming rev t = true →
  hasRoot rev (itemFieldStack p) →
  ∃ p', Walk rev p t = Ok p'.
Proof.
  assert (∀ children,
            Forall (λ t, ∀ p, conforming rev t = true → hasRoot rev (itemFieldStack p) →
                           ∃ p', Walk rev p t = Ok p') children →
            ∀ p, forallb (conforming rev) children = true →
                 hasRoot rev (itemFieldStack p) →
                 ∃ p', WalkAll rev children p = Ok p') as Hall.
  { induction 1 as [|c cs Hc _ IH]; intros q; simpl; [eauto|].
    intros [H1 H2]%andb_true_iff Hroot.
    destruct (Hc q H1 Hroot) as [q1 Hq1]. rewrite Hq1. simpl.
    apply IH; [done|]. apply Walk_paths in Hq1 as [_ Hstack]. by rewrite Hstack. }
  revert p.
  induction t as [ctx ch IH|ctx ch IH|ctx ch IH|ch IH|symbol] using ParseTree_ind';
    intros p; simpl conforming.
  - intros [H1 H2]%andb_true_iff Hroot. rewrite Walk_FileDeclaration.
    destruct (removeStrQuotesAndCleanSpaces_total _ _ H1) as [r Hr].
    unfold EnterFileDeclaration. rewrite Hr. simpl. by apply Hall.
  - intros [H1 H2]%andb_true_iff Hroot. rewrite Walk_ImportItem.
    destruct (removeStrQuotesAndCleanSpaces_total _ _ H1) as [r Hr].
    unfold EnterImportItem. rewrite Hr. simpl. by apply Hall.
  - intros [H1 H2]%andb_true_iff Hroot. rewrite Walk_SpecificationItem.
    destruct (EnterSpecificationItem_total rev p ctx Hroot H1) as [p1 Hp1].
    rewrite Hp1. simpl.
    apply EnterSpecificationItem_field in Hp1 as (f & _ & _ & Hstack).
    destruct (Hall ch IH p1 H2) as [p2 ->]; [|simpl; eauto].
    intros _. by rewrite Hstack.
  - intros H Hroot. rewrite Walk_OtherRule. by apply Hall.
  - simpl. eauto.
Qed.

End Totality.

Section ParseTotal.
Import Spec Design.

(** On a front end whose trees conform, [Parse] returns, with a
    specification or an error. *)
Lemma Parse_total (rev : Revision) (front : Frontend) (p : specParserImpl) (text : string) :
  (∀ tokens, conforming rev (Cmsl front tokens).1 = true) →
  ∃ p' s e, Parse rev front p text = Ok (p', (s, e)) ∧ (is_Some s ∨ is_Some e).
Proof.
  intros Hfront.
  assert (∃ r, Parse rev front p text = Ok r) as [[p' [s e]] HParse].
  { unfold Parse. simpl.
    destruct rev.
    - specialize (Hfront []). destruct (Cmsl front []) as [tree reports].
      destruct (_ >? _); [eauto|].
      destruct (Walk_total SpecParserGo tree (resetParser SpecParserGo) Hfront) as [q ->];
        [done|simpl; eauto].
    - destruct (NextTokens front text) as [tokens lexReports].
      specialize (Hfront tokens). destruct (Cmsl front tokens) as [tree reports].
      destruct (_ >? _); [eauto|].
      destruct (Walk_total Part000 tree (resetParser Part000) Hfront) as [q ->];
        [done|simpl; eauto]. }
  exists p', s, e. split; [done|]. by apply Parse_never_both_nil in HParse.
Qed.
End ParseTotal.

(** ** White space trimming runs to the end *)

Lemma space_width_nil : space_width [] = 0%nat.
Proof. reflexivity. Qed.

Lemma space_width_last_nil : space_width_last [] = 0%nat.
Proof. reflexivity. Qed.

(** With the length of the bytes as fuel, [trim_left] stops at a byte that
    starts no white space. *)
Lemma trim_left_done (fuel : nat) (s : list nat) :
  (length s ≤ fuel)%nat → space_width (trim_left fuel s) = 0%nat.
Proof.
  revert s. induction fuel as [|fuel IH]; intros s Hlen.
  - destruct s; [done | simpl in Hlen; lia].
  - simpl. destruct (space_width s) as [|w] eqn:Hw; [done|].
    apply IH. destruct s as [|c s]; [done|].
    rewrite length_drop. simpl in *. lia.
Qed.

Lemma trim_right_done (fuel : nat) (rs : list nat) :
  (length rs ≤ fuel)%nat → space_width_last (trim_right fuel rs) = 0%nat.
Proof.
  revert rs. induction fuel as [|fuel IH]; intros rs Hlen.
  - destruct rs; [done | simpl in Hlen; lia].
  - simpl. destruct (space_width_last rs) as [|w] eqn:Hw; [done|].
    apply IH. destruct rs as [|c rs]; [done|].
    rewrite length_drop. simpl in *. lia.
Qed.

(** ** Custom objects *)

Section CustomObjects.
Import Types.
Variable MakeType : string → NodeValue → ErrorOr IType.

Lemma customObjectLoop_keys (objValue : gmap string Node) (props : list Spec.PropertyDef)
    (fields fields' : gmap string IType) (k : string) :
  customObjectLoop MakeType objValue props fields = Success fields' →
  is_Some (fields' !! k) →
  is_Some (fields !! k) ∨ (k ∈ Spec.propName <$> props ∧ is_Some (objValue !! k)).
Proof.
  revert fields. induction props as [|prop rest IH]; intros fields; simpl.
  - intros [= <-]. auto.
  - destruct (objValue !! Spec.propName prop) as [propNode|] eqn:Hprop.
    + destruct (MakeType _ _) as [t|err]; [|done]. intros Hloop Hk.
      destruct (IH _ Hloop Hk) as [Hin|[Hin Hsrc]].
      * destruct (decide (Spec.propName prop = k)) as [<-|Hne].
        -- right. split; [apply list_elem_of_here | by rewrite Hprop].
        -- left. by rewrite lookup_insert_ne in Hin.
      * right. split; [by apply list_elem_of_further | done].
    + destruct (negb _); [done|]. intros Hloop Hk.
      destruct (IH _ Hloop Hk) as [Hin|[Hin Hsrc]]; [by left|].
      right. split; [by apply list_elem_of_further | done].
Qed.

Lemma customObjectLoop_ext (objValue objValue' : gmap string Node)
    (props : list Spec.PropertyDef) (fields : gmap string IType) :
  (∀ k, k ∈ Spec.propName <$> props → objValue' !! k = objValue !! k) →
  customObjectLoop MakeType objValue' props fields
  = customObjectLoop MakeType objValue props fields.
Proof.
  revert fields. induction props as [|prop rest IH]; intros fields Hsame; simpl; [done|].
  rewrite Hsame by apply list_elem_of_here.
  assert (∀ k, k ∈ Spec.propName <$> rest → objValue' !! k = objValue !! k) as Hrest
    by (intros k Hk; apply Hsame; by apply list_elem_of_further).
  destruct (objValue !! Spec.propName prop) as [propNode|].
  - destruct (MakeType _ _); [by apply IH | done].
  - destruct (negb _); [done | by apply IH].
Qed.

(** [C10]. The fields of a constructed object are among the declared
    properties (and come from the source map); a source map that differs
    only at undeclared keys gives the same object, so such keys neither
    fail the construction nor show in the result. *)
Theorem undeclared_keys_are_ignored (objValue : gmap string Node)
    (definition : Spec.ObjectDef) (t : tCustomObject) :
  customObjectFactory MakeType objValue definition = Success t →
  (∀ k, is_Some (Fields t !! k) →
        k ∈ Spec.propName <$> Spec.Properties definition ∧ is_Some (objValue !! k)) ∧
  (∀ objValue' : gmap string Node,
     (∀ k, k ∈ Spec.propName <$> Spec.Properties definition →
           objValue' !! k = objValue !! k) →
     customObjectFactory MakeType objValue' definition = Success t).
Proof.
  unfold customObjectFactory.
  destruct (customObjectLoop _ _ _ _) as [fields|err] eqn:Hloop; [|done].
  intros [= <-]. split.
  - intros k Hk. simpl in Hk.
    destruct (customObjectLoop_keys _ _ _ _ k Hloop Hk) as [Hempty|H]; [|done].
    by apply lookup_empty_is_Some in Hempty.
  - intros objValue' Hsame. by rewrite (customObjectLoop_ext objValue objValue'), Hloop.
Qed.

(** The example of the design document for any [MakeType] that takes
    the name and refuses the age. *)
Lemma person_from_map (nameNode ageNode : Node) (name : IType) (err : string) :
  MakeType "string" (Value nameNode) = Success name →
  MakeType "int" (Value ageNode) = Failure err →
  customObjectFactory MakeType {[ "name" := nameNode ]} Examples.person
    = Success {| ObjectName := "person"; Fields := {[ "name" := name ]} |} ∧
  customObjectFactory MakeType ∅ Examples.person
    = Failure "missing required property name" ∧
  customObjectFactory MakeType {[ "name" := nameNode; "age" := ageNode ]} Examples.person
    = Failure err.
Proof.
  intros Hname Hage. unfold customObjectFactory, Examples.person.
  cbn [customObjectLoop Spec.Properties Spec.Name Spec.propName Spec.propType
       Spec.propOptional negb].
  split; [|split].
  - rewrite lookup_singleton_eq, Hname. rewrite lookup_singleton_ne by done.
    by rewrite insert_empty.
  - by rewrite lookup_empty.
  - rewrite lookup_insert_eq, Hname.
    rewrite lookup_insert_ne, lookup_singleton_eq, Hage by done. done.
Qed.

End CustomObjects.

Section Methods.
Import Types.

Lemma GetMethod_get (t : tCustomObject) : GetMethod t "get" = get t.
Proof. unfold GetMethod. by rewrite lookup_singleton_eq. Qed.

(** [C6]. For the object type [person], with a required [name:string]
    and an optional [age:int]: a map with the name alone gives an object
    whose fields hold the name and no age; the empty map fails with
    [missing required property name]; a map whose age is a string fails
    with the type mismatch of the age. [MakeType] is as the design
    document describes it. *)
Theorem person_example (objects : gmap string Spec.ObjectDef) (nameNode ageNode : Node) :
  Value nameNode = VString "a" →
  Value ageNode = VString "x" →
  customObjectFactory (MakeType objects) {[ "name" := nameNode ]} Examples.person
    = Success {| ObjectName := "person"; Fields := {[ "name" := tString "a" ]} |} ∧
  ({[ "name" := tString "a" ]} : gmap string IType) !! "age" = None ∧
  customObjectFactory (MakeType objects) ∅ Examples.person
    = Failure "missing required property name" ∧
  customObjectFactory (MakeType objects) {[ "name" := nameNode; "age" := ageNode ]}
      Examples.person
    = Failure (typeMismatch "int").
Proof.
  intros Hname Hage.
  destruct (person_from_map (MakeType objects) nameNode ageNode (tString "a")
              (typeMismatch "int")) as (H1 & H2 & H3).
  - by rewrite Hname.
  - by rewrite Hage.
  - by rewrite H1, H2, H3.
Qed.

Lemma person_example_witness :
  Value (Examples.stringNode "a" 0 4) = VString "a" ∧
  Value (Examples.stringNode "x" 1 3) = VString "x" ∧
  customObjectFactory (MakeType ∅) Examples.nameOnly Examples.person
    = Success {| ObjectName := "person"; Fields := {[ "name" := tString "a" ]} |} ∧
  customObjectFactory (MakeType ∅) ∅ Examples.person
    = Failure "missing required property name" ∧
  customObjectFactory (MakeType ∅) Examples.nameAndBadAge Examples.person
    = Failure "value is not of type int".
Proof.
  destruct (person_example ∅ (Examples.stringNode "a" 0 4) (Examples.stringNode "x" 1 3)
              eq_refl eq_refl) as (H1 & _ & H2 & H3).
  split; [reflexivity|]. split; [reflexivity|].
  split; [exact H1|]. split; [exact H2 | exact H3].
Defined.

Lemma undeclared_keys_are_ignored_witness :
  customObjectFactory (MakeType ∅) Examples.nameOnly Examples.person
    = Success {| ObjectName := "person"; Fields := {[ "name" := tString "a" ]} |} ∧
  customObjectFactory (MakeType ∅) Examples.nameAndNick Examples.person
    = Success {| ObjectName := "person"; Fields := {[ "name" := tString "a" ]} |}.
Proof.
  assert (customObjectFactory (MakeType ∅) Examples.nameOnly Examples.person
          = Success {| ObjectName := "person"; Fields := {[ "name" := tString "a" ]} |})
    as Hbuilt by (vm_compute; reflexivity).
  split; [exact Hbuilt|].
  apply (proj2 (undeclared_keys_are_ignored (MakeType ∅) _ _ _ Hbuilt)).
  intros k Hk. simpl in Hk.
  apply elem_of_cons in Hk as [->|Hk]; [vm_compute; reflexivity|].
  apply elem_of_cons in Hk as [->|Hk]; [vm_compute; reflexivity|].
  by apply elem_of_nil in Hk.
Defined.

(** [C7]. [get] fails exactly when it is not given one argument, or the
    argument is no string, or the object has no field of that name;
    otherwise it returns the value of the field. *)
Theorem get_fails_exactly_when (t : tCustomObject) (args : list IType) :
  ((∃ err, GetMethod t "get" args = Failure err) ↔
     length args ≠ 1%nat ∨
     (∃ a, args = [a] ∧ ∀ s, a ≠ tString s) ∨
     (∃ s, args = [tString s] ∧ Fields t !! s = None)) ∧
  (∀ s v, args = [tString s] → Fields t !! s = Some v →
          GetMethod t "get" args = Success v).
Proof.
  rewrite GetMethod_get. unfold get. split.
  - destruct (decide (length args = 1%nat)) as [Hone|Hmany].
    + destruct args as [|a [|b rest]]; try done. simpl. split.
      * intros [err Herr]. right.
        destruct a as [b|i|f|s|ty l|n fs];
          try (left; eexists; split; [reflexivity | by intros]).
        right. exists s. split; [done|]. by destruct (Fields t !! s).
      * intros [Hlen|[(a' & [= <-] & Ha)|(s & [= ->] & Hs)]]; [done| |].
        -- destruct a as [b|i|f|s|ty l|n fs]; eauto. by destruct (Ha s).
        -- rewrite Hs. eauto.
    + split; [intros _; by left|]. intros _.
      destruct (Z.eqb_spec (Z.of_nat (length args)) 1) as [Heq|Hne]; [lia|].
      simpl. eauto.
  - intros s v -> Hv. simpl. by rewrite Hv.
Qed.

Lemma get_fails_exactly_when_witness :
  GetMethod Examples.alice "get" [tString "age"] = Success (tInt 30) ∧
  (∃ err, GetMethod Examples.alice "get" [tString "nick"] = Failure err) ∧
  (∃ err, GetMethod Examples.alice "get" [tInt 1] = Failure err) ∧
  (∃ err, GetMethod Examples.alice "get" [] = Failure err).
Proof.
  split; [|split; [|split]].
  - apply (proj2 (get_fails_exactly_when Examples.alice [tString "age"]) "age" (tInt 30)).
    + reflexivity.
    + vm_compute. reflexivity.
  - apply (proj1 (get_fails_exactly_when Examples.alice [tString "nick"])).
    right. right. exists "nick". split; [reflexivity | vm_compute; reflexivity].
  - apply (proj1 (get_fails_exactly_when Examples.alice [tInt 1])).
    right. left. exists (tInt 1). split; [reflexivity | discriminate].
  - apply (proj1 (get_fails_exactly_when Examples.alice [])).
    left. simpl. discriminate.
Defined.

(** [C8]. A method the object does not list is answered by a callable
    that fails on every argument list, with an error made of the type
    name of the object and the method asked for. *)
Theorem unknown_method_fails (t : tCustomObject) (method : string) (args : list IType) :
  method ∉ Methods t →
  GetMethod t method args
  = Failure (TypeName t +:+ " does not have method " +:+ method).
Proof.
  intros Hmethod. unfold GetMethod.
  rewrite lookup_singleton_ne; [done|].
  intros <-. apply Hmethod. apply list_elem_of_here.
Qed.

Lemma unknown_method_fails_witness :
  ("length" ∉ Methods Examples.alice) ∧
  GetMethod Examples.alice "length" [tString "name"]
  = Failure "person does not have method length".
Proof.
  assert ("length" ∉ Methods Examples.alice) as Hmethod.
  { unfold Methods. intros [H|H]%elem_of_cons; [discriminate H|].
    by apply elem_of_nil in H. }
  split; [exact Hmethod|].
  exact (unknown_method_fails Examples.alice "length" [tString "name"] Hmethod).
Defined.

End Methods.

(** ** The constructor of typed values has fuel enough *)

Section MakeTypeFuel.
Import Types.

Lemma valueDepth_Value (n : Node) : valueDepth (Value n) = depth n.
Proof. by destruct n as [ty aty v nl vl]; destruct v. Qed.

Lemma depth_elems (elems : list Node) (e : Node) :
  e ∈ elems → (depth e ≤ foldr (λ e d, Nat.max (depth e) d) 0 elems)%nat.
Proof.
  induction elems as [|x rest IH]; [by intros ?%elem_of_nil|].
  intros [->|Hin]%elem_of_cons; simpl; [lia|]. specialize (IH Hin). lia.
Qed.

Lemma depth_fields (fields : gmap string Node) (k : string) (n : Node) :
  fields !! k = Some n →
  (depth n ≤ map_fold (λ _ e d, Nat.max (depth e) d) 0 fields)%nat.
Proof.
  revert k n.
  apply (map_fold_weak_ind
           (λ r (m : gmap string Node), ∀ k n, m !! k = Some n → (depth n ≤ r)%nat)).
  - intros k n. by rewrite lookup_empty.
  - intros i x m r Hfresh IH k n.
    destruct (decide (i = k)) as [->|Hne].
    + rewrite lookup_insert_eq. intros [= ->]. lia.
    + rewrite lookup_insert_ne by done. intros Hk. specialize (IH k n Hk). lia.
Qed.

Lemma makeList_ext (make make' : NodeValue → ErrorOr IType) (elems : list Node) :
  (∀ e, e ∈ elems → make (Value e) = make' (Value e)) →
  makeList make elems = makeList make' elems.
Proof.
  induction elems as [|x rest IH]; intros Hsame; simpl; [done|].
  rewrite Hsame by apply list_elem_of_here.
  rewrite IH; [done|]. intros e He. apply Hsame. by apply list_elem_of_further.
Qed.

Lemma customObjectLoop_make_ext (make make' : string → NodeValue → ErrorOr IType)
    (objValue : gmap string Node) (props : list Spec.PropertyDef)
    (fields : gmap string IType) :
  (∀ k n ty, objValue !! k = Some n → make ty (Value n) = make' ty (Value n)) →
  customObjectLoop make objValue props fields
  = customObjectLoop make' objValue props fields.
Proof.
  intros Hsame. revert fields. induction props as [|prop rest IH]; intros fields; simpl;
    [done|].
  destruct (objValue !! Spec.propName prop) as [propNode|] eqn:Hprop.
  - rewrite (Hsame _ _ _ Hprop). destruct (make' _ _); [apply IH | done].
  - destruct (negb _); [done | apply IH].
Qed.

(** Any fuel from the nesting of the value on gives the same result. *)
Lemma MakeTypeAux_fuel (objects : gmap string Spec.ObjectDef) (fuel fuel' : nat)
    (typeDescriptor : string) (value : NodeValue) :
  (valueDepth value ≤ fuel)%nat → (valueDepth value ≤ fuel')%nat →
  MakeTypeAux objects fuel typeDescriptor value
  = MakeTypeAux objects fuel' typeDescriptor value.
Proof.
  revert fuel' typeDescriptor value.
  induction fuel as [|fuel IH]; intros fuel' typeDescriptor value Hf Hf'.
  - destruct value; simpl in Hf; try lia; by destruct fuel'.
  - destruct fuel' as [|fuel'].
    { destruct value; simpl in Hf'; try lia; done. }
    simpl. repeat (destruct (String.eqb typeDescriptor _); [done|]).
    destruct (HasPrefix typeDescriptor "list:").
    + destruct value as [| | | | |elems|fields]; try done.
      rewrite (makeList_ext _ (MakeTypeAux objects fuel'
                 (substring 5 (String.length typeDescriptor - 5) typeDescriptor)));
        [done|].
      intros e He. pose proof (depth_elems elems e He) as Hd. simpl in Hf, Hf'.
      apply IH; rewrite valueDepth_Value; lia.
    + destruct (objects !! typeDescriptor) as [definition|]; [|done].
      destruct value as [| | | | |elems|fields]; try done.
      unfold customObjectFactory.
      rewrite (customObjectLoop_make_ext _ (MakeTypeAux objects fuel')); [done|].
      intros k n ty Hk. pose proof (depth_fields fields k n Hk) as Hd. simpl in Hf, Hf'.
      apply IH; rewrite valueDepth_Value; lia.
Qed.

(** With fuel from the nesting of the value on, [MakeTypeAux] is
    [MakeType]. *)
Lemma MakeType_fuel (objects : gmap string Spec.ObjectDef) (fuel : nat)
    (typeDescriptor : string) (value : NodeValue) :
  (valueDepth value ≤ fuel)%nat →
  MakeTypeAux objects fuel typeDescriptor value = MakeType objects typeDescriptor value.
Proof. intros Hf. unfold MakeType. by apply MakeTypeAux_fuel. Qed.

End MakeTypeFuel.

(** ** Table headers of the TOML listener *)

Section TableHeaders.
Import Toml Design.

Lemma deref_Ok (h : gmap ptr Node) (l : ptr) (n : Node) :
  deref h l = Ok n → h !! l = Some n.
Proof. unfold deref. destruct (h !! l); [by intros [= ->] | done]. Qed.

Lemma nonNil_Ok (o : option ptr) (l : ptr) : nonNil o = Ok l → o = Some l.
Proof. destruct o; [by intros [= ->] | done]. Qed.

(** The span of a header is never the zero location: it ends after the
    closing bracket. *)
Lemma tokenLocation_not_empty (start stop : Token) :
  realToken stop → Toml.locationOf start stop ≠ Parsers.noLocation.
Proof.
  intros (_ & Hcol & Hlen) Heq. unfold Toml.locationOf, Parsers.noLocation in Heq.
  injection Heq as _ _ _ Hend. unfold add in Hend.
  rewrite wrap_small in Hend by lia. lia.
Qed.

Lemma EnterStandard_table_Ok (p p' : tomlParser) (ctx : TableContext) :
  EnterStandard_table p ctx = Ok p' → headerRefused p p' ∨ headerNode p p' ctx.
Proof.
  unfold EnterStandard_table. intros (fieldKey & _ & Hrest)%bind_Ok.
  destruct (default false _).
  { injection Hrest as <-. left. split; [eauto | done]. }
  apply bind_Ok in Hrest as ([h [fieldNode|err]] & _ & Hrest); simpl in Hrest.
  - apply bind_Ok in Hrest as (l & _ & (node & _ & [= <-])%bind_Ok).
    right. split; [done|]. eexists l, _. simpl.
    split; [done|]. split; [apply lookup_insert_eq|].
    destruct (decide (Type_ _ = Parsers.Null)) as [Hnull|Hnull]; simpl in *; done.
  - injection Hrest as <-. left. split; [eauto | done].
Qed.

Lemma EnterArray_table_Ok (p p' : tomlParser) (ctx : TableContext) :
  EnterArray_table p ctx = Ok p' → headerRefused p p' ∨ headerNode p p' ctx.
Proof.
  unfold EnterArray_table. intros (fieldKey & _ & Hrest)%bind_Ok.
  destruct (default false _).
  { injection Hrest as <-. left. split; [eauto | done]. }
  apply bind_Ok in Hrest as ([h [fieldNode|err]] & _ & Hrest); simpl in Hrest.
  - apply bind_Ok in Hrest
      as (l & _ & (node & Hnode%deref_Ok & (arr & _ & [= <-])%bind_Ok)%bind_Ok).
    right. split; [done|]. eexists (fresh (dom h)), _. simpl.
    split; [done|]. split.
    { rewrite lookup_insert_ne; [apply lookup_insert_eq|].
      intros Heq. apply (is_fresh (dom h)). rewrite <- Heq.
      apply elem_of_dom. eauto. }
    done.
  - injection Hrest as <-. left. split; [eauto | done].
Qed.

(** What a header leaves when its handler returns: it was refused with
    an error, or the node of the table is on top of the stack with the
    span of the header as name location and as value location, which is
    not the zero location for a header the lexer made. *)
Lemma EnterTable_Ok (kind : TableKind) (p p' : tomlParser) (ctx : TableContext) :
  EnterTable kind p ctx = Ok p' →
  ((∃ e, errs p' = errs p ++ [e]) ∧ stack p' = stack p) ∨
  (errs p' = errs p ∧
   ∃ l node,
     stack p' = l :: stack p ∧
     heap p' !! l = Some node ∧
     Type_ node ≠ Parsers.Null ∧
     NameLocation node = Toml.locationOf (tableStart ctx) (tableStop ctx) ∧
     ValueLocation node = NameLocation node ∧
     (realToken (tableStop ctx) → ValueLocation node ≠ Parsers.noLocation)).
Proof.
  intros Henter.
  assert (headerRefused p p' ∨ headerNode p p' ctx) as [Hrefused|Hnode].
  { destruct kind; [by apply EnterStandard_table_Ok | by apply EnterArray_table_Ok]. }
  - by left.
  - right. destruct Hnode as (Herrs & l & node & Hstack & Hheap & Hty & Hname & Hvalue).
    split; [done|]. exists l, node. repeat (split; [done|]).
    intros Hreal. rewrite Hvalue, Hname. by apply tokenLocation_not_empty.
Qed.

End TableHeaders.

(** ** More on strings *)

Lemma string_length_app (a b : string) :
  String.length (a +:+ b) = (String.length a + String.length b)%nat.
Proof.
  induction a as [|x a IH]; [done|].
  rewrite string_app_cons. simpl. by rewrite IH.
Qed.

Lemma len_app (a b : string) : len (a +:+ b) = len a + len b.
Proof. unfold len. rewrite string_length_app. lia. Qed.

Lemma substring_all (a : string) : substring 0 (String.length a) a = a.
Proof. induction a as [|x a IH]; [done|]. simpl. by rewrite IH. Qed.

Lemma substring_0_app (a b : string) : substring 0 (String.length a) (a +:+ b) = a.
Proof.
  induction a as [|x a IH].
  - by destruct b.
  - rewrite string_app_cons. simpl. by rewrite IH.
Qed.

Lemma substring_skip_app (a b : string) (n m : nat) :
  substring (String.length a + n) m (a +:+ b) = substring n m b.
Proof. induction a as [|x a IH]; [done|]. rewrite string_app_cons. simpl. apply IH. Qed.

Lemma prefix_cons (x y : ascii) (a s : string) :
  String.prefix (String x a) (String y s)
  = if ascii_dec x y then String.prefix a s else false.
Proof. reflexivity. Qed.

Lemma prefix_app (a b : string) : String.prefix a (a +:+ b) = true.
Proof.
  induction a as [|x a IH].
  - by destruct b.
  - rewrite string_app_cons, prefix_cons. destruct (ascii_dec x x); [apply IH|done].
Qed.

Lemma prefix_split (a s : string) : String.prefix a s = true → ∃ r, s = a +:+ r.
Proof.
  revert s. induction a as [|x a IH]; intros s.
  - by exists s.
  - destruct s as [|y s]; [discriminate|]. rewrite prefix_cons.
    destruct (ascii_dec x y) as [->|]; [|discriminate].
    intros [r ->]%IH. by exists r.
Qed.

Lemma HasSuffix_app (a b : string) : HasSuffix (a +:+ b) b = true.
Proof.
  unfold HasSuffix. rewrite string_length_app.
  apply andb_true_iff. split; [apply Nat.leb_le; lia|].
  replace (String.length a + String.length b - String.length b)%nat
    with (String.length a + 0)%nat by lia.
  rewrite substring_skip_app, substring_all. apply String.eqb_refl.
Qed.

Lemma substring_split (s : string) (n : nat) :
  (n ≤ String.length s)%nat →
  s = substring 0 n s +:+ substring n (String.length s - n) s.
Proof.
  revert n. induction s as [|x s IH]; intros [|n] Hn; simpl in *; try lia; try done.
  - by rewrite substring_all.
  - rewrite string_app_cons. f_equal. apply IH. lia.
Qed.

Lemma HasSuffix_split (s b : string) : HasSuffix s b = true → ∃ r, s = r +:+ b.
Proof.
  unfold HasSuffix. intros [Hlen%Nat.leb_le Heq%String.eqb_eq]%andb_true_iff.
  exists (substring 0 (String.length s - String.length b) s).
  rewrite (substring_split s (String.length s - String.length b)) at 1 by lia.
  f_equal. rewrite <- Heq at 3. f_equal. lia.
Qed.

Lemma slice_out_of_range (s : string) (lo hi : Z) :
  ¬ (0 <= lo <= hi ∧ hi <= len s) →
  slice s lo hi = Panic "runtime error: slice bounds out of range".
Proof.
  intros Hout. unfold slice.
  destruct (Z.leb_spec 0 lo), (Z.leb_spec lo hi), (Z.leb_spec hi (len s)); simpl;
    try done.
  destruct Hout. lia.
Qed.

Lemma len_nonneg (s : string) : 0 <= len s.
Proof. unfold len. lia. Qed.
(** ** The specification compiler: the walk as a whole *)

Section SpecWalk.
Import Spec Design.

(** [X1] A walk leaves the path stack as it found it: every item that
    [EnterSpecificationItem] pushes is popped by [ExitSpecificationItem],
    whatever the tree holds below it. *)
Theorem walk_restores_path_stack (rev : Revision) (t : ParseTree)
    (p p' : specParserImpl) :
  Walk rev p t = Ok p' → itemFieldStack p' = itemFieldStack p.
Proof. intros Hwalk. by apply Walk_paths in Hwalk as [_ Hstack]. Qed.

Lemma walk_restores_path_stack_witness :
  Walk SpecParserGo (resetParser SpecParserGo) Examples.nestedTree
    = Ok (Examples.walked SpecParserGo Examples.nestedTree) ∧
  itemFieldStack (Examples.walked SpecParserGo Examples.nestedTree)
    = itemFieldStack (resetParser SpecParserGo).
Proof.
  split; [reflexivity|].
  apply (walk_restores_path_stack SpecParserGo Examples.nestedTree). reflexivity.
Defined.

(** [X2] The errors a walk gathers are the errors of the fields the
    tree declares, field by field in source order, after the errors that
    were there before; no handler takes an error back. *)
Theorem walk_gathers_errors_in_source_order (rev : Revision) (t : ParseTree)
    (p p' : specParserImpl) :
  Walk rev p t = Ok p' →
  errs p' = errs p ++ declaredErrors (head (itemFieldStack p)) t.
Proof. apply Walk_errs. Qed.

Lemma walk_gathers_errors_in_source_order_witness :
  Walk Part000 (resetParser Part000) Examples.treeWithoutType
    = Ok (Examples.walked Part000 Examples.treeWithoutType) ∧
  errs (Examples.walked Part000 Examples.treeWithoutType)
    = errs (resetParser Part000)
        ++ declaredErrors (head (itemFieldStack (resetParser Part000)))
             Examples.treeWithoutType.
Proof.
  split; [reflexivity|].
  apply (walk_gathers_errors_in_source_order Part000 Examples.treeWithoutType).
  reflexivity.
Defined.

End SpecWalk.
(** ** The specification compiler: texts *)

Section SpecTexts.
Import Spec Design.

Lemma listOf_length (k : nat) (elem : string) :
  String.length (listOf k elem) = (6 * k + String.length elem)%nat.
Proof.
  induction k as [|k IH]; [done|].
  cbn [listOf]. rewrite !string_length_app, IH. simpl. lia.
Qed.

Lemma listOf_step (x : string) :
  len x < 2 ^ 62 →
  HasPrefix ("list<" +:+ x +:+ ">") "list<" && HasSuffix ("list<" +:+ x +:+ ">") ">" = true ∧
  slice ("list<" +:+ x +:+ ">") 5 (sub (len ("list<" +:+ x +:+ ">")) 1) = Ok x.
Proof.
  intros Hlen. pose proof (len_nonneg x) as Hpos. split.
  - apply andb_true_iff. split; [apply prefix_app|].
    rewrite <- string_app_assoc. apply HasSuffix_app.
  - assert (len ("list<" +:+ x +:+ ">") = len x + 6) as Hl.
    { rewrite !len_app. unfold len. simpl. lia. }
    unfold sub. rewrite Hl, wrap_small by lia.
    rewrite slice_in_range by lia. f_equal.
    replace (Z.to_nat (len x + 6 - 1 - 5)) with (String.length x) by (unfold len; lia).
    change (Z.to_nat 5) with (String.length "list<" + 0)%nat.
    by rewrite substring_skip_app, substring_0_app.
Qed.

Lemma condenseLoop_listOf (k fuel : nat) (result elem : string) :
  (k ≤ fuel)%nat →
  isListExpression elem = false →
  len (listOf k elem) < 2 ^ 62 →
  ∃ r, condenseLoop fuel result (listOf k elem) = Ok (r, elem) ∧
       r +:+ elem = result +:+ condensed k elem.
Proof.
  revert fuel result. induction k as [|k IH]; intros fuel result Hfuel Helem Hlen.
  - exists result. split; [|done]. cbn [listOf]. destruct fuel as [|fuel]; [done|].
    cbn [condenseLoop]. unfold isListExpression in Helem. by rewrite Helem.
  - destruct fuel as [|fuel]; [lia|]. cbn [listOf condenseLoop] in *.
    assert (len (listOf k elem) < 2 ^ 62) as Hlen'.
    { rewrite !len_app in Hlen. pose proof (len_nonneg ">"). unfold len at 1 in Hlen.
      simpl in Hlen. lia. }
    destruct (listOf_step (listOf k elem) Hlen') as [-> ->]. simpl.
    destruct (IH fuel (result +:+ "list:") ltac:(lia) Helem Hlen') as (r & -> & Hr).
    exists r. split; [done|]. rewrite Hr. cbn [condensed].
    by rewrite string_app_assoc.
Qed.

(** [X3] [condenseListExpressions] turns [k] list brackets around an
    element descriptor into [k] list prefixes, whatever [k] is: the loop
    takes one turn for each bracket and never runs short of turns. *)
Theorem condenseListExpressions_nested (k : nat) (elem : string) :
  isListExpression elem = false →
  len (listOf k elem) < 2 ^ 62 →
  condenseListExpressions (listOf k elem) = Ok (condensed k elem).
Proof.
  intros Helem Hlen. unfold condenseListExpressions.
  destruct (condenseLoop_listOf k (String.length (listOf k elem)) EmptyString elem)
    as (r & -> & Hr); [rewrite listOf_length; lia|done|done|].
  simpl. by rewrite Hr.
Qed.

Lemma condenseListExpressions_nested_witness :
  isListExpression "int" = false ∧
  len (listOf 3 "int") < 2 ^ 62 ∧
  condenseListExpressions "list<list<list<int>>>" = Ok "list:list:list:int".
Proof.
  split; [reflexivity|]. split; [reflexivity|].
  apply (condenseListExpressions_nested 3 "int"); reflexivity.
Defined.

(** [X4] On a text that fits a Go string, [removeStrQuotesAndCleanSpaces]
    returns exactly when the text is long enough for the quotes it takes
    off, and panics on a slice out of range otherwise: [spec_parser.go]
    takes one quote off each end of any text that does not open with
    three, [part_000] only off a text that opens with one. *)
Theorem removeStrQuotesAndCleanSpaces_returns_iff (rev : Revision) (text : string) :
  len text < 2 ^ 63 →
  ((∃ r, removeStrQuotesAndCleanSpaces rev text = Ok r) ↔ unquotable rev text = true) ∧
  (unquotable rev text = false →
     removeStrQuotesAndCleanSpaces rev text
     = Panic "runtime error: slice bounds out of range").
Proof.
  intros Hlen. pose proof (len_nonneg text) as Hpos.
  assert (unquotable rev text = false →
          removeStrQuotesAndCleanSpaces rev text
          = Panic "runtime error: slice bounds out of range") as Hpanic.
  { unfold unquotable, removeStrQuotesAndCleanSpaces.
    rewrite (proj2 (Z.ltb_lt _ _) Hlen). cbn [andb].
    assert (HasPrefix text triple_quote = true → 3 <= len text) as Htriple.
    { intros [r ->]%prefix_split. rewrite len_app. pose proof (len_nonneg r).
      change (len triple_quote) with 3. lia. }
    destruct rev.
    - destruct (HasPrefix text triple_quote) eqn:Hp.
      + intros Hq%Z.leb_gt. specialize (Htriple eq_refl).
        rewrite sub_len, slice_out_of_range by lia. done.
      + intros Hq%Z.leb_gt. unfold sub.
        destruct (decide (len text = 0)) as [H0|H0].
        * rewrite H0. apply slice_out_of_range. vm_compute. intros [[_ H] _]. by apply H.
        * rewrite wrap_small by lia. apply slice_out_of_range. lia.
    - destruct (HasPrefix text triple_quote) eqn:Hp.
      + intros Hq%Z.leb_gt. specialize (Htriple eq_refl).
        rewrite sub_len, slice_out_of_range by lia. done.
      + destruct (HasPrefix text quote) eqn:Hp1; [|done].
        intros Hq%Z.leb_gt.
        assert (1 <= len text) as Hone.
        { apply prefix_split in Hp1 as [r ->]. rewrite len_app.
          pose proof (len_nonneg r). change (len quote) with 1. lia. }
        rewrite sub_len, slice_out_of_range by lia. done. }
  split; [|done]. split.
  - intros [r Hr]. destruct (unquotable rev text) eqn:Hu; [done|].
    rewrite Hpanic in Hr by done. done.
  - apply removeStrQuotesAndCleanSpaces_total.
Qed.

Lemma removeStrQuotesAndCleanSpaces_returns_iff_witness :
  len "x" < 2 ^ 63 ∧
  unquotable Part000 "x" = true ∧
  removeStrQuotesAndCleanSpaces Part000 "x" = Ok "x" ∧
  unquotable SpecParserGo "x" = false ∧
  removeStrQuotesAndCleanSpaces SpecParserGo "x"
  = Panic "runtime error: slice bounds out of range".
Proof.
  split; [reflexivity|]. split; [reflexivity|]. split; [reflexivity|].
  split; [reflexivity|].
  apply (removeStrQuotesAndCleanSpaces_returns_iff SpecParserGo "x"); reflexivity.
Defined.

End SpecTexts.
(** ** The specification compiler: one item *)

Section SpecItems.
Import Spec Design.

Lemma metadataLoop_app (rev : Revision) (field : string)
    (before after : list MetadataItem) (s : MetadataState) :
  metadataLoop rev field (before ++ after) s
  = metadataLoop rev field before s ≫= metadataLoop rev field after.
Proof.
  revert s. induction before as [|item rest IH]; intros s; simpl; [done|].
  destruct (metadataStep rev field s item); simpl; [apply IH|done].
Qed.

Lemma declaredKinds_cons (item : MetadataItem) (k : MetadataKind)
    (rest : list MetadataItem) :
  kindOf item = Some k → declaredKinds (item :: rest) = k :: declaredKinds rest.
Proof. intros Hk. unfold declaredKinds. simpl. by rewrite Hk. Qed.

(** The flags after the loop tell which kinds were met. *)
Lemma metadataLoop_agree (rev : Revision) (field : string) (items : list MetadataItem)
    (seen : list MetadataKind) (s s' : MetadataState) :
  agree seen s →
  metadataLoop rev field items s = Ok s' →
  ∃ seen', agree seen' s' ∧ ∀ k, k ∈ seen' ↔ k ∈ seen ∨ k ∈ declaredKinds items.
Proof.
  revert seen s. induction items as [|item rest IH]; intros seen s Hagree Hloop;
    simpl in Hloop.
  - injection Hloop as <-. exists seen. split; [done|]. set_solver.
  - apply bind_Ok in Hloop as (s1 & Hstep & Hloop).
    destruct (metadataStep_errs rev field seen s s1 item Hagree Hstep)
      as (k & Hk & Hagree1 & _).
    destruct (IH _ _ Hagree1 Hloop) as (seen' & Hagree' & Hseen').
    exists seen'. split; [done|]. intros k'. rewrite Hseen'.
    rewrite (declaredKinds_cons item k) by done.
    destruct (decide (k ∈ seen)); set_solver.
Qed.



Lemma duplicateError_kind (k k' : MetadataKind) (field : string) :
  duplicateError (kindName k) field = duplicateError (kindName k') field → k = k'.
Proof.
  destruct k, k'; try done; unfold duplicateError, kindName;
    rewrite !string_app_cons; intros H; by inversion H.
Qed.

Lemma missingTypeError_duplicateError (kind field field' : string) :
  missingTypeError field ≠ duplicateError kind field'.
Proof. unfold missingTypeError, duplicateError. rewrite !string_app_cons. by intros [=]. Qed.

Lemma reportsOf_reportedDuplicates (k : MetadataKind) (field : string)
    (extras : list MetadataKind) :
  k ≠ KNotes →
  reportsOf k field (reportedDuplicates field extras)
  = length (filter (λ k', k' = k) extras).
Proof.
  intros Hk. unfold reportsOf, reportedDuplicates.
  induction extras as [|e extras IH]; [done|].
  rewrite (filter_cons (λ k', k' = k)), (filter_cons (λ k', k' ≠ KNotes)).
  destruct (decide (e = k)) as [->|Hne].
  - rewrite decide_True by done. rewrite fmap_cons, filter_cons, decide_True by done.
    simpl. by rewrite IH.
  - destruct (decide (e ≠ KNotes)); [|done].
    rewrite fmap_cons, filter_cons, decide_False; [done|].
    intros Heq%duplicateError_kind. done.
Qed.

Lemma reportsOf_notes (field : string) (extras : list MetadataKind) :
  reportsOf KNotes field (reportedDuplicates field extras) = 0%nat.
Proof.
  unfold reportsOf, reportedDuplicates.
  induction extras as [|e extras IH]; [done|].
  rewrite (filter_cons (λ k', k' ≠ KNotes)).
  destruct (decide (e ≠ KNotes)); [|done].
  rewrite fmap_cons, filter_cons, decide_False; [done|].
  intros Heq%duplicateError_kind. done.
Qed.

Lemma reportsOf_app (k : MetadataKind) (field : string) (a b : list string) :
  reportsOf k field (a ++ b) = (reportsOf k field a + reportsOf k field b)%nat.
Proof. unfold reportsOf. by rewrite filter_app, length_app. Qed.

Lemma declarationsOf_kinds (k : MetadataKind) (items : list MetadataItem) :
  length (filter (λ k', k' = k) (declaredKinds items)) = declarationsOf k items.
Proof.
  unfold declarationsOf.
  induction items as [|item items IH]; [done|].
  rewrite filter_cons. destruct (kindOf item) as [k'|] eqn:Hk.
  - rewrite (declaredKinds_cons item k') by done. rewrite filter_cons.
    destruct (decide (k' = k)) as [->|Hne].
    + rewrite decide_True by done. simpl. by rewrite IH.
    + rewrite decide_False by congruence. done.
  - rewrite decide_False by done. rewrite <- IH.
    unfold declaredKinds. simpl. by rewrite Hk.
Qed.

(** [X6] For type, optional and default the first declaration of an
    item is the one stored, and every later declaration of the kind is
    reported once, so a kind declared n times gives n - 1 reports; notes
    are never reported. *)
Theorem first_declaration_wins (rev : Revision) (p p' : specParserImpl)
    (ctx : SpecificationItemContext) :
  EnterSpecificationItem rev p ctx = Ok p' →
  ∃ field f new,
    fieldPath rev (itemFieldStack p) (ctxText (FieldName ctx)) = Ok field ∧
    Fields (spec p') = Fields (spec p) ++ [f] ∧
    errs p' = errs p ++ new ∧
    reportsOf KNotes field new = 0%nat ∧
    ∀ k, k ≠ KNotes →
      reportsOf k field new = (declarationsOf k (AllMetadataItem ctx) - 1)%nat ∧
      ∀ item, firstOf k (AllMetadataItem ctx) = Some item →
              declaredValue rev item = Ok (storedValue k f).
Proof.
  intros Henter.
  destruct (EnterSpecificationItem_errs rev p p' ctx Henter) as (field & Hpath & Herrs).
  destruct (EnterSpecificationItem_field rev p p' ctx Henter) as (f & Hfields & _ & _).
  exists field, f, (fieldErrors field (AllMetadataItem ctx)).
  split; [done|]. split; [done|]. split; [done|].
  assert (∀ k, reportsOf k field
                 (if bool_decide (KType ∈ declaredKinds (AllMetadataItem ctx))
                  then [] else [missingTypeError field]) = 0%nat) as Hmissing.
  { intros k. destruct (bool_decide _); [done|]. unfold reportsOf.
    rewrite filter_cons, decide_False; [done|]. apply missingTypeError_duplicateError. }
  unfold fieldErrors. split.
  - by rewrite reportsOf_app, reportsOf_notes, Hmissing.
  - intros k Hk. split.
    + rewrite reportsOf_app, Hmissing, reportsOf_reportedDuplicates by done.
      rewrite extraDeclarations_count, declarationsOf_kinds.
      rewrite decide_False by set_solver.
      destruct (decide (k ∈ declaredKinds (AllMetadataItem ctx))) as [Hin|Hnotin]; [lia|].
      assert (declarationsOf k (AllMetadataItem ctx) = 0%nat) as ->; [|done].
      rewrite <- declarationsOf_kinds.
      destruct (filter _ _) as [|k' l] eqn:Hfilter; [done|].
      assert (k' ∈ filter (λ k', k' = k) (declaredKinds (AllMetadataItem ctx))) as Hk'
        by (rewrite Hfilter; left).
      apply list_elem_of_filter in Hk' as [-> Hk']. done.
    + intros item Hfirst.
      destruct (first_declaration_is_kept rev p p' ctx k item Henter Hk Hfirst)
        as (f' & Hfields' & Hvalue).
      rewrite Hfields in Hfields'. apply app_inv_head in Hfields'. by injection Hfields' as <-.
Qed.

Lemma first_declaration_wins_witness :
  EnterSpecificationItem Part000 (resetParser Part000) Examples.portWithDuplicates
    = Ok (Examples.entered Part000 Examples.portWithDuplicates) ∧
  ∃ field f new,
    Fields (spec (Examples.entered Part000 Examples.portWithDuplicates)) = [] ++ [f] ∧
    errs (Examples.entered Part000 Examples.portWithDuplicates) = [] ++ new ∧
    reportsOf KType field new = 1%nat ∧
    declaredValue Part000 (TypeMetadata (Examples.rule 4 16 "int"))
      = Ok (storedValue KType f).
Proof.
  split; [reflexivity|].
  destruct (first_declaration_wins Part000 (resetParser Part000)
              (Examples.entered Part000 Examples.portWithDuplicates)
              Examples.portWithDuplicates eq_refl)
    as (field & f & new & _ & Hfields & Herrs & _ & Hkinds).
  exists field, f, new. split; [exact Hfields|]. split; [exact Herrs|].
  destruct (Hkinds KType) as [Hreports Hfirst]; [discriminate|].
  split; [exact Hreports|]. apply Hfirst. reflexivity.
Defined.

Lemma metadataStep_Checks (rev : Revision) (field : string) (s s' : MetadataState)
    (item : MetadataItem) :
  metadataStep rev field s item = Ok s' →
  Checks (fieldSpecification s') = Checks (fieldSpecification s) ∧
  FieldLocation (fieldSpecification s') = FieldLocation (fieldSpecification s).
Proof.
  destruct item as [te|tok|pr|se|text]; simpl; [| | | |done].
  - destruct (foundType s); [by intros [= <-]|]. by intros (? & _ & [= <-])%bind_Ok.
  - destruct (foundOptional s); [by intros [= <-]|].
    destruct (ParseBool _); [|done]. by intros [= <-].
  - destruct (foundDefault s); [by intros [= <-]|]. by intros (? & _ & [= <-])%bind_Ok.
  - destruct (foundNotes s); [by intros [= <-]|]. by intros (? & _ & [= <-])%bind_Ok.
Qed.

Lemma metadataLoop_Checks (rev : Revision) (field : string) (items : list MetadataItem)
    (s s' : MetadataState) :
  metadataLoop rev field items s = Ok s' →
  Checks (fieldSpecification s') = Checks (fieldSpecification s) ∧
  FieldLocation (fieldSpecification s') = FieldLocation (fieldSpecification s).
Proof.
  revert s. induction items as [|item rest IH]; intros s; simpl.
  - by intros [= <-].
  - intros (s1 & Hstep & Hloop)%bind_Ok.
    apply metadataStep_Checks in Hstep as [H1 H2]. apply IH in Hloop as [H3 H4].
    split; congruence.
Qed.

Lemma appendChecks_Checks (checks : list RuleContext) (f : FieldSpec) :
  Checks (foldl (λ f check, appendCheck f (checkOf check)) f checks)
  = Checks f ++ (checkOf <$> checks) ∧
  FieldLocation (foldl (λ f check, appendCheck f (checkOf check)) f checks)
  = FieldLocation f.
Proof.
  revert f. induction checks as [|c checks IH]; intros f; simpl.
  - by rewrite app_nil_r.
  - destruct (IH (appendCheck f (checkOf c))) as [-> ->]. simpl.
    by rewrite <- app_assoc.
Qed.

(** [X7] The field an item stores carries one check for each check
    statement of the item, in the order of the statements, each with the
    text of the statement as it stands and the span from its first to its
    last token; the metadata of the item leaves the checks and the
    location of the name alone. *)
Theorem checks_are_stored_in_order (rev : Revision) (p p' : specParserImpl)
    (ctx : SpecificationItemContext) :
  EnterSpecificationItem rev p ctx = Ok p' →
  ∃ f, Fields (spec p') = Fields (spec p) ++ [f] ∧
       Checks f = checkOf <$> AllCheck ctx ∧
       Check <$> Checks f = ctxText <$> AllCheck ctx ∧
       FieldLocation f
       = tokenLocation (GetStart (FieldName ctx)) (GetStop (FieldName ctx)).
Proof.
  intros (field & s & _ & Hloop & Hspec & _ & _)%EnterSpecificationItem_Ok.
  apply metadataLoop_Checks in Hloop as [Hchecks Hloc]. simpl in Hchecks, Hloc.
  eexists. split; [by rewrite Hspec|].
  destruct (appendChecks_Checks (AllCheck ctx) (fieldSpecification s)) as [-> ->].
  rewrite Hchecks, Hloc. simpl. split; [done|]. split; [|done].
  by rewrite <- list_fmap_compose.
Qed.

Lemma checks_are_stored_in_order_witness :
  EnterSpecificationItem SpecParserGo (resetParser SpecParserGo) Examples.portWithDuplicates
    = Ok (Examples.entered SpecParserGo Examples.portWithDuplicates) ∧
  ∃ f, Fields (spec (Examples.entered SpecParserGo Examples.portWithDuplicates))
       = [] ++ [f] ∧
       Check <$> Checks f = ["range(1,65535)"].
Proof.
  split; [reflexivity|].
  destruct (checks_are_stored_in_order SpecParserGo (resetParser SpecParserGo)
              (Examples.entered SpecParserGo Examples.portWithDuplicates)
              Examples.portWithDuplicates eq_refl)
    as (f & Hfields & _ & Hchecks & _).
  exists f. split; [exact Hfields|exact Hchecks].
Defined.

End SpecItems.
(** ** The specification compiler: imports and [Parse] *)

Section SpecImports.
Import Spec Design.

(** A table filled by assignments holds, for a key, the value of the
    last assignment to it. *)
Lemma foldl_insert_last {A V} (key : A → string) (val : A → V) (l : list A)
    (m : gmap string V) (a : string) :
  foldl (λ m x, <[key x := val x]> m) m l !! a
  = match last (filter (λ x, key x = a) l) with
    | Some x => Some (val x)
    | None => m !! a
    end.
Proof.
  induction l as [|x l IH] using rev_ind; [done|].
  rewrite foldl_app, filter_app. simpl. rewrite filter_cons, filter_nil.
  destruct (decide (key x = a)) as [<-|Hne].
  - by rewrite last_snoc, lookup_insert_eq.
  - rewrite app_nil_r, lookup_insert_ne by done. apply IH.
Qed.

Lemma importsAfter_nil (rev : Revision) (p p' : specParserImpl) :
  Imports (spec p') = Imports (spec p) →
  ImportsLocation (spec p') = ImportsLocation (spec p) →
  importsAfter rev [] p p'.
Proof. intros H1 H2. split; [done|]. split; [done|]. constructor. Qed.

Lemma importsAfter_app (rev : Revision) (l1 l2 : list ImportItemContext)
    (p p1 p2 : specParserImpl) :
  importsAfter rev l1 p p1 → importsAfter rev l2 p1 p2 →
  importsAfter rev (l1 ++ l2) p p2.
Proof.
  intros (H1 & H2 & H3) (H4 & H5 & H6). split; [|split].
  - by rewrite foldl_app, <- H1.
  - by rewrite foldl_app, <- H2.
  - by apply Forall_app.
Qed.

Lemma EnterImportItem_imports (rev : Revision) (p p' : specParserImpl)
    (ctx : ImportItemContext) :
  EnterImportItem rev p ctx = Ok p' → importsAfter rev [ctx] p p'.
Proof.
  unfold EnterImportItem. intros (path & Hpath & [= <-])%bind_Ok.
  unfold importsAfter. cbn [foldl spec Imports ImportsLocation].
  unfold importPath, importAlias, importLocation. rewrite Hpath.
  split; [done|]. split; [done|]. constructor; [|constructor].
  by rewrite Hpath.
Qed.

Lemma Walk_imports (rev : Revision) (t : ParseTree) (p p' : specParserImpl) :
  Walk rev p t = Ok p' → importsAfter rev (declaredImports t) p p'.
Proof.
  assert (∀ children,
            Forall (λ t, ∀ p p', Walk rev p t = Ok p' →
                                 importsAfter rev (declaredImports t) p p') children →
            ∀ p p', WalkAll rev children p = Ok p' →
                    importsAfter rev (concat (map declaredImports children)) p p')
    as Hall.
  { induction 1 as [|c cs Hc _ IH]; intros q q'; simpl.
    - intros [= <-]. by apply importsAfter_nil.
    - intros (q1 & H1 & H2)%bind_Ok. eapply importsAfter_app; eauto. }
  revert p p'.
  induction t as [ctx ch IH|ctx ch IH|ctx ch IH|ch IH|symbol] using ParseTree_ind';
    intros p p'.
  - rewrite Walk_FileDeclaration. intros (p1 & H1 & H2)%bind_Ok.
    apply (importsAfter_app rev [] _ p p1 p'); [|by apply Hall].
    unfold EnterFileDeclaration in H1. apply bind_Ok in H1 as (file & _ & [= <-]).
    by apply importsAfter_nil.
  - rewrite Walk_ImportItem. intros (p1 & H1 & H2)%bind_Ok.
    apply (importsAfter_app rev [ctx] _ p p1 p'); [|by apply Hall].
    by apply EnterImportItem_imports.
  - rewrite Walk_SpecificationItem.
    intros (p1 & H1 & (p2 & H2 & [= <-])%bind_Ok)%bind_Ok.
    apply EnterSpecificationItem_Ok in H1 as (field & s & _ & _ & Hspec & _ & _).
    apply (importsAfter_app rev [] _ p p1 (ExitSpecificationItem p2));
      [apply importsAfter_nil; by rewrite Hspec|].
    specialize (Hall ch IH p1 p2 H2).
    pose proof (importsAfter_app rev _ [] p1 p2 (ExitSpecificationItem p2) Hall) as Hall'.
    rewrite app_nil_r in Hall'. apply Hall'. by apply importsAfter_nil.
  - rewrite Walk_OtherRule. by apply Hall.
  - simpl. intros [= <-]. by apply importsAfter_nil.
Qed.

(** [X8] After a walk the import table maps an alias to the path of
    the last import item of the tree that names it, cleaned as the
    revision cleans it, and the location table to the location of that
    item's path; an alias the tree does not import keeps what it had. A
    repeated alias is therefore no error: the later import replaces the
    earlier one in both tables. *)
Theorem last_import_of_an_alias_wins (rev : Revision) (t : ParseTree)
    (p p' : specParserImpl) (alias : string) :
  Walk rev p t = Ok p' →
  match lastImport alias (declaredImports t) with
  | Some ctx =>
      removeStrQuotesAndCleanSpaces rev (GetText (importSHORT_STRING ctx))
        = Ok (importPath rev ctx) ∧
      Imports (spec p') !! alias = Some (importPath rev ctx) ∧
      ImportsLocation (spec p') !! alias
        = Some (tokenLocation (importSHORT_STRING ctx) (importSHORT_STRING ctx))
  | None =>
      Imports (spec p') !! alias = Imports (spec p) !! alias ∧
      ImportsLocation (spec p') !! alias = ImportsLocation (spec p) !! alias
  end.
Proof.
  intros (Himports & Hlocations & Hread)%Walk_imports.
  rewrite Himports, Hlocations.
  rewrite (foldl_insert_last importAlias (importPath rev)).
  rewrite (foldl_insert_last importAlias importLocation).
  unfold lastImport, importAlias.
  destruct (last _) as [ctx|] eqn:Hlast; [|done].
  split; [|done].
  apply last_Some_elem_of, list_elem_of_filter in Hlast as [_ Hin].
  rewrite Forall_forall in Hread. by apply Hread.
Qed.

Lemma last_import_of_an_alias_wins_witness :
  Walk Part000 (resetParser Part000) Examples.treeWithImports
    = Ok (Examples.walked Part000 Examples.treeWithImports) ∧
  Imports (spec (Examples.walked Part000 Examples.treeWithImports)) !! "db"
    = Some "./second.toml" ∧
  errs (Examples.walked Part000 Examples.treeWithImports) = [].
Proof.
  split; [reflexivity|]. split; [|reflexivity].
  apply (last_import_of_an_alias_wins Part000 Examples.treeWithImports
           (resetParser Part000) _ "db" eq_refl).
Defined.

Lemma foldl_SyntaxError_length (reports : list SyntaxErrorCall) (errors : list string) :
  length (foldl SyntaxError errors reports) = (length errors + length reports)%nat.
Proof.
  revert errors. induction reports as [|e reports IH]; intros errors; simpl; [lia|].
  rewrite IH. unfold SyntaxError. rewrite length_app. simpl. lia.
Qed.

(** [X9] [Parse] turns on the reports of the front end alone. With a
    report it returns a nil specification and an error that joins the
    reports, and leaves the receiver as it was, walking nothing. With no
    report it walks the tree from a receiver it has reset, so that what
    it returns owes nothing to an earlier call, and returns the
    specification with a nil error once the walk returns. *)
Theorem Parse_turns_on_syntax_reports (rev : Revision) (front : Frontend)
    (p : specParserImpl) (text : string) :
  (reports rev front text ≠ [] →
     Parse rev front p text
     = Ok (p, (None,
               Some ("syntax errors: "
                     +:+ multierr_string (foldl SyntaxError [] (reports rev front text)))))) ∧
  (reports rev front text = [] →
     Parse rev front p text
     = (p' ← Walk rev (resetParser rev) (parsed rev front text);
        mret (p', (Some (spec p'), None)))) ∧
  (reports rev front text = [] →
     conforming rev (parsed rev front text) = true →
     ∃ p', Walk rev (resetParser rev) (parsed rev front text) = Ok p' ∧
           Parse rev front p text = Ok (p', (Some (spec p'), None)) ∧
           itemFieldStack p' = itemFieldStack (resetParser rev)).
Proof.
  assert (reports rev front text ≠ [] →
          (Z.of_nat (length (foldl SyntaxError [] (reports rev front text))) >? 0) = true)
    as Hsome.
  { intros Hne. rewrite foldl_SyntaxError_length. apply Z.gtb_lt.
    destruct (reports rev front text); [done|]. simpl length. lia. }
  assert (reports rev front text = [] →
          Parse rev front p text
          = (p' ← Walk rev (resetParser rev) (parsed rev front text);
             mret (p', (Some (spec p'), None)))) as Hwalk.
  { unfold Parse, reports, parsed. cbn [length Z.of_nat Z.gtb Z.compare].
    destruct rev.
    - destruct (Cmsl front []) as [tree rs]. simpl. by intros ->.
    - destruct (NextTokens front text) as [tokens lexReports]. cbn [fst snd].
      destruct (Cmsl front tokens) as [tree rs]. cbn [fst snd]. by intros ->. }
  split; [|split; [done|]].
  - intros Hne. specialize (Hsome Hne). revert Hsome.
    unfold Parse, reports. cbn [length Z.of_nat Z.gtb Z.compare].
    destruct rev.
    + destruct (Cmsl front []) as [tree rs]. cbn [fst snd]. by intros ->.
    + destruct (NextTokens front text) as [tokens lexReports]. cbn [fst snd].
      destruct (Cmsl front tokens) as [tree rs]. cbn [fst snd]. by intros ->.
  - intros Hnone Hconf. rewrite (Hwalk Hnone).
    destruct (Walk_total rev (parsed rev front text) (resetParser rev) Hconf) as [p' Hp'].
    { unfold hasRoot. by intros ->. }
    exists p'. rewrite Hp'. split; [done|]. split; [done|].
    by apply Walk_paths in Hp' as [_ Hstack].
Qed.

Lemma Parse_turns_on_syntax_reports_witness :
  reports Part000 Examples.failingFrontend "x" ≠ [] ∧
  Parse Part000 Examples.failingFrontend Examples.newSpecParser "x"
  = Ok (Examples.newSpecParser,
        (None,
         Some "syntax errors: line 1:0 token recognition error; line 2:4 missing type")) ∧
  reports Part000 (Examples.frontendOf Examples.nestedTree) "x" = [] ∧
  conforming Part000 (parsed Part000 (Examples.frontendOf Examples.nestedTree) "x") = true ∧
  ∃ p', Parse Part000 (Examples.frontendOf Examples.nestedTree) Examples.newSpecParser "x"
        = Ok (p', (Some (spec p'), None)).
Proof.
  split; [discriminate|].
  split.
  { apply (Parse_turns_on_syntax_reports Part000 Examples.failingFrontend
             Examples.newSpecParser "x"). discriminate. }
  split; [reflexivity|]. split; [reflexivity|].
  destruct (Parse_turns_on_syntax_reports Part000 (Examples.frontendOf Examples.nestedTree)
              Examples.newSpecParser "x") as (_ & _ & Hreturns).
  destruct (Hreturns eq_refl eq_refl) as (p' & _ & Hparse & _).
  exists p'. exact Hparse.
Defined.

End SpecImports.
(** ** Custom objects: the factory and the method table *)

Section CustomObjectFactory.
Import Types Design.
Variable MakeType : string → NodeValue → ErrorOr IType.

Lemma lastProperty_cons (name : string) (prop : Spec.PropertyDef)
    (rest : list Spec.PropertyDef) :
  lastProperty name (prop :: rest)
  = match lastProperty name rest with
    | Some prop' => Some prop'
    | None => if decide (Spec.propName prop = name) then Some prop else None
    end.
Proof.
  unfold lastProperty. rewrite filter_cons.
  destruct (decide (Spec.propName prop = name)); [|by destruct (last _)].
  destruct (filter _ rest) as [|q l] eqn:Hfilter; [done|].
  rewrite last_cons. by destruct (last (q :: l)).
Qed.

(** The fields the loop leaves: for a name, the value made for the last
    property that bears it, when the map holds the name. *)
Lemma customObjectLoop_fields (objValue : gmap string Node)
    (props : list Spec.PropertyDef) (fields fields' : gmap string IType) (name : string) :
  customObjectLoop MakeType objValue props fields = Success fields' →
  match lastProperty name props, objValue !! name with
  | Some prop, Some propNode =>
      ∃ v, MakeType (Spec.propType prop) (Value propNode) = Success v ∧
           fields' !! name = Some v
  | _, _ => fields' !! name = fields !! name
  end.
Proof.
  revert fields. induction props as [|prop rest IH]; intros fields; simpl.
  - intros [= <-]. done.
  - rewrite lastProperty_cons.
    destruct (objValue !! Spec.propName prop) as [propNode|] eqn:Hnode.
    + destruct (MakeType _ _) as [t|] eqn:Hmake; [|done].
      intros Hloop. specialize (IH _ Hloop).
      destruct (decide (Spec.propName prop = name)) as [<-|Hne].
      * rewrite Hnode in IH |- *. rewrite lookup_insert_eq in IH.
        destruct (lastProperty _ rest) as [prop'|]; [done|]. eauto.
      * rewrite lookup_insert_ne in IH by done.
        by destruct (lastProperty _ rest) as [prop'|].
    + destruct (Spec.propOptional prop); [|done]. simpl.
      intros Hloop. specialize (IH _ Hloop).
      destruct (decide (Spec.propName prop = name)) as [<-|Hne].
      * rewrite Hnode in IH |- *. by destruct (lastProperty _ rest) as [prop'|].
      * by destruct (lastProperty _ rest) as [prop'|].
Qed.

(** [X10] Reading a field back from an object the factory made: [get]
    on a name returns the value [MakeType] made for the last declared
    property of that name out of the node the map holds for it, and fails
    with the missing-field error on every other name, whether the name is
    not declared or the map does not hold it. The object bears the name
    of the definition. *)
Theorem factory_then_get (objValue : gmap string Node) (definition : Spec.ObjectDef)
    (t : tCustomObject) (name : string) :
  customObjectFactory MakeType objValue definition = Success t →
  TypeName t = Spec.Name definition ∧
  match lastProperty name (Spec.Properties definition), objValue !! name with
  | Some prop, Some propNode =>
      ∃ v, MakeType (Spec.propType prop) (Value propNode) = Success v ∧
           GetMethod t "get" [tString name] = Success v
  | _, _ =>
      GetMethod t "get" [tString name]
      = Failure (Spec.Name definition +:+ " does not have field " +:+ name)
  end.
Proof.
  unfold customObjectFactory.
  destruct (customObjectLoop _ _ _ _) as [fields|] eqn:Hloop; [|done].
  intros [= <-]. split; [done|].
  pose proof (customObjectLoop_fields _ _ _ _ name Hloop) as Hfields.
  rewrite GetMethod_get. unfold get. simpl.
  destruct (lastProperty name _) as [prop|]; [destruct (objValue !! name) as [n|]|].
  - destruct Hfields as (v & Hv & ->). eauto.
  - by rewrite Hfields, lookup_empty.
  - by rewrite Hfields, lookup_empty.
Qed.

(** [X11] The factory fails exactly at the first property, in the order
    of the declaration, that it cannot pass: a present value [MakeType]
    refuses, whose error it hands on unchanged, or an absent required
    property. The properties after that one are not looked at. *)
Theorem factory_fails_at_first_refusal (objValue : gmap string Node)
    (definition : Spec.ObjectDef) (err : string) :
  customObjectFactory MakeType objValue definition = Failure err ↔
  ∃ before prop after,
    Spec.Properties definition = before ++ prop :: after ∧
    Forall (propertyPasses MakeType objValue) before ∧
    propertyFails MakeType objValue prop err.
Proof.
  unfold customObjectFactory.
  assert (∀ props fields,
            customObjectLoop MakeType objValue props fields = Failure err ↔
            ∃ before prop after,
              props = before ++ prop :: after ∧
              Forall (propertyPasses MakeType objValue) before ∧
              propertyFails MakeType objValue prop err) as Hloop.
  { induction props as [|prop rest IH]; intros fields; simpl.
    - split; [done|]. intros (before & prop & after & Heq & _). by destruct before.
    - unfold propertyPasses, propertyFails in *.
      destruct (objValue !! Spec.propName prop) as [propNode|] eqn:Hnode.
      + destruct (MakeType _ _) as [t|e] eqn:Hmake.
        * rewrite IH. split.
          -- intros (before & q & after & -> & Hpass & Hfail).
             exists (prop :: before), q, after. split; [done|]. split; [|done].
             constructor; [|done]. rewrite Hnode. eauto.
          -- intros (before & q & after & Heq & Hpass & Hfail).
             destruct before as [|b before]; simplify_eq/=.
             ++ rewrite Hnode in Hfail. congruence.
             ++ apply Forall_cons in Hpass as [_ Hpass]. eauto 6.
        * split.
          -- intros [= ->]. exists [], prop, rest. split; [done|]. split; [constructor|].
             by rewrite Hnode.
          -- intros (before & q & after & Heq & Hpass & Hfail).
             destruct before as [|b before]; simplify_eq/=.
             ++ rewrite Hnode in Hfail. congruence.
             ++ apply Forall_cons in Hpass as [Hb _]. rewrite Hnode in Hb.
                destruct Hb as [t Ht]. congruence.
      + destruct (Spec.propOptional prop) eqn:Hopt; simpl.
        * rewrite IH. split.
          -- intros (before & q & after & -> & Hpass & Hfail).
             exists (prop :: before), q, after. split; [done|]. split; [|done].
             constructor; [|done]. by rewrite Hnode.
          -- intros (before & q & after & Heq & Hpass & Hfail).
             destruct before as [|b before]; simplify_eq/=.
             ++ rewrite Hnode in Hfail. destruct Hfail. congruence.
             ++ apply Forall_cons in Hpass as [_ Hpass]. eauto 6.
        * split.
          -- intros [= <-]. exists [], prop, rest. split; [done|]. split; [constructor|].
             by rewrite Hnode.
          -- intros (before & q & after & Heq & Hpass & Hfail).
             destruct before as [|b before]; simplify_eq/=.
             ++ rewrite Hnode in Hfail. by destruct Hfail as [_ ->].
             ++ apply Forall_cons in Hpass as [Hb _]. rewrite Hnode in Hb. congruence. }
  specialize (Hloop (Spec.Properties definition) ∅).
  destruct (customObjectLoop _ _ _ _) as [fields|e].
  - split; [done|]. intros H. apply Hloop in H. done.
  - rewrite <- Hloop. split; congruence.
Qed.

End CustomObjectFactory.

Lemma factory_then_get_witness :
  Types.customObjectFactory (Types.MakeType ∅) Examples.nameOnly Examples.person
    = Success {| Types.ObjectName := "person";
                 Types.Fields := {[ "name" := Types.tString "a" ]} |} ∧
  Types.GetMethod {| Types.ObjectName := "person";
                     Types.Fields := {[ "name" := Types.tString "a" ]} |}
    "get" [Types.tString "name"] = Success (Types.tString "a") ∧
  Types.GetMethod {| Types.ObjectName := "person";
                     Types.Fields := {[ "name" := Types.tString "a" ]} |}
    "get" [Types.tString "age"] = Failure "person does not have field age".
Proof.
  split; [reflexivity|].
  pose proof (factory_then_get (Types.MakeType ∅) Examples.nameOnly Examples.person
                {| Types.ObjectName := "person";
                   Types.Fields := {[ "name" := Types.tString "a" ]} |}
                "name" eq_refl) as [_ Hname].
  pose proof (factory_then_get (Types.MakeType ∅) Examples.nameOnly Examples.person
                {| Types.ObjectName := "person";
                   Types.Fields := {[ "name" := Types.tString "a" ]} |}
                "age" eq_refl) as [_ Hage].
  split; [|exact Hage].
  destruct Hname as (v & Hv & Hget). rewrite Hget. f_equal.
  vm_compute in Hv. by injection Hv as <-.
Defined.

Lemma factory_fails_at_first_refusal_witness :
  Types.customObjectFactory (Types.MakeType ∅) Examples.nameAndBadAge Examples.person
    = Failure "value is not of type int" ∧
  ∃ before prop after,
    Spec.Properties Examples.person = before ++ prop :: after ∧
    Design.propertyFails (Types.MakeType ∅) Examples.nameAndBadAge prop
      "value is not of type int".
Proof.
  split; [reflexivity|].
  destruct (proj1 (factory_fails_at_first_refusal (Types.MakeType ∅) Examples.nameAndBadAge
                     Examples.person "value is not of type int") eq_refl)
    as (before & prop & after & Hprops & _ & Hfails).
  exists before, prop, after. split; [exact Hprops|exact Hfails].
Defined.

Section MethodTable.
Import Types Design.

(** [X12] The three method tables of a custom object agree: a name is
    listed by [Methods] exactly when [MethodDescription] has a text for
    it, and then [GetMethod] hands out the method of that name; for every
    other name the description is empty and the method handed out fails
    on any arguments. *)
Theorem method_tables_agree (t : tCustomObject) (method : string) :
  (method ∈ Methods t ↔ MethodDescription t method ≠ EmptyString) ∧
  (method ∈ Methods t →
     GetMethod t method = get t ∧
     MethodDescription t method
     = TypeName t +:+ ".get(field string) : Gets the specified field") ∧
  (method ∉ Methods t →
     MethodDescription t method = EmptyString ∧
     ∀ args, ∃ err, GetMethod t method args = Failure err).
Proof.
  unfold Methods, MethodDescription, GetMethod, TypeName.
  destruct (decide (method = "get")) as [->|Hne].
  - rewrite !lookup_singleton_eq. simpl. split; [|split].
    + split; [|set_solver]. intros _ H%(f_equal String.length).
      rewrite string_length_app in H. simpl in H. lia.
    + done.
    + set_solver.
  - rewrite !lookup_singleton_ne by done. simpl. split; [|split].
    + split; [set_solver|done].
    + set_solver.
    + intros _. split; [done|]. eauto.
Qed.

End MethodTable.
(** ** The TOML listener: the store *)

Section TomlStore.
Import Toml Design.

Lemma live_insert (h : gmap ptr Node) (l q : ptr) (n : Node) :
  live h q → live (<[l := n]> h) q.
Proof.
  unfold live. intros Hq. destruct (decide (l = q)) as [->|Hne].
  - rewrite lookup_insert_eq. eauto.
  - by rewrite lookup_insert_ne.
Qed.

Lemma live_insert_eq (h : gmap ptr Node) (l : ptr) (n : Node) : live (<[l := n]> h) l.
Proof. unfold live. rewrite lookup_insert_eq. eauto. Qed.

Lemma fresh_not_live (h : gmap ptr Node) : h !! fresh (dom h) = None.
Proof. apply not_elem_of_dom, is_fresh. Qed.

Lemma valueLive_mono (h h' : gmap ptr Node) (v : Value) :
  (∀ q, live h q → live h' q) → valueLive h v → valueLive h' v.
Proof.
  intros Hmono. destruct v; simpl; try done.
  - intros H. eapply Forall_impl; [exact H|eauto].
  - intros H. eapply map_Forall_impl; [exact H|]. simpl. eauto.
Qed.

Lemma storeSound_lookup (h : gmap ptr Node) (l : ptr) (n : Node) :
  storeSound h → h !! l = Some n → nodeSound h n.
Proof. intros Hs Hl. by apply (map_Forall_lookup_1 _ _ _ _ Hs Hl). Qed.

Lemma storeSound_insert (h : gmap ptr Node) (l : ptr) (n : Node) :
  storeSound h → nodeSound (<[l := n]> h) n → storeSound (<[l := n]> h).
Proof.
  intros Hs Hn. unfold storeSound. apply map_Forall_lookup. intros k x.
  destruct (decide (l = k)) as [->|Hne].
  - rewrite lookup_insert_eq. by intros [= <-].
  - rewrite lookup_insert_ne by done. intros Hk.
    destruct (storeSound_lookup _ _ _ Hs Hk) as [Hty Hlive]. split; [done|].
    eapply valueLive_mono; [|done]. intros q. apply live_insert.
Qed.

Lemma grown_refl (n : Node) : grown n n.
Proof. unfold grown. repeat split. by destruct (Value_ n). Qed.

Lemma grown_trans (n1 n2 n3 : Node) : grown n1 n2 → grown n2 n3 → grown n1 n3.
Proof.
  unfold grown. intros (H1 & H2 & H3 & H4 & H5) (H6 & H7 & H8 & H9 & H10).
  split; [congruence|]. split; [congruence|]. split; [congruence|]. split; [congruence|].
  destruct (Value_ n1), (Value_ n2), (Value_ n3); try congruence.
  by etrans.
Qed.

Lemma storeGrown_refl (h : gmap ptr Node) : storeGrown h h.
Proof. intros l n Hl. exists n. split; [done|apply grown_refl]. Qed.

Lemma storeGrown_trans (h1 h2 h3 : gmap ptr Node) :
  storeGrown h1 h2 → storeGrown h2 h3 → storeGrown h1 h3.
Proof.
  intros H12 H23 l n Hl. destruct (H12 l n Hl) as (n2 & Hl2 & Hg2).
  destruct (H23 l n2 Hl2) as (n3 & Hl3 & Hg3). exists n3. split; [done|].
  by eapply grown_trans.
Qed.

Lemma storeGrown_live (h h' : gmap ptr Node) (q : ptr) :
  storeGrown h h' → live h q → live h' q.
Proof. intros Hg [n Hn]. destruct (Hg q n Hn) as (n' & Hn' & _). by exists n'. Qed.

Lemma typeOf_Object (v : Value) :
  Parsers.Object = typeOf v → ∃ fields, v = VObject fields.
Proof. destruct v; try done. eauto. Qed.

Lemma typeOf_Array (v : Value) :
  Parsers.Array = typeOf v → ∃ elems, v = VArray elems.
Proof. destruct v; try done. eauto. Qed.

(** The step of the loop that makes a node for a missing segment. *)
Lemma create_sound (h : gmap ptr Node) (current : ptr) (node newNode : Node)
    (objMap : gmap string ptr) (segment : string) :
  storeSound h →
  h !! current = Some node →
  Type_ node = Parsers.Object →
  Value_ node = VObject objMap →
  objMap !! segment = None →
  nodeSound ∅ newNode →
  let new := fresh (dom h) in
  let h' := <[current := setValue node (Type_ node) (VObject (<[segment := new]> objMap))]>
              (<[new := newNode]> h) in
  storeSound h' ∧ storeGrown h h' ∧ live h' new ∧ h' !! new = Some newNode.
Proof.
  intros Hs Hnode Hty Hval Hseg Hnew new h'.
  pose proof (fresh_not_live h) as Hfresh. fold new in Hfresh.
  assert (new ≠ current) as Hne by congruence.
  destruct (storeSound_lookup _ _ _ Hs Hnode) as [_ Hlive]. rewrite Hval in Hlive.
  split; [|split; [|split]].
  - apply storeSound_insert; [apply storeSound_insert; [done|]|].
    + destruct Hnew as [Hnty Hnlive]. split; [done|].
      eapply valueLive_mono; [|done]. intros q [x Hx]. by rewrite lookup_empty in Hx.
    + split; [by rewrite Hty|]. simpl. apply map_Forall_insert_2.
      * apply live_insert, live_insert_eq.
      * eapply map_Forall_impl; [done|]. intros k q Hq. by do 2 apply live_insert.
  - intros l n Hl. destruct (decide (l = current)) as [->|Hlc].
    + exists (setValue node (Type_ node) (VObject (<[segment := new]> objMap))).
      unfold h'. rewrite lookup_insert_eq. split; [done|].
      assert (n = node) as -> by congruence.
      unfold grown. simpl. rewrite Hval. repeat split. by apply insert_subseteq.
    + exists n. unfold h'. rewrite !lookup_insert_ne by congruence.
      split; [done|apply grown_refl].
  - apply live_insert, live_insert_eq.
  - unfold h'. by rewrite lookup_insert_ne, lookup_insert_eq.
Qed.

Lemma nullNode_sound : nodeSound ∅ nullNode.
Proof. done. Qed.

Lemma objectNode_sound : nodeSound ∅ objectNode.
Proof. split; [done|]. simpl. apply map_Forall_empty. Qed.

(** On a sound store the loop of [getOrCreateNode] returns: no cast and
    no dereference fails. The store stays sound, the nodes that were
    there have at most grown, and a node returned is in the store. *)
Lemma getOrCreateLoop_sound (key : tomlKey) (count : Z) (rest : list string) :
  ∀ (h : gmap ptr Node) (current : ptr) (index : Z),
    storeSound h → live h current →
    ∃ h' r,
      getOrCreateLoop key count h (Some current) index rest = Ok (h', r) ∧
      storeSound h' ∧ storeGrown h h' ∧
      ∀ l, r = Success l → ∃ q, l = Some q ∧ live h' q.
Proof.
  induction rest as [|segment rest IH]; intros h current index Hs [node Hnode].
  - exists h, (Success (Some current)). split; [done|]. split; [done|].
    split; [apply storeGrown_refl|]. intros l [= <-]. exists current. split; [done|].
    by exists node.
  - cbn [getOrCreateLoop]. unfold deref. rewrite Hnode. simpl.
    destruct (storeSound_lookup _ _ _ Hs Hnode) as [Hty Hlive].
    destruct (Type_ node) eqn:Htype;
      try (eexists _, _; split; [done|]; split; [done|];
           split; [apply storeGrown_refl|done]).
    + apply typeOf_Array in Hty as [elems Hval]. rewrite Hval in Hlive |- *. simpl.
      destruct elems as [|e elems] using rev_ind.
      * simpl. eexists _, _. split; [done|]. split; [done|].
        split; [apply storeGrown_refl|done].
      * rewrite length_app. simpl.
        destruct (Z.eqb_spec (Z.of_nat (length elems + 1)) 0) as [|_]; [lia|].
        rewrite last_snoc. apply IH; [done|].
        simpl in Hlive. apply Forall_app in Hlive as [_ Hlast].
        exact (Forall_inv Hlast).
    + apply typeOf_Object in Hty as [objMap Hval]. rewrite Hval in Hlive |- *. simpl.
      destruct (objMap !! segment) as [next|] eqn:Hseg.
      * apply IH; [done|]. by apply (map_Forall_lookup_1 _ _ _ _ Hlive Hseg).
      * set (newNode := if index =? sub count 1 then nullNode else objectNode).
        assert (nodeSound ∅ newNode) as Hnew.
        { unfold newNode. destruct (_ =? _); [apply nullNode_sound|apply objectNode_sound]. }
        rewrite <- Htype.
        destruct (create_sound h current node newNode objMap segment Hs Hnode Htype Hval
                    Hseg Hnew) as (Hs' & Hg' & Hl' & _).
        destruct (IH _ _ (add index 1) Hs' Hl') as (h' & r & Hloop & Hs'' & Hg'' & Hr).
        exists h', r. split; [done|]. split; [done|]. split; [|done].
        by eapply storeGrown_trans.
Qed.

(** [X13] On a store whose tags tell the types of the values,
    [getOrCreateNode] returns whatever the key is: neither of its two
    casts fails and no nil pointer is read. It leaves the store in that
    state, it answers with a node of the store or with an error, and to
    the nodes that were there it does nothing but add entries to the maps
    of objects: no entry is replaced or removed, and no tag, array,
    scalar or location changes. *)
Theorem getOrCreateNode_returns (h : gmap ptr Node) (parentNode : ptr) (key : tomlKey) :
  storeSound h → live h parentNode →
  ∃ h' r,
    getOrCreateNode h (Some parentNode) key = Ok (h', r) ∧
    storeSound h' ∧ storeGrown h h' ∧
    ∀ fieldNode, r = Success fieldNode → ∃ q, fieldNode = Some q ∧ live h' q.
Proof. intros Hs Hl. by apply getOrCreateLoop_sound. Qed.

End TomlStore.
(** ** The TOML listener: resolving a key twice *)

Section TomlResolve.
Import Toml Design.

(** Whatever the store, the nodes that were there have at most grown
    when the loop returns. *)
Lemma getOrCreateLoop_grown (key : tomlKey) (count : Z) (rest : list string) :
  ∀ (h : gmap ptr Node) (current : option ptr) (index : Z) h' r,
    getOrCreateLoop key count h current index rest = Ok (h', r) → storeGrown h h'.
Proof.
  induction rest as [|segment rest IH]; intros h current index h' r; cbn [getOrCreateLoop].
  - intros [= <- _]. apply storeGrown_refl.
  - destruct current as [current|]; [|intros [= <- _]; apply storeGrown_refl].
    intros (node & Hnode%deref_Ok & Hloop)%bind_Ok.
    destruct (Type_ node) eqn:Htype;
      try (injection Hloop as <- _; apply storeGrown_refl).
    + apply bind_Ok in Hloop as (arrayValue & _ & Hloop).
      destruct (_ =? _); [injection Hloop as <- _; apply storeGrown_refl|by eapply IH].
    + apply bind_Ok in Hloop as (objMap & Hmap & Hloop).
      destruct (Value_ node) as [| | | | | |fields] eqn:Hval; try done.
      injection Hmap as ->.
      destruct (objMap !! segment) as [next|] eqn:Hseg; [by eapply IH|].
      apply IH in Hloop. eapply storeGrown_trans; [|exact Hloop].
      pose proof (fresh_not_live h) as Hfresh.
      intros l n Hl. destruct (decide (l = current)) as [->|Hlc].
      * rewrite lookup_insert_eq. eexists. split; [done|].
        assert (n = node) as -> by congruence.
        unfold grown. simpl. rewrite Hval, Htype.
        split; [done|]. split; [done|]. split; [done|]. split; [done|].
        by apply insert_subseteq.
      * exists n. rewrite !lookup_insert_ne by congruence.
        split; [done|apply grown_refl].
Qed.

Lemma getOrCreateLoop_again (key : tomlKey) (count : Z) (rest : list string) :
  ∀ (h : gmap ptr Node) (current : option ptr) (index index' : Z) h' l,
    getOrCreateLoop key count h current index rest = Ok (h', Success l) →
    ∀ h'', storeGrown h' h'' →
           getOrCreateLoop key count h'' current index' rest = Ok (h'', Success l).
Proof.
  induction rest as [|segment rest IH]; intros h current index index' h' l;
    cbn [getOrCreateLoop].
  - by intros [= <- <-] h'' _.
  - destruct current as [current|]; [|done].
    intros (node & Hnode%deref_Ok & Hloop)%bind_Ok h'' Hgrown.
    assert (∀ h1 n1, h1 !! current = Some n1 → storeGrown h1 h' →
              ∃ n2, h'' !! current = Some n2 ∧ grown n1 n2) as Hcurrent.
    { intros h1 n1 Hn1 Hg1. apply (storeGrown_trans h1 h' h'' Hg1 Hgrown _ _ Hn1). }
    destruct (Type_ node) eqn:Htype; try done.
    + apply bind_Ok in Hloop as (arrayValue & Harr & Hloop).
      destruct (Value_ node) as [| | | | |elems|] eqn:Hval; try done.
      injection Harr as ->.
      destruct (Z.of_nat (length arrayValue) =? 0) eqn:Hlen; [done|].
      destruct (Hcurrent h node Hnode (getOrCreateLoop_grown _ _ _ _ _ _ _ _ Hloop))
        as (n2 & Hn2 & Hty2 & _ & _ & _ & Hv2).
      rewrite Hval in Hv2. unfold deref. rewrite Hn2. simpl.
      rewrite Hty2, Htype, Hv2. simpl. rewrite Hlen. by eapply IH.
    + apply bind_Ok in Hloop as (objMap & Hmap & Hloop).
      destruct (Value_ node) as [| | | | | |fields] eqn:Hval; try done.
      injection Hmap as ->.
      destruct (objMap !! segment) as [next|] eqn:Hseg.
      * destruct (Hcurrent h node Hnode (getOrCreateLoop_grown _ _ _ _ _ _ _ _ Hloop))
          as (n2 & Hn2 & Hty2 & _ & _ & _ & Hv2).
        rewrite Hval in Hv2. unfold deref. rewrite Hn2. simpl. rewrite Hty2, Htype.
        destruct (Value_ n2) as [| | | | | |fields2]; try done. simpl.
        rewrite (lookup_weaken _ _ _ _ Hseg Hv2). by eapply IH.
      * pose proof (getOrCreateLoop_grown _ _ _ _ _ _ _ _ Hloop) as Htail.
        edestruct (Hcurrent _ _ (lookup_insert_eq _ _ _) Htail)
          as (n2 & Hn2 & Hty2 & _ & _ & _ & Hv2).
        simpl in Hty2, Hv2. unfold deref. rewrite Hn2. simpl. rewrite Hty2.
        destruct (Value_ n2) as [| | | | | |fields2]; try done. simpl.
        rewrite (lookup_weaken _ _ _ _ (lookup_insert_eq _ _ _) Hv2). by eapply IH.
Qed.

(** [X14] Resolving a key is repeatable: once [getOrCreateNode] has
    answered with a node for a key, a second call for the same key from
    the same node, in the store the first call left, answers with the
    same node and creates nothing. *)
Theorem getOrCreateNode_again (h h' : gmap ptr Node) (parentNode fieldNode : option ptr)
    (key : tomlKey) :
  getOrCreateNode h parentNode key = Ok (h', Success fieldNode) →
  getOrCreateNode h' parentNode key = Ok (h', Success fieldNode).
Proof.
  unfold getOrCreateNode. intros Hfirst.
  eapply getOrCreateLoop_again; [exact Hfirst|apply storeGrown_refl].
Qed.

End TomlResolve.
(** ** The TOML listener: the handlers keep the store sound *)

Section TomlHandlers.
Import Toml Design.

Lemma steps_refl (p : tomlParser) : steps p p.
Proof. split; [done|]. split; [done|]. split; [done|]. exists []. by rewrite app_nil_r. Qed.

Lemma steps_trans (p1 p2 p3 : tomlParser) : steps p1 p2 → steps p2 p3 → steps p1 p3.
Proof.
  intros (H1 & H2 & H3 & new1 & H4) (H5 & H6 & H7 & new2 & H8).
  split; [auto|]. split; [congruence|]. split; [auto|].
  exists (new1 ++ new2). by rewrite H8, H4, app_assoc.
Qed.

Lemma Forall_live_mono (h h' : gmap ptr Node) (st : list ptr) :
  (∀ q, live h q → live h' q) → Forall (live h) st → Forall (live h') st.
Proof. intros Hmono H. eapply Forall_impl; [exact H|done]. Qed.

Lemma from_option_live_mono (h h' : gmap ptr Node) (o : option ptr) :
  (∀ q, live h q → live h' q) →
  from_option (live h) True o → from_option (live h') True o.
Proof. intros Hmono. destruct o; simpl; auto. Qed.

(** A handler that only reports an error. *)
Lemma appendError_steps (p : tomlParser) (h : gmap ptr Node) (dd : gmap string bool)
    (e : CMParserError) :
  (sound p → storeSound h) →
  (∀ q, live (heap p) q → live h q) →
  steps p (appendError p h dd e).
Proof.
  intros Hs Hmono. split; [|split; [done|]; split; [done|]; by exists [e]].
  intros Hp. pose proof Hp as (H1 & H2 & H3). split; [auto|]. simpl. split.
  - by eapply Forall_live_mono.
  - by eapply from_option_live_mono.
Qed.

Lemma getOrCreateLoop_None (key : tomlKey) (count index : Z) (h h' : gmap ptr Node)
    (rest : list string) (r : ErrorOr (option ptr)) :
  getOrCreateLoop key count h None index rest = Ok (h', r) →
  h' = h ∧ r ≠ Success (Some (fresh (dom h))) ∧ ∀ l, r ≠ Success (Some l).
Proof. destruct rest; cbn [getOrCreateLoop]; intros [= <- <-]; done. Qed.

(** What [getOrCreateNode] leaves when it returns on a sound store. *)
Lemma getOrCreateNode_sound (h h' : gmap ptr Node) (current : option ptr) (key : tomlKey)
    (r : ErrorOr (option ptr)) :
  getOrCreateNode h current key = Ok (h', r) →
  storeGrown h h' ∧
  (storeSound h → from_option (live h) True current →
     storeSound h' ∧ ∀ l, r = Success (Some l) → live h' l).
Proof.
  intros Hcall. split; [by eapply getOrCreateLoop_grown|].
  intros Hs Hlive. destruct current as [current|].
  - destruct (getOrCreateLoop_sound key (Z.of_nat (length (segments key))) (segments key)
                h current 0 Hs Hlive)
      as (h2 & r2 & Hcall2 & Hs2 & _ & Hr2).
    unfold getOrCreateNode in Hcall.
    rewrite Hcall in Hcall2. injection Hcall2 as <- <-. split; [done|].
    intros l Hl. destruct (Hr2 _ Hl) as (q & [= <-] & Hq). done.
  - apply getOrCreateLoop_None in Hcall as (-> & _ & Hnone). split; [done|].
    intros l Hl. by destruct (Hnone l).
Qed.

Lemma nodeSound_mono (h h' : gmap ptr Node) (n : Node) :
  (∀ q, live h q → live h' q) → nodeSound h n → nodeSound h' n.
Proof. intros Hmono [H1 H2]. split; [done|]. by eapply valueLive_mono. Qed.

Lemma grown_live (h h' : gmap ptr Node) : storeGrown h h' → ∀ q, live h q → live h' q.
Proof. intros Hg q. by apply storeGrown_live. Qed.

(** A listener after a handler has rewritten the node [l] and left a
    stack of live pointers. *)
Lemma rewrite_steps (p : tomlParser) (h : gmap ptr Node) (l : ptr) (n : Node)
    (st : list ptr) (dd : gmap string bool) :
  (∀ q, live (heap p) q → live h q) →
  (sound p → storeSound h ∧ nodeSound (<[l := n]> h) n ∧ Forall (live (<[l := n]> h)) st) →
  steps p {| heap := <[l := n]> h; configFile := configFile p; stack := st;
             directlyDefined := dd; errs := errs p |}.
Proof.
  intros Hmono Hsound.
  split; [|split; [done|]; split; [|exists []; by rewrite app_nil_r]].
  - intros Hp. destruct (Hsound Hp) as (Hs & Hn & Hst). destruct Hp as (H1 & H2 & H3).
    split; [|split]; simpl.
    + by apply storeSound_insert.
    + done.
    + eapply from_option_live_mono; [|exact H3]. intros q Hq. by apply live_insert, Hmono.
  - simpl. intros q Hq. by apply live_insert, Hmono.
Qed.

Lemma Forall_live_insert (h : gmap ptr Node) (l : ptr) (n : Node) (st : list ptr) :
  Forall (live h) st → Forall (live (<[l := n]> h)) st.
Proof. apply Forall_live_mono. intros q. apply live_insert. Qed.

Lemma EnterStandard_table_steps (p p' : tomlParser) (ctx : TableContext) :
  EnterStandard_table p ctx = Ok p' → steps p p'.
Proof.
  unfold EnterStandard_table. intros (fieldKey & _ & Hrest)%bind_Ok.
  destruct (default false _); [injection Hrest as <-; apply appendError_steps; [by intros [? _]|done]|].
  apply bind_Ok in Hrest as ([h r] & Hcall & Hrest).
  apply getOrCreateNode_sound in Hcall as [Hgrown Hsound].
  destruct r as [fieldNode|err].
  - apply bind_Ok in Hrest as (l & ->%nonNil_Ok & Hrest).
    apply bind_Ok in Hrest as (node & Hnode%deref_Ok & [= <-]).
    apply rewrite_steps; [by apply grown_live|].
    intros (Hs & Hst & Hroot). destruct (Hsound Hs Hroot) as [Hs' Hl].
    split; [done|]. split.
    + destruct (decide _).
      * split; [done|]. simpl. apply map_Forall_empty.
      * eapply (nodeSound_mono h); [intros q; apply live_insert|].
        by apply (storeSound_lookup h l node).
    + constructor; [apply live_insert_eq|].
      apply Forall_live_insert. by eapply Forall_live_mono; [apply grown_live|].
  - injection Hrest as <-. apply appendError_steps; [|by apply grown_live].
    intros (Hs & _ & Hroot). by apply Hsound.
Qed.

Lemma EnterArray_table_steps (p p' : tomlParser) (ctx : TableContext) :
  EnterArray_table p ctx = Ok p' → steps p p'.
Proof.
  unfold EnterArray_table. intros (fieldKey & _ & Hrest)%bind_Ok.
  destruct (default false _); [injection Hrest as <-; apply appendError_steps; [by intros [? _]|done]|].
  apply bind_Ok in Hrest as ([h r] & Hcall & Hrest).
  apply getOrCreateNode_sound in Hcall as [Hgrown Hsound].
  destruct r as [fieldNode|err].
  - apply bind_Ok in Hrest as (l & ->%nonNil_Ok & Hrest).
    apply bind_Ok in Hrest as (node & Hnode%deref_Ok & Hrest).
    apply bind_Ok in Hrest as (arrayValue & Harr & [= <-]).
    pose proof (fresh_not_live h) as Hfresh.
    apply rewrite_steps.
    { intros q Hq. by apply live_insert, (grown_live _ _ Hgrown). }
    intros (Hs & Hst & Hroot). destruct (Hsound Hs Hroot) as [Hs' Hl].
    assert (Forall (live h) arrayValue) as Hlive.
    { destruct (storeSound_lookup h l node Hs' Hnode) as [_ Hv].
      destruct (decide (Type_ node = Parsers.Null)); simpl in Harr.
      - injection Harr as <-. constructor.
      - destruct (Value_ node); try done. by injection Harr as <-. }
    split; [|split].
    + apply storeSound_insert; [done|]. split; [done|]. simpl. apply map_Forall_empty.
    + split.
      * simpl. destruct (decide (Type_ node = Parsers.Null)) as [|Hne]; [done|].
        simpl. destruct (storeSound_lookup h l node Hs' Hnode) as [Hty _].
        destruct (Value_ node); try done.
      * simpl. apply Forall_app. split.
        -- by do 2 apply Forall_live_insert.
        -- constructor; [|constructor]. apply live_insert, live_insert_eq.
    + constructor; [apply live_insert, live_insert_eq|].
      do 2 apply Forall_live_insert. by eapply Forall_live_mono; [apply grown_live|].
  - injection Hrest as <-. apply appendError_steps; [|by apply grown_live].
    intros (Hs & _ & Hroot). by apply Hsound.
Qed.

Lemma Peek_Ok {A} (st : list A) (x : A) : Peek st = Ok x → ∃ st', st = x :: st'.
Proof. destruct st; [done|]. intros [= <-]. eauto. Qed.

Lemma EnterKey_value_steps (p p' : tomlParser) (ctx : KeyContext) :
  EnterKey_value p ctx = Ok p' → steps p p'.
Proof.
  unfold EnterKey_value. intros (fieldKey & _ & Hrest)%bind_Ok.
  apply bind_Ok in Hrest as (parentNode & [st Hstack]%Peek_Ok & Hrest).
  apply bind_Ok in Hrest as ([h r] & Hcall & Hrest).
  apply getOrCreateNode_sound in Hcall as [Hgrown Hsound].
  assert (sound p → storeSound h ∧ ∀ l, r = Success (Some l) → live h l) as Hsound'.
  { intros (Hs & Hst & _). apply Hsound; [done|]. rewrite Hstack in Hst.
    exact (Forall_inv Hst). }
  destruct r as [fieldNode|err].
  - apply bind_Ok in Hrest as (l & ->%nonNil_Ok & Hrest).
    apply bind_Ok in Hrest as (node & Hnode%deref_Ok & Hrest).
    destruct (decide _).
    + injection Hrest as <-. apply appendError_steps; [|by apply grown_live].
      intros Hp. by apply Hsound'.
    + injection Hrest as <-. apply rewrite_steps; [by apply grown_live|].
      intros Hp. destruct (Hsound' Hp) as [Hs' Hl]. destruct Hp as (Hs & Hst & Hroot).
      split; [done|]. split.
      * eapply (nodeSound_mono h); [intros q; apply live_insert|].
        by apply (storeSound_lookup h l node).
      * constructor; [apply live_insert_eq|].
        apply Forall_live_insert. by eapply Forall_live_mono; [apply grown_live|].
  - injection Hrest as <-. apply appendError_steps; [|by apply grown_live].
    intros Hp. by apply Hsound'.
Qed.

Lemma Forall_tail {A} (P : A → Prop) (l : list A) : Forall P l → Forall P (tail l).
Proof. destruct 1; [constructor|done]. Qed.

Lemma withStack_Pop_steps (p : tomlParser) : steps p (withStack p (Pop (stack p))).
Proof.
  split; [|split; [done|]; split; [done|]; exists []; by rewrite app_nil_r].
  intros (Hs & Hst & Hroot). split; [done|]. split; [|done]. by apply Forall_tail.
Qed.

(** The branch the value handlers share, for a value of the type the
    handler names and with no pointer in it. *)
Lemma storeValue_steps (p p' : tomlParser) (parentNode : ptr) (ty : Parsers.FieldType)
    (value : Result Value) (ctx : RuleContext) (push : bool) :
  (∀ v, value = Ok v → ty = typeOf v ∧ valueLive ∅ v) →
  storeValue p parentNode ty value ctx push = Ok p' → steps p p'.
Proof.
  intros Hvalue. unfold storeValue. intros (node & Hnode%deref_Ok & Hrest)%bind_Ok.
  assert (∀ h v, valueLive ∅ v → valueLive h v) as Hclosed.
  { intros h v. apply valueLive_mono. intros q [x Hx]. by rewrite lookup_empty in Hx. }
  destruct (decide (Type_ node = Parsers.Array)) as [Harray|Hother].
  - apply bind_Ok in Hrest as (arrayValue & Harr & Hrest).
    apply bind_Ok in Hrest as (v & Hv & [= <-]).
    destruct (Hvalue v Hv) as [-> Hlive].
    unfold withStack, withHeap. simpl.
    apply rewrite_steps; [intros q; apply live_insert|].
    intros (Hs & Hst & Hroot).
    destruct (storeSound_lookup _ _ _ Hs Hnode) as [_ Helems].
    destruct (Value_ node) as [| | | | |elems|]; try done. injection Harr as ->.
    split; [|split].
    + apply storeSound_insert; [done|]. split; [done|]. by apply Hclosed.
    + split; [by rewrite Harray|]. simpl. apply Forall_app. split.
      * by do 2 apply Forall_live_insert.
      * constructor; [|constructor]. apply live_insert, live_insert_eq.
    + destruct push.
      * constructor; [apply live_insert, live_insert_eq|]. by do 2 apply Forall_live_insert.
      * by do 2 apply Forall_live_insert.
  - apply bind_Ok in Hrest as (v & Hv & [= <-]).
    destruct (Hvalue v Hv) as [-> Hlive].
    unfold withStack, withHeap. simpl.
    apply rewrite_steps; [done|].
    intros (Hs & Hst & Hroot).
    split; [done|]. split; [split; [done|by apply Hclosed]|].
    destruct push.
    + constructor; [apply live_insert_eq|]. by apply Forall_live_insert.
    + by apply Forall_live_insert.
Qed.

End TomlHandlers.
(** ** The TOML listener: the walk *)

Section TomlWalk.
Import Toml Design.
Variable ParseFloat : string → ErrorOr Z.

Lemma TomlTree_ind' (P : TomlTree → Prop) :
  (∀ t, Forall P (childrenOf t) → P t) → ∀ t, P t.
Proof.
  intros Hstep. fix IH 1. intros t. apply Hstep.
  destruct t as [? ch|? ch|? ch|? ch|? ch|? ch|? ch|? ch|? ch|? ch|ch|?]; simpl;
    try (induction ch; constructor; auto).
  constructor.
Qed.

Lemma Walk_unfold (p : tomlParser) (t : TomlTree) :
  Walk ParseFloat p t
  = (p1 ← enterRule ParseFloat p t;
     p2 ← WalkAll ParseFloat (childrenOf t) p1;
     mret (exitRule p2 t)).
Proof.
  assert (∀ ch q,
            (fix walkAll (ts : list TomlTree) (p : tomlParser) : Result tomlParser :=
               match ts with
               | [] => mret p
               | t :: ts' => p' ← Walk ParseFloat p t; walkAll ts' p'
               end) ch q = WalkAll ParseFloat ch q) as Hall.
  { induction ch as [|c ch IH]; intros q; simpl; [done|].
    destruct (Walk ParseFloat q c); simpl; [apply IH|done]. }
  destruct t as [? ch|? ch|? ch|? ch|? ch|? ch|? ch|? ch|? ch|? ch|ch|?];
    cbn [Walk enterRule childrenOf];
    try (lazymatch goal with
         | |- ?e ≫= _ = _ => destruct e as [p1|]; simpl; [|done]
         end);
    rewrite ?Hall; simpl; try done;
    by destruct (WalkAll ParseFloat ch _).
Qed.

Lemma scalar_steps (p p' : tomlParser) (parentNode : ptr) (ty : Parsers.FieldType)
    (v : Value) (ctx : RuleContext) :
  ty = typeOf v → valueLive ∅ v →
  storeValue p parentNode ty (mret v) ctx false = Ok p' → steps p p'.
Proof. intros Hty Hlive. apply storeValue_steps. by intros v' [= <-]. Qed.

Lemma string_steps (p p' : tomlParser) (parentNode : ptr) (text : string)
    (ctx : RuleContext) :
  storeValue p parentNode Parsers.String (s ← cleanString text; mret (VString s)) ctx false
    = Ok p' →
  steps p p'.
Proof. apply storeValue_steps. by intros v (s & _ & [= <-])%bind_Ok. Qed.

Lemma enterRule_steps (p p' : tomlParser) (t : TomlTree) :
  enterRule ParseFloat p t = Ok p' → steps p p'.
Proof.
  destruct t; simpl.
  - apply EnterKey_value_steps.
  - apply EnterStandard_table_steps.
  - apply EnterArray_table_steps.
  - unfold EnterInline_table. intros (parent & _ & H)%bind_Ok. revert H.
    apply storeValue_steps. intros v [= <-]. split; [done|]. apply map_Forall_empty.
  - unfold EnterArray. intros (parent & _ & H)%bind_Ok. revert H.
    apply storeValue_steps. intros v [= <-]. split; [done|]. constructor.
  - unfold EnterString. intros (parent & _ & H)%bind_Ok. by eapply string_steps.
  - unfold EnterInteger. intros (parent & _ & H)%bind_Ok.
    destruct (Atoi _); [|done]. revert H. by apply scalar_steps.
  - unfold EnterFloating_point. intros (parent & _ & H)%bind_Ok.
    destruct (ParseFloat _); [|done]. revert H. by apply scalar_steps.
  - unfold EnterBool. intros (parent & _ & H)%bind_Ok.
    destruct (ParseBool _); [|done]. revert H. by apply scalar_steps.
  - unfold EnterDate_time. intros (parent & _ & H)%bind_Ok. by eapply string_steps.
  - intros [= <-]. apply steps_refl.
  - intros [= <-]. apply steps_refl.
Qed.

Lemma exitRule_steps (p : tomlParser) (t : TomlTree) : steps p (exitRule p t).
Proof. destruct t; simpl; try apply steps_refl; apply withStack_Pop_steps. Qed.

Lemma Walk_steps (t : TomlTree) : ∀ p p', Walk ParseFloat p t = Ok p' → steps p p'.
Proof.
  induction t as [t IH] using TomlTree_ind'. intros p p'. rewrite Walk_unfold.
  intros (p1 & Henter & (p2 & Hall & [= <-])%bind_Ok)%bind_Ok.
  eapply steps_trans; [by eapply enterRule_steps|].
  eapply steps_trans; [|apply exitRule_steps].
  clear Henter. revert p1 p2 Hall.
  induction IH as [|c ch Hc _ IHch]; intros p1 p2; simpl.
  - intros [= <-]. apply steps_refl.
  - intros (q & Hq & Hrest)%bind_Ok. eapply steps_trans; eauto.
Qed.

(** [X15] The store stays sound across a walk, whatever the tree: in
    every node the tag tells the dynamic type of the value, so that the
    casts of a reader that goes by the tag hold, and every pointer held
    by an object, an array, the stack or the root leads to a node. The
    root pointer is never replaced, no node leaves the store, and no
    gathered error is dropped. *)
Theorem walk_keeps_the_store_sound (t : TomlTree) (p p' : tomlParser) :
  sound p →
  Walk ParseFloat p t = Ok p' →
  sound p' ∧
  configFile p' = configFile p ∧
  (∀ q, live (heap p) q → live (heap p') q) ∧
  ∃ new, errs p' = errs p ++ new.
Proof.
  intros Hp (Hsound & Hroot & Hlive & Herrs)%Walk_steps. auto.
Qed.

Lemma prepare_sound (p : tomlParser) : storeSound (heap p) → sound (prepare p).
Proof.
  intros Hs. unfold prepare. split; [|split]; simpl.
  - apply storeSound_insert; [done|]. split; [done|]. apply map_Forall_empty.
  - constructor; [apply live_insert_eq|constructor].
  - apply live_insert_eq.
Qed.

(** [X16] What [Parse] returns. With a report from the front end it
    returns a nil node and the reports, and leaves the receiver as it
    was. Without one it returns the root it made, a node of a sound store
    when the receiver's store was sound, and a nil error list: the errors
    the handlers gathered stay in the receiver, after those of earlier
    calls, and none of them is returned. *)
Theorem Parse_returns_the_root (front : Frontend) (p p' : tomlParser) (data : string)
    (root : option ptr) (errors : list CMParserError) :
  Parse ParseFloat front p data = Ok (p', (root, errors)) →
  ((TomlRule front data).2 ≠ [] ∧
     root = None ∧ errors = (TomlRule front data).2 ∧ p' = p) ∨
  ((TomlRule front data).2 = [] ∧
     Walk ParseFloat (prepare p) (TomlRule front data).1 = Ok p' ∧
     root = Some (fresh (dom (heap p))) ∧
     errors = [] ∧
     (∃ gathered, errs p' = errs p ++ gathered) ∧
     (storeSound (heap p) → sound p' ∧ from_option (live (heap p')) False root)).
Proof.
  unfold Parse. destruct (TomlRule front data) as [tree reports]. cbn [fst snd].
  destruct reports as [|e reports].
  - cbn [length Z.of_nat Z.gtb Z.compare].
    intros (q & Hwalk & [= <- <- <-])%bind_Ok. right.
    pose proof (Walk_steps _ _ _ Hwalk) as (Hsound & Hroot & Hlive & Herrs).
    split; [done|]. split; [done|]. rewrite Hroot. split; [done|]. split; [done|].
    split; [done|]. intros Hs. split; [by apply Hsound, prepare_sound|].
    simpl. apply Hlive. simpl. apply live_insert_eq.
  - assert ((Z.of_nat (length (e :: reports)) >? 0) = true) as ->.
    { apply Z.gtb_lt. simpl length. lia. }
    intros [= <- <- <-]. by left.
Qed.

End TomlWalk.
(** ** The TOML listener: texts *)

Section TomlTexts.
Import Toml Design.

(** A text between two copies of a delimiter. *)
Lemma delimited (d s : string) :
  HasPrefix s d = true → HasSuffix s d = true →
  (2 * String.length d ≤ String.length s)%nat →
  s = d +:+ substring (String.length d) (String.length s - 2 * String.length d) s +:+ d.
Proof.
  unfold HasPrefix. intros [s1 ->]%prefix_split Hsuffix. rewrite string_length_app.
  intros Hlen. f_equal.
  replace (String.length d) with (String.length d + 0)%nat at 1 by lia.
  rewrite substring_skip_app.
  unfold HasSuffix in Hsuffix. apply andb_true_iff in Hsuffix as [_ Heq%String.eqb_eq].
  rewrite string_length_app in Heq.
  replace (String.length d + String.length s1 - String.length d)%nat
    with (String.length d + (String.length s1 - String.length d))%nat in Heq by lia.
  rewrite substring_skip_app in Heq.
  rewrite (substring_split s1 (String.length s1 - String.length d)) at 1 by lia.
  f_equal; [f_equal; lia|].
  rewrite <- Heq at 3. f_equal. lia.
Qed.

Lemma HasPrefix_length (s d : string) :
  HasPrefix s d = true → (String.length d ≤ String.length s)%nat.
Proof. unfold HasPrefix. intros [r ->]%prefix_split. rewrite string_length_app. lia. Qed.

Lemma slice_delimited (d body : string) (n : Z) :
  n = len d → len d + len body + len d < 2 ^ 62 →
  slice (d +:+ body +:+ d) n (sub (len (d +:+ body +:+ d)) n) = Ok body.
Proof.
  intros -> Hlen. pose proof (len_nonneg d). pose proof (len_nonneg body).
  rewrite !len_app. unfold sub. rewrite wrap_small by lia.
  rewrite slice_in_range by (rewrite ?len_app; lia). f_equal.
  replace (Z.to_nat (len d)) with (String.length d + 0)%nat by (unfold len; lia).
  rewrite substring_skip_app.
  replace (Z.to_nat (len d + (len body + len d) - len d - len d))
    with (String.length body) by (unfold len; lia).
  apply substring_0_app.
Qed.

Lemma delimited_prefix_suffix (d body : string) :
  HasPrefix (d +:+ body +:+ d) d && HasSuffix (d +:+ body +:+ d) d = true.
Proof.
  apply andb_true_iff. split; [apply prefix_app|].
  rewrite <- string_app_assoc. apply HasSuffix_app.
Qed.

(** A text in single delimiters whose body does not open with the
    delimiter does not open with three of them. *)
Lemma single_not_triple (c : ascii) (body : string) :
  HasPrefix body (String c EmptyString) = false →
  HasPrefix (String c EmptyString +:+ body +:+ String c EmptyString)
            (String c (String c (String c EmptyString))) = false.
Proof.
  unfold HasPrefix. rewrite string_app_cons, prefix_cons.
  destruct (ascii_dec c c); [|done]. change (EmptyString +:+ ?x) with x.
  destruct body as [|b body].
  - intros _. change (EmptyString +:+ ?x) with x. rewrite prefix_cons.
    by destruct (ascii_dec c c).
  - rewrite string_app_cons, !prefix_cons.
    destruct (ascii_dec c b); [by destruct body|done].
Qed.

Lemma basic_not_mlBasic (body : string) :
  HasPrefix body basic = false → HasPrefix (basic +:+ body +:+ basic) mlBasic = false.
Proof. apply single_not_triple. Qed.

Lemma literal_not_mlLiteral (body : string) :
  HasPrefix body literal = false →
  HasPrefix (literal +:+ body +:+ literal) mlLiteral = false.
Proof. apply single_not_triple. Qed.

Lemma other_quote_prefix (c c' : ascii) (rest s : string) :
  c ≠ c' → HasPrefix (String c' s) (String c rest) = false.
Proof. intros Hne. unfold HasPrefix. rewrite prefix_cons. by destruct (ascii_dec c c'). Qed.

(** [X17] [cleanString] takes the delimiters off a string and does
    nothing else. A body between three quotation marks or three
    apostrophes comes back as it is, whatever it holds; so does a body
    between single ones that does not itself open with the delimiter; and
    whenever the function returns, the text is the result between two
    copies of one of the four delimiters, or the result itself. No escape
    sequence is read and no line break after an opening delimiter is
    dropped. *)
Theorem cleanString_takes_the_delimiters_off :
  (∀ body, len body < 2 ^ 61 →
     cleanString (mlBasic +:+ body +:+ mlBasic) = Ok body ∧
     cleanString (mlLiteral +:+ body +:+ mlLiteral) = Ok body) ∧
  (∀ body, len body < 2 ^ 61 →
     (HasPrefix body basic = false → cleanString (basic +:+ body +:+ basic) = Ok body) ∧
     (HasPrefix body literal = false →
        cleanString (literal +:+ body +:+ literal) = Ok body)) ∧
  (∀ s r, len s < 2 ^ 62 → cleanString s = Ok r →
     ∃ d, d ∈ delimiters ∧ s = d +:+ r +:+ d).
Proof.
  split; [|split].
  - intros body Hlen. unfold cleanString. split.
    + rewrite delimited_prefix_suffix. apply slice_delimited; [done|].
      change (len mlBasic) with 3. lia.
    + assert (HasPrefix (mlLiteral +:+ body +:+ mlLiteral) mlBasic = false) as ->
        by (by apply other_quote_prefix).
      cbn [andb]. rewrite delimited_prefix_suffix. apply slice_delimited; [done|].
      change (len mlLiteral) with 3. lia.
  - intros body Hlen. unfold cleanString. split; intros Hbody.
    + rewrite (basic_not_mlBasic body Hbody). cbn [andb].
      assert (HasPrefix (basic +:+ body +:+ basic) mlLiteral = false) as ->
        by (by apply other_quote_prefix).
      cbn [andb]. rewrite delimited_prefix_suffix. apply slice_delimited; [done|].
      change (len basic) with 1. lia.
    + assert (HasPrefix (literal +:+ body +:+ literal) mlBasic = false) as ->
        by (by apply other_quote_prefix).
      cbn [andb].
      rewrite (literal_not_mlLiteral body Hbody). cbn [andb].
      assert (HasPrefix (literal +:+ body +:+ literal) basic = false) as ->
        by (by apply other_quote_prefix).
      cbn [andb]. rewrite delimited_prefix_suffix. apply slice_delimited; [done|].
      change (len literal) with 1. lia.
  - intros s r Hlen. pose proof (len_nonneg s) as Hpos. unfold cleanString.
    assert (∀ d n, n = len d → 0 <= n < 2 ^ 61 →
              HasPrefix s d && HasSuffix s d = true →
              slice s n (sub (len s) n) = Ok r → s = d +:+ r +:+ d) as Hbranch.
    { intros d n -> Hn [Hp Hs]%andb_true_iff Hslice.
      rewrite sub_len in Hslice by lia.
      apply slice_Ok in Hslice as (Hlo & Hhi & ->).
      rewrite (delimited d s Hp Hs) at 1 by (unfold len in *; lia).
      replace (Z.to_nat (len d)) with (String.length d) by (unfold len; lia).
      replace (Z.to_nat (len s - len d - len d))
        with (String.length s - 2 * String.length d)%nat by (unfold len in *; lia).
      done. }
    destruct (HasPrefix s mlBasic && HasSuffix s mlBasic) eqn:H1.
    { intros Hslice. exists mlBasic. split; [set_solver|]. by eapply Hbranch. }
    destruct (HasPrefix s mlLiteral && HasSuffix s mlLiteral) eqn:H2.
    { intros Hslice. exists mlLiteral. split; [set_solver|]. by eapply Hbranch. }
    destruct (HasPrefix s basic && HasSuffix s basic) eqn:H3.
    { intros Hslice. exists basic. split; [set_solver|]. by eapply Hbranch. }
    destruct (HasPrefix s literal && HasSuffix s literal) eqn:H4.
    { intros Hslice. exists literal. split; [set_solver|]. by eapply Hbranch. }
    intros [= <-]. exists EmptyString. split; [set_solver|].
    by rewrite string_app_nil_r.
Qed.

End TomlTexts.
Section TomlBareDelimiters.
Import Toml Design.

Lemma slice_Panic (s : string) (lo hi : Z) (msg : string) :
  slice s lo hi = Panic msg → ¬ (0 <= lo <= hi ∧ hi <= len s).
Proof. intros Hslice [H1 H2]. by rewrite slice_in_range in Hslice. Qed.

Lemma short_triple (c : ascii) (s : string) :
  let triple := String c (String c (String c EmptyString)) in
  HasPrefix s triple && HasSuffix s triple = true →
  len s < 6 →
  s = triple ∨ s = triple +:+ String c EmptyString
  ∨ s = triple +:+ String c EmptyString +:+ String c EmptyString.
Proof.
  intros triple [[s1 ->]%prefix_split Hsuffix]%andb_true_iff. rewrite len_app.
  change (len triple) with 3. unfold len. intros Hlen.
  unfold HasSuffix in Hsuffix. apply andb_true_iff in Hsuffix as [_ Heq%String.eqb_eq].
  destruct s1 as [|c1 [|c2 [|c3 s1]]]; simpl in Hlen; [| | |lia].
  - by left.
  - right. left. cbv in Heq. by simplify_eq.
  - right. right. cbv in Heq. by simplify_eq.
Qed.

Lemma short_single (c : ascii) (s : string) :
  HasPrefix s (String c EmptyString) = true → len s < 2 → s = String c EmptyString.
Proof.
  intros [s1 ->]%prefix_split. rewrite len_app. unfold len. simpl.
  destruct s1; simpl; [done|lia].
Qed.

(** [X18] [cleanString] panics on a slice out of range exactly on the
    eight texts that are delimiters and nothing else: one quotation mark
    or apostrophe, and three, four or five of them. On every other
    text that fits a Go string it returns. *)
Theorem cleanString_panics_on_bare_delimiters (s : string) :
  len s < 2 ^ 62 →
  ((∃ msg, cleanString s = Panic msg) ↔ s ∈ bareDelimiters) ∧
  (s ∉ bareDelimiters → ∃ r, cleanString s = Ok r).
Proof.
  intros Hlen. pose proof (len_nonneg s) as Hpos.
  assert ((∃ msg, cleanString s = Panic msg) ↔ s ∈ bareDelimiters) as Hiff.
  { split.
    - intros [msg Hpanic]. revert Hpanic. unfold cleanString.
      assert (∀ n, 0 <= n < 4 → slice s n (sub (len s) n) = Panic msg → len s < 2 * n)
        as Hshort.
      { intros n Hn Hslice. rewrite sub_len in Hslice by lia.
        apply slice_Panic in Hslice. lia. }
      destruct (HasPrefix s mlBasic && HasSuffix s mlBasic) eqn:H1.
      { intros Hslice%Hshort; [|lia].
        destruct (short_triple _ s H1) as [-> | [-> | ->]]; [lia|..];
          unfold bareDelimiters; solve [repeat (first [by left|right])]. }
      destruct (HasPrefix s mlLiteral && HasSuffix s mlLiteral) eqn:H2.
      { intros Hslice%Hshort; [|lia].
        destruct (short_triple _ s H2) as [-> | [-> | ->]]; [lia|..];
          unfold bareDelimiters; solve [repeat (first [by left|right])]. }
      destruct (HasPrefix s basic && HasSuffix s basic) eqn:H3.
      { intros Hslice%Hshort; [|lia]. apply andb_true_iff in H3 as [H3 _].
        rewrite (short_single _ s H3) by lia. left. }
      destruct (HasPrefix s literal && HasSuffix s literal) eqn:H4.
      { intros Hslice%Hshort; [|lia]. apply andb_true_iff in H4 as [H4 _].
        rewrite (short_single _ s H4) by lia. right. left. }
      done.
    - unfold bareDelimiters. intros Hin.
      repeat (apply elem_of_cons in Hin as [->|Hin]; [eexists; reflexivity|]).
      by apply elem_of_nil in Hin. }
  split; [done|]. intros Hnot.
  destruct (cleanString s) as [r|msg] eqn:Hclean; [eauto|].
  destruct Hnot. apply Hiff. eauto.
Qed.

Lemma cleanString_panics_on_bare_delimiters_witness :
  len (mlBasic +:+ basic) < 2 ^ 62 ∧
  (mlBasic +:+ basic) ∈ bareDelimiters ∧
  ∃ msg, cleanString (mlBasic +:+ basic) = Panic msg.
Proof.
  split; [reflexivity|].
  assert (mlBasic +:+ basic ∈ bareDelimiters) as Hin by (do 3 right; left).
  split; [exact Hin|].
  apply (cleanString_panics_on_bare_delimiters (mlBasic +:+ basic)); [reflexivity|exact Hin].
Defined.

Lemma cleanString_takes_the_delimiters_off_witness :
  len "2024-01-02" < 2 ^ 62 ∧
  cleanString "2024-01-02" = Ok "2024-01-02" ∧
  ∃ d, d ∈ delimiters ∧ "2024-01-02" = d +:+ "2024-01-02" +:+ d.
Proof.
  split; [reflexivity|]. split; [reflexivity|].
  apply (cleanString_takes_the_delimiters_off); reflexivity.
Defined.

End TomlBareDelimiters.
(** ** The TOML listener: integers *)

Section TomlIntegers.
Import Toml Design.

Lemma digitOf_range (c : ascii) (d : Z) : digitOf c = Some d → 0 <= d <= 9.
Proof.
  unfold digitOf. destruct (Z.leb_spec 48 (Z.of_nat (nat_of_ascii c))); simpl; [|done].
  destruct (Z.leb_spec (Z.of_nat (nat_of_ascii c)) 57); [|done]. intros [= <-]. lia.
Qed.

Lemma numberOf_ge (s : string) (n : Z) : 0 <= n → n <= numberOf s n.
Proof.
  revert n. induction s as [|c s IH]; intros n Hn; simpl; [lia|].
  destruct (digitOf c) as [d|] eqn:Hd; simpl.
  - apply digitOf_range in Hd. etrans; [|apply IH]; lia.
  - etrans; [|apply IH]; lia.
Qed.

Lemma allDigits_cons (c : ascii) (s : string) :
  allDigits (String c s) = bool_decide (is_Some (digitOf c)) && allDigits s.
Proof. done. Qed.

(** The loop of [ParseUint] reads exactly the strings of digits that
    write a number of 64 bits. *)
Lemma parseUintLoop_spec (s : string) (n v : Z) :
  0 <= n < 2 ^ 64 →
  parseUintLoop s n = Success v ↔
  allDigits s = true ∧ v = numberOf s n ∧ v < 2 ^ 64.
Proof.
  revert n. induction s as [|c s IH]; intros n Hn.
  - simpl. split; [intros [= <-]; split; [done|]; split; [done|lia]|].
    by intros (_ & -> & _).
  - cbn [parseUintLoop numberOf]. rewrite allDigits_cons.
    destruct (digitOf c) as [d|] eqn:Hd; simpl.
    + apply digitOf_range in Hd.
      destruct (Z.geb_spec n 1844674407370955162) as [Hcut|Hcut].
      { split; [done|]. intros (_ & -> & Hv).
        pose proof (numberOf_ge s (10 * n + d)). lia. }
      destruct (Z.geb_spec (10 * n + d) (2 ^ 64)) as [Hover|Hover].
      { split; [done|]. intros (_ & -> & Hv).
        pose proof (numberOf_ge s (10 * n + d)). lia. }
      apply IH. lia.
    + split; [done|]. by intros [? _].
Qed.

(** [strconv.Atoi] reads exactly the decimal texts that write a number
    of type [int], and answers with that number. *)
Lemma Atoi_spec (s : string) (v : Z) :
  Atoi s = Success v ↔
  decimal s = true ∧ v = written s ∧ - 2 ^ 63 <= v < 2 ^ 63.
Proof.
  destruct s as [|c rest]; [split; [done|by intros [? _]]|].
  unfold Atoi, decimal, written.
  change (digitsOf (String c rest))
    with (if Ascii.eqb c "+" || Ascii.eqb c "-" then rest else String c rest).
  set (digits := if Ascii.eqb c "+" || Ascii.eqb c "-" then rest else String c rest).
  assert (HasPrefix (String c rest) "-" = Ascii.eqb c "-") as ->.
  { unfold HasPrefix. rewrite prefix_cons.
    destruct (ascii_dec "-" c) as [<-|Hne]; [by destruct rest|].
    symmetry. apply Ascii.eqb_neq. congruence. }
  destruct (String.eqb_spec digits EmptyString) as [Hempty|Hne].
  { rewrite Hempty. simpl. split; [done|by intros [? _]]. }
  assert (ParseUint digits = parseUintLoop digits 0) as -> by (by destruct digits).
  cbn [negb andb].
  pose proof (numberOf_ge digits 0 ltac:(lia)) as Hpos.
  destruct (parseUintLoop digits 0) as [un|err] eqn:Hloop.
  - apply parseUintLoop_spec in Hloop as (Hall & -> & Hun); [|lia].
    rewrite Hall.
    destruct (Ascii.eqb c "-"); cbn [negb andb].
    + destruct (Z.gtb_spec (numberOf digits 0) (2 ^ 63)).
      * split; [done|]. intros (_ & -> & ?). lia.
      * split; [intros [= <-]; split; [done|]; split; [done|lia]|].
        by intros (_ & -> & _).
    + destruct (Z.geb_spec (numberOf digits 0) (2 ^ 63)).
      * split; [done|]. intros (_ & -> & ?). lia.
      * split; [intros [= <-]; split; [done|]; split; [done|lia]|].
        by intros (_ & -> & _).
  - split; [done|]. intros (Hall & -> & Hrange).
    assert (parseUintLoop digits 0 = Success (numberOf digits 0)) as Hsome.
    { apply parseUintLoop_spec; [lia|]. split; [done|]. split; [done|].
      destruct (Ascii.eqb c "-"); lia. }
    congruence.
Qed.

(** [X19] [EnterInteger] goes through exactly on the decimal texts that
    write a number of 64 bits: it panics on every other text, whatever
    the listener holds, so on an underscore between digits and on a
    hexadecimal, octal or binary literal. The number it writes into the
    node on top of the stack, when that is no array, is the number the
    text writes. *)
Theorem EnterInteger_reads_decimal_only (p : tomlParser) (ctx : RuleContext) :
  (∀ p', EnterInteger p ctx = Ok p' →
         decimal (ctxText ctx) = true ∧
         - 2 ^ 63 <= written (ctxText ctx) < 2 ^ 63) ∧
  (decimal (ctxText ctx) = false ∨ ¬ (- 2 ^ 63 <= written (ctxText ctx) < 2 ^ 63) →
   ∃ msg, EnterInteger p ctx = Panic msg) ∧
  (∀ top st node,
     decimal (ctxText ctx) = true →
     - 2 ^ 63 <= written (ctxText ctx) < 2 ^ 63 →
     stack p = top :: st →
     heap p !! top = Some node →
     Type_ node ≠ Parsers.Array →
     EnterInteger p ctx
     = Ok (withHeap p
             (<[top := setValueLocation
                         (setValue node Parsers.Int (VInt (written (ctxText ctx))))
                         (locationOf (GetStart ctx) (GetStop ctx))]> (heap p)))).
Proof.
  assert (∀ p', EnterInteger p ctx = Ok p' →
                decimal (ctxText ctx) = true ∧
                - 2 ^ 63 <= written (ctxText ctx) < 2 ^ 63) as Hreturns.
  { intros p'. unfold EnterInteger. intros (parent & _ & Hrest)%bind_Ok.
    destruct (Atoi (ctxText ctx)) as [v|err] eqn:Hatoi; [|done].
    apply Atoi_spec in Hatoi as (Hdec & -> & Hrange). done. }
  split; [done|]. split.
  - intros Hbad. destruct (EnterInteger p ctx) as [p'|msg] eqn:Henter; [|eauto].
    destruct (Hreturns p' eq_refl) as [Hdec Hrange].
    destruct Hbad as [Hbad|Hbad]; [congruence|done].
  - intros top st node Hdec Hrange Hstack Htop Harray.
    unfold EnterInteger. rewrite Hstack. simpl.
    rewrite (proj2 (Atoi_spec (ctxText ctx) _) (conj Hdec (conj eq_refl Hrange))).
    unfold storeValue, deref. rewrite Htop. simpl.
    rewrite decide_False by done. simpl. unfold withStack, withHeap. simpl.
    by rewrite Hstack.
Qed.

Lemma EnterInteger_reads_decimal_only_witness :
  decimal "0x1F" = false ∧
  decimal "1_000" = false ∧
  decimal "9223372036854775808" = true ∧
  (∃ msg, EnterInteger startParser (Examples.rule 1 4 "0x1F") = Panic msg) ∧
  (∃ msg, EnterInteger startParser (Examples.rule 1 4 "1_000") = Panic msg) ∧
  (∃ msg, EnterInteger startParser (Examples.rule 1 4 "9223372036854775808") = Panic msg).
Proof.
  split; [reflexivity|]. split; [reflexivity|]. split; [reflexivity|].
  split; [|split].
  - apply (EnterInteger_reads_decimal_only startParser (Examples.rule 1 4 "0x1F")).
    left. reflexivity.
  - apply (EnterInteger_reads_decimal_only startParser (Examples.rule 1 4 "1_000")).
    left. reflexivity.
  - apply (EnterInteger_reads_decimal_only startParser
             (Examples.rule 1 4 "9223372036854775808")).
    right. vm_compute. intros [_ H]. discriminate H.
Defined.

End TomlIntegers.
(** ** The TOML listener: key-value pairs *)

Section TomlKeyValues.
Import Toml Design.
Variable ParseFloat : string → ErrorOr Z.

Lemma WalkAll_app (before after : list TomlTree) (p : tomlParser) :
  WalkAll ParseFloat (before ++ after) p
  = WalkAll ParseFloat before p ≫= WalkAll ParseFloat after.
Proof.
  revert p. induction before as [|t ts IH]; intros p; simpl; [done|].
  destruct (Walk ParseFloat p t); simpl; [apply IH|done].
Qed.

Lemma bind_mret (m : Result tomlParser) : (m ≫= λ p, mret p) = m.
Proof. by destruct m. Qed.

Lemma Walk_ROther (children : list TomlTree) (p : tomlParser) :
  Walk ParseFloat p (ROther children) = WalkAll ParseFloat children p.
Proof. rewrite Walk_unfold. simpl. apply bind_mret. Qed.

Lemma silent_Walk (t : TomlTree) : ∀ p, silent t = true → Walk ParseFloat p t = Ok p.
Proof.
  induction t as [t IH] using TomlTree_ind'. intros p Hsilent. rewrite Walk_unfold.
  destruct t as [? ch|? ch|? ch|? ch|? ch|? ch|? ch|? ch|? ch|? ch|ch|?]; try done.
  simpl in *. assert (WalkAll ParseFloat ch p = Ok p) as ->; [|done].
  induction IH as [|c ch Hc _ IHch]; simpl in *; [done|].
  apply andb_true_iff in Hsilent as [H1 H2]. rewrite Hc by done. simpl. by apply IHch.
Qed.

Lemma silent_WalkAll (ch : list TomlTree) (p : tomlParser) :
  forallb silent ch = true → WalkAll ParseFloat ch p = Ok p.
Proof.
  induction ch as [|c ch IH]; simpl; [done|].
  intros [H1 H2]%andb_true_iff. rewrite silent_Walk by done. simpl. by apply IH.
Qed.

(** Walking a scalar is the branch its handler ends with. *)
Lemma scalar_Walk (t : TomlTree) :
  ∀ p top st e,
    scalarOf ParseFloat t = Some e →
    stack p = top :: st →
    Walk ParseFloat p t = storeValue p top e.1.2 (mret e.2) e.1.1 false.
Proof.
  induction t as [t IH] using TomlTree_ind'. intros p top st e Hscalar Hstack.
  rewrite Walk_unfold.
  destruct t as [? ch|? ch|? ch|? ch|? ch|ctx ch|ctx ch|ctx ch|ctx ch|ctx ch|ch|?];
    try done; cbn [scalarOf enterRule childrenOf exitRule] in *.
  - destruct (cleanString (ctxText ctx)) as [s|] eqn:Hclean; [|done].
    destruct (forallb silent ch) eqn:Hsilent; [|done]. injection Hscalar as <-.
    unfold EnterString. rewrite Hstack, Hclean. simpl.
    destruct (storeValue _ _ _ _ _ _) as [p1|]; simpl; [|done].
    by rewrite silent_WalkAll.
  - destruct (Atoi (ctxText ctx)) as [i|] eqn:Hatoi; [|done].
    destruct (forallb silent ch) eqn:Hsilent; [|done]. injection Hscalar as <-.
    unfold EnterInteger. rewrite Hstack, Hatoi. simpl.
    destruct (storeValue _ _ _ _ _ _) as [p1|]; simpl; [|done].
    by rewrite silent_WalkAll.
  - destruct (ParseFloat (ctxText ctx)) as [f|] eqn:Hfloat; [|done].
    destruct (forallb silent ch) eqn:Hsilent; [|done]. injection Hscalar as <-.
    unfold EnterFloating_point. rewrite Hstack, Hfloat. simpl.
    destruct (storeValue _ _ _ _ _ _) as [p1|]; simpl; [|done].
    by rewrite silent_WalkAll.
  - destruct (ParseBool (ctxText ctx)) as [b|] eqn:Hbool; [|done].
    destruct (forallb silent ch) eqn:Hsilent; [|done]. injection Hscalar as <-.
    unfold EnterBool. rewrite Hstack, Hbool. simpl.
    destruct (storeValue _ _ _ _ _ _) as [p1|]; simpl; [|done].
    by rewrite silent_WalkAll.
  - destruct (cleanString (ctxText ctx)) as [s|] eqn:Hclean; [|done].
    destruct (forallb silent ch) eqn:Hsilent; [|done]. injection Hscalar as <-.
    unfold EnterDate_time. rewrite Hstack, Hclean. simpl.
    destruct (storeValue _ _ _ _ _ _) as [p1|]; simpl; [|done].
    by rewrite silent_WalkAll.
  - destruct ch as [|t' [|? ?]]; try done. simpl.
    apply Forall_inv in IH. rewrite (IH p top st e Hscalar Hstack).
    by destruct (storeValue _ _ _ _ _ _).
Qed.

(** A scalar is no array, no object and no null. *)
Lemma scalarOf_scalar (t : TomlTree) :
  ∀ e, scalarOf ParseFloat t = Some e →
       e.1.2 = typeOf e.2 ∧
       e.1.2 ∈ [Parsers.String; Parsers.Int; Parsers.Float; Parsers.Bool].
Proof.
  induction t as [t IH] using TomlTree_ind'. intros e.
  destruct t as [? ch|? ch|? ch|? ch|? ch|ctx ch|ctx ch|ctx ch|ctx ch|ctx ch|ch|?];
    try done; cbn [scalarOf childrenOf] in *.
  - destruct (cleanString _); [|done]. destruct (forallb _ _); [|done].
    intros [= <-]. simpl. split; [done|set_solver].
  - destruct (Atoi _); [|done]. destruct (forallb _ _); [|done].
    intros [= <-]. simpl. split; [done|set_solver].
  - destruct (ParseFloat _); [|done]. destruct (forallb _ _); [|done].
    intros [= <-]. simpl. split; [done|set_solver].
  - destruct (ParseBool _); [|done]. destruct (forallb _ _); [|done].
    intros [= <-]. simpl. split; [done|set_solver].
  - destruct (cleanString _); [|done]. destruct (forallb _ _); [|done].
    intros [= <-]. simpl. split; [done|set_solver].
  - destruct ch as [|t' [|? ?]]; try done. exact (Forall_inv IH e).
Qed.

(** Resolving a key of one segment below an object. *)
Lemma getOrCreateNode_simple (h : gmap ptr Node) (parent : ptr) (node : Node)
    (m : gmap string ptr) (k : string) :
  h !! parent = Some node → Type_ node = Parsers.Object → Value_ node = VObject m →
  getOrCreateNode h (Some parent) {| segments := [k] |}
  = match m !! k with
    | Some l => Ok (h, Success (Some l))
    | None =>
        Ok (<[parent := setValue node Parsers.Object (VObject (<[k := fresh (dom h)]> m))]>
              (<[fresh (dom h) := nullNode]> h),
            Success (Some (fresh (dom h))))
    end.
Proof.
  intros Hnode Hty Hval. unfold getOrCreateNode. cbn [segments length getOrCreateLoop].
  unfold deref. rewrite Hnode. simpl. rewrite Hty, Hval. simpl.
  destruct (m !! k); done.
Qed.

(** The walk of a key met for the first time with a scalar value. *)
Lemma Walk_fresh_key (p : tomlParser) (ctx : KeyContext) (k : string)
    (before after : list TomlTree) (value : TomlTree)
    (e : RuleContext * Parsers.FieldType * Value)
    (parent : ptr) (st : list ptr) (node : Node) (m : gmap string ptr) :
  Simple_key ctx = Some k →
  forallb silent before = true →
  forallb silent after = true →
  scalarOf ParseFloat value = Some e →
  stack p = parent :: st →
  heap p !! parent = Some node →
  Type_ node = Parsers.Object →
  Value_ node = VObject m →
  m !! k = None →
  Walk ParseFloat p (RKey_value ctx (before ++ value :: after))
  = Ok (withHeap p
          (<[fresh (dom (heap p)) := valueNode ctx e]>
             (<[parent := setValue node Parsers.Object
                            (VObject (<[k := fresh (dom (heap p))]> m))]> (heap p)))).
Proof.
  intros Hkey Hbefore Hafter Hscalar Hstack Hnode Hty Hval Hk.
  pose proof (fresh_not_live (heap p)) as Hfresh.
  set (new := fresh (dom (heap p))) in *.
  assert (parent ≠ new) as Hne by congruence.
  rewrite Walk_unfold. cbn [enterRule childrenOf exitRule].
  unfold EnterKey_value, parseKey. rewrite Hkey, Hstack. simpl.
  rewrite (getOrCreateNode_simple _ _ _ _ k Hnode Hty Hval), Hk. simpl.
  fold new. unfold deref. rewrite lookup_insert_ne, lookup_insert_eq by done. simpl.
  rewrite WalkAll_app, silent_WalkAll by done. simpl.
  erewrite scalar_Walk by done. unfold storeValue, deref. simpl.
  rewrite lookup_insert_eq. simpl.
  rewrite silent_WalkAll by done. simpl.
  unfold ExitKey_value, withStack, withHeap. simpl. rewrite Hstack. do 2 f_equal.
  rewrite insert_insert_eq, (insert_insert_ne _ parent new) by done.
  by rewrite insert_insert_eq.
Qed.

(** [X20] A key met for the first time with a scalar value. Walking
    [k = value] below an object that has no entry [k] makes one node,
    enters it in the object under [k], and leaves in it the tag and the
    value of the scalar, the span of the key as name location and the
    span of the value as value location. Nothing else changes: the other
    nodes, the stack and the errors are as before. *)
Theorem fresh_key_takes_the_value (p : tomlParser) (ctx : KeyContext) (k : string)
    (before after : list TomlTree) (value : TomlTree)
    (e : RuleContext * Parsers.FieldType * Value)
    (parent : ptr) (st : list ptr) (node : Node) (m : gmap string ptr) :
  Simple_key ctx = Some k →
  forallb silent before = true →
  forallb silent after = true →
  scalarOf ParseFloat value = Some e →
  stack p = parent :: st →
  heap p !! parent = Some node →
  Type_ node = Parsers.Object →
  Value_ node = VObject m →
  m !! k = None →
  Walk ParseFloat p (RKey_value ctx (before ++ value :: after))
  = Ok (withHeap p
          (<[fresh (dom (heap p)) := valueNode ctx e]>
             (<[parent := setValue node Parsers.Object
                            (VObject (<[k := fresh (dom (heap p))]> m))]> (heap p)))).
Proof. apply Walk_fresh_key. Qed.

(** [X21] A key given a value a second time. Walking [k = value] below
    an object whose entry [k] already holds a value reports the
    redefinition at the key, but pushes nothing, so the handler of the
    value writes the scalar into the object itself, which loses its
    entries, and the exit handler pops the object from the stack. When
    the object was the only node on the stack, the next key-value pair
    finds the stack empty and panics. *)
Theorem redefined_key_overwrites_the_table (p : tomlParser) (ctx : KeyContext)
    (k : string) (before after : list TomlTree) (value : TomlTree)
    (e : RuleContext * Parsers.FieldType * Value)
    (parent l : ptr) (st : list ptr) (node held : Node) (m : gmap string ptr) :
  Simple_key ctx = Some k →
  forallb silent before = true →
  forallb silent after = true →
  scalarOf ParseFloat value = Some e →
  stack p = parent :: st →
  heap p !! parent = Some node →
  Type_ node = Parsers.Object →
  Value_ node = VObject m →
  m !! k = Some l →
  heap p !! l = Some held →
  Type_ held ≠ Parsers.Null →
  let p' := {| heap := <[parent := overwritten node e]> (heap p);
               configFile := configFile p;
               stack := st;
               directlyDefined := directlyDefined p;
               errs := errs p ++ [{| Message := "can't redefine existing key "
                                                +:+ fmtKey {| segments := [k] |};
                                     Location := keyLocation ctx |}] |} in
  Walk ParseFloat p (RKey_value ctx (before ++ value :: after)) = Ok p' ∧
  Type_ (overwritten node e) ≠ Parsers.Object ∧
  (st = [] →
   ∀ ctx' children, ∃ msg, Walk ParseFloat p' (RKey_value ctx' children) = Panic msg).
Proof.
  intros Hkey Hbefore Hafter Hscalar Hstack Hnode Hty Hval Hk Hheld Hnull p'.
  split; [|split].
  - rewrite Walk_unfold. cbn [enterRule childrenOf exitRule].
    unfold EnterKey_value, parseKey. rewrite Hkey, Hstack. simpl.
    rewrite (getOrCreateNode_simple _ _ _ _ k Hnode Hty Hval), Hk. simpl.
    unfold deref. rewrite Hheld. simpl. rewrite decide_True by done. simpl.
    rewrite WalkAll_app, silent_WalkAll by done. simpl.
    erewrite scalar_Walk by (simpl; done). unfold storeValue, deref. simpl.
    rewrite Hnode. simpl. rewrite decide_False by (rewrite Hty; done). simpl.
    rewrite silent_WalkAll by done. simpl.
    unfold ExitKey_value, withStack, withHeap. simpl. by rewrite Hstack.
  - destruct (scalarOf_scalar _ _ Hscalar) as [_ Hin]. simpl. intros Heq.
    rewrite Heq in Hin.
    repeat (apply elem_of_cons in Hin as [Hin|Hin]; [done|]).
    by apply elem_of_nil in Hin.
  - intros -> ctx' children. rewrite Walk_unfold. cbn [enterRule].
    unfold EnterKey_value. destruct (parseKey ctx') as [key|msg]; simpl; eauto.
Qed.

End TomlKeyValues.
(** ** The TOML listener: arrays and array tables *)

Section TomlArrays.
Import Toml Design.
Variable ParseFloat : string → ErrorOr Z.

Lemma asSlice_scalar (e : RuleContext * Parsers.FieldType * Value) :
  e.1.2 = typeOf e.2 →
  e.1.2 ∈ [Parsers.String; Parsers.Int; Parsers.Float; Parsers.Bool] →
  asSlice e.2 = Panic "interface conversion: interface {} is not []*parsers.Node".
Proof.
  intros Hty Hin. destruct e as [[ctx ty] v]. simpl in *. subst ty.
  destruct v; try done. simpl in Hin.
  repeat (apply elem_of_cons in Hin as [Hin|Hin]; [done|]).
  by apply elem_of_nil in Hin.
Qed.


(** The elements of an array, child by child. *)
Lemma WalkAll_elements (top : ptr) (st : list ptr) (children : list TomlTree) :
  ∀ es p a ls,
    elements ParseFloat children = Some es →
    stack p = top :: st →
    heap p !! top = Some a →
    Type_ a = Parsers.Array →
    Value_ a = VArray ls →
    ∃ p' ls',
      WalkAll ParseFloat children p = Ok p' ∧
      stack p' = stack p ∧ errs p' = errs p ∧
      heap p' !! top = Some (setValue a Parsers.Array (VArray (ls ++ ls'))) ∧
      Forall2 (λ q e, heap p' !! q = Some (elementOf e)) ls' es ∧
      NoDup ls' ∧
      Forall (λ q, heap p !! q = None) ls' ∧
      ∀ q, q ≠ top → q ∉ ls' → heap p' !! q = heap p !! q.
Proof.
  induction children as [|child rest IH]; intros es p a ls Hes Hstack Htop Hty Hval.
  - injection Hes as <-. exists p, []. split; [done|]. split; [done|]. split; [done|].
    split; [|split; [constructor|split; [constructor|split; [constructor|done]]]].
    rewrite Htop, app_nil_r. f_equal. destruct a. simpl in *. by subst.
  - cbn [elements] in Hes. cbn [WalkAll].
    destruct (silent child) eqn:Hsilent.
    { rewrite silent_Walk by done. simpl. by apply IH. }
    destruct (scalarOf ParseFloat child) as [e|] eqn:Hscalar; [|done].
    destruct (elements ParseFloat rest) as [es'|] eqn:Hrest; [|done].
    injection Hes as <-.
    erewrite scalar_Walk by done.
    unfold storeValue, deref. rewrite Htop. simpl.
    rewrite decide_True by done. rewrite Hval. simpl.
    pose proof (fresh_not_live (heap p)) as Hfresh.
    set (new := fresh (dom (heap p))) in *.
    assert (top ≠ new) as Hne by congruence.
    set (a1 := setValue a (Type_ a) (VArray (ls ++ [new]))).
    set (p1 := withStack _ _).
    destruct (IH es' p1 a1 (ls ++ [new]) eq_refl) as
      (p' & ls' & Hwalk & Hstack' & Herrs' & Htop' & Hnodes & Hnodup & Hnone & Hframe).
    { done. }
    { unfold p1. simpl. by rewrite lookup_insert_eq. }
    { done. }
    { done. }
    assert (new ∉ ls') as Hnew.
    { intros Hin. rewrite Forall_forall in Hnone. specialize (Hnone new Hin).
      unfold p1 in Hnone. simpl in Hnone.
      by rewrite lookup_insert_ne, lookup_insert_eq in Hnone. }
    exists p', (new :: ls'). split; [done|]. split; [done|]. split; [done|].
    split; [|split; [|split; [|split]]].
    + rewrite Htop'. unfold a1. rewrite <- app_assoc. done.
    + constructor; [|done]. rewrite Hframe by done.
      unfold p1. simpl. by rewrite lookup_insert_ne, lookup_insert_eq.
    + by constructor.
    + constructor; [done|]. eapply Forall_impl; [exact Hnone|].
      intros q Hq. unfold p1 in Hq. simpl in Hq.
      destruct (decide (q = top)) as [->|Hqt]; [by rewrite lookup_insert_eq in Hq|].
      rewrite lookup_insert_ne in Hq by done.
      destruct (decide (q = new)) as [->|Hqn]; [done|].
      by rewrite lookup_insert_ne in Hq.
    + intros q Hqt Hq. apply not_elem_of_cons in Hq as [Hqn Hq].
      rewrite Hframe by done. unfold p1. simpl.
      by rewrite !lookup_insert_ne.
Qed.

(** [X23] An array of scalars. Walking an array below a node that is
    no array turns that node into an array, with the span of the array as
    value location, and gives it one new node for each scalar among the
    children, in the order of the source, each with the tag, the value
    and the span of its scalar. The stack and the errors are as before
    and no other node changes. *)
Theorem array_elements_in_source_order (p : tomlParser) (ctx : RuleContext)
    (children : list TomlTree) (es : list (RuleContext * Parsers.FieldType * Value))
    (top : ptr) (st : list ptr) (node : Node) :
  elements ParseFloat children = Some es →
  stack p = top :: st →
  heap p !! top = Some node →
  Type_ node ≠ Parsers.Array →
  ∃ p' ls,
    Walk ParseFloat p (RArray ctx children) = Ok p' ∧
    stack p' = stack p ∧ errs p' = errs p ∧
    heap p' !! top
      = Some (setValueLocation (setValue node Parsers.Array (VArray ls))
                (locationOf (GetStart ctx) (GetStop ctx))) ∧
    Forall2 (λ q e, heap p' !! q = Some (elementOf e)) ls es ∧
    NoDup ls ∧
    Forall (λ q, heap p !! q = None) ls ∧
    ∀ q, q ≠ top → q ∉ ls → heap p' !! q = heap p !! q.
Proof.
  intros Hes Hstack Htop Hty. rewrite Walk_unfold. cbn [enterRule childrenOf exitRule].
  unfold EnterArray. rewrite Hstack. simpl. unfold storeValue, deref. rewrite Htop. simpl.
  rewrite decide_False by done. simpl.
  set (a0 := setValueLocation _ _). set (p0 := withStack _ _).
  destruct (WalkAll_elements top (top :: st) children es p0 a0 [] Hes) as
    (p' & ls & Hwalk & Hstack' & Herrs' & Htop' & Hnodes & Hnodup & Hnone & Hframe).
  { unfold p0. simpl. by rewrite ?Hstack. }
  { unfold p0. simpl. by rewrite lookup_insert_eq. }
  { done. }
  { done. }
  exists (ExitArray p'), ls. rewrite Hwalk. simpl.
  split; [done|].
  split; [unfold ExitArray, withStack; simpl; rewrite Hstack'; unfold p0; simpl;
          by rewrite ?Hstack|].
  split; [done|].
  split; [done|]. split; [done|]. split; [done|]. split.
  - eapply Forall_impl; [exact Hnone|]. intros q Hq. unfold p0 in Hq. simpl in Hq.
    destruct (decide (q = top)) as [->|Hqt]; [by rewrite lookup_insert_eq in Hq|].
    by rewrite lookup_insert_ne in Hq.
  - intros q Hqt Hq. rewrite Hframe by done. unfold p0. simpl.
    by rewrite lookup_insert_ne.
Qed.

End TomlArrays.
(** ** The TOML listener on concrete inputs *)

Section TomlExamples.
Import Toml Design.

Lemma startParser_sound : sound startParser.
Proof.
  split; [|split].
  - unfold storeSound. apply map_Forall_singleton. split; [done|]. apply map_Forall_empty.
  - constructor; [|constructor]. by eexists.
  - by eexists.
Qed.

Lemma getOrCreateNode_returns_witness :
  storeSound (heap startParser) ∧
  live (heap startParser) 1%positive ∧
  ∃ h' r,
    getOrCreateNode (heap startParser) (Some 1%positive)
      {| segments := ["servers"; "alpha"] |} = Ok (h', r) ∧
    storeSound h' ∧ storeGrown (heap startParser) h'.
Proof.
  split; [apply startParser_sound|]. split; [by eexists|].
  destruct (getOrCreateNode_returns (heap startParser) 1%positive
              {| segments := ["servers"; "alpha"] |})
    as (h' & r & Hcall & Hsound & Hgrown & _).
  - apply startParser_sound.
  - by eexists.
  - exists h', r. split; [exact Hcall|]. split; [exact Hsound|exact Hgrown].
Defined.

Lemma getOrCreateNode_again_witness :
  ∃ h' l,
    getOrCreateNode (heap startParser) (Some 1%positive)
      {| segments := ["servers"; "alpha"] |} = Ok (h', Success (Some l)) ∧
    getOrCreateNode h' (Some 1%positive)
      {| segments := ["servers"; "alpha"] |} = Ok (h', Success (Some l)).
Proof.
  eexists _, _. split; [reflexivity|].
  apply (getOrCreateNode_again (heap startParser)). reflexivity.
Defined.

Lemma walk_keeps_the_store_sound_witness :
  sound startParser ∧
  Walk Examples.noFloats startParser Examples.tomlFile
    = Ok (Examples.walkedToml Examples.tomlFile) ∧
  sound (Examples.walkedToml Examples.tomlFile) ∧
  errs (Examples.walkedToml Examples.tomlFile) = [].
Proof.
  split; [apply startParser_sound|]. split; [vm_compute; reflexivity|].
  split; [|vm_compute; reflexivity].
  apply (walk_keeps_the_store_sound Examples.noFloats Examples.tomlFile startParser);
    [apply startParser_sound|vm_compute; reflexivity].
Defined.

Lemma Parse_returns_the_root_witness :
  Parse Examples.noFloats (Examples.tomlFrontendOf Examples.tomlWithRedefinition)
    Examples.newTomlParser EmptyString
    = Ok (Examples.parsedToml Examples.tomlWithRedefinition) ∧
  (Examples.parsedToml Examples.tomlWithRedefinition).2 = (Some 1%positive, []) ∧
  length (errs (Examples.parsedToml Examples.tomlWithRedefinition).1) = 1%nat ∧
  Walk Examples.noFloats (prepare Examples.newTomlParser) Examples.tomlWithRedefinition
    = Ok (Examples.parsedToml Examples.tomlWithRedefinition).1.
Proof.
  split; [reflexivity|]. split; [reflexivity|]. split; [reflexivity|].
  destruct (Parse_returns_the_root Examples.noFloats
              (Examples.tomlFrontendOf Examples.tomlWithRedefinition)
              Examples.newTomlParser
              (Examples.parsedToml Examples.tomlWithRedefinition).1
              EmptyString (Some 1%positive) [] eq_refl)
    as [(Hreports & _)|(_ & Hwalk & _)].
  - by destruct Hreports.
  - exact Hwalk.
Defined.

Lemma fresh_key_takes_the_value_witness :
  scalarOf Examples.noFloats (Examples.stringValue 1 (Examples.quoted "localhost"))
    = Some (Examples.rule 1 8 (Examples.quoted "localhost"), Parsers.String,
            VString "localhost") ∧
  Walk Examples.noFloats startParser
    (Examples.keyValue 1 "host" (Examples.stringValue 1 (Examples.quoted "localhost")))
  = Ok (withHeap startParser
          (<[fresh (dom (heap startParser)) :=
               valueNode (Examples.simpleKey 1 "host")
                 (Examples.rule 1 8 (Examples.quoted "localhost"), Parsers.String,
                  VString "localhost")]>
             (<[1%positive := setValue objectNode Parsers.Object
                                (VObject (<["host" := fresh (dom (heap startParser))]> ∅))]>
                (heap startParser)))).
Proof.
  split; [reflexivity|].
  apply (fresh_key_takes_the_value Examples.noFloats startParser
           (Examples.simpleKey 1 "host") "host"
           [ROther [RTerminal (Examples.token 1 0 "host")];
            RTerminal (Examples.token 1 6 "=")]
           []
           (Examples.stringValue 1 (Examples.quoted "localhost"))
           (Examples.rule 1 8 (Examples.quoted "localhost"), Parsers.String,
            VString "localhost")
           1%positive [] objectNode ∅); reflexivity.
Defined.

Lemma redefined_key_overwrites_the_table_witness :
  Walk Examples.noFloats startParser
    (Examples.keyValue 1 "port" (Examples.integerValue 1 8 "80"))
    = Ok Examples.afterPort ∧
  ∃ p',
    Walk Examples.noFloats Examples.afterPort
      (Examples.keyValue 2 "port" (Examples.integerValue 2 8 "443")) = Ok p' ∧
    stack p' = [] ∧
    length (errs p') = 1%nat ∧
    Type_ <$> heap p' !! 1%positive = Some Parsers.Int ∧
    ∀ ctx' children,
      ∃ msg, Walk Examples.noFloats p' (RKey_value ctx' children) = Panic msg.
Proof.
  split; [reflexivity|].
  pose proof (redefined_key_overwrites_the_table Examples.noFloats Examples.afterPort
                (Examples.simpleKey 2 "port") "port"
                [ROther [RTerminal (Examples.token 2 0 "port")];
                 RTerminal (Examples.token 2 6 "=")]
                []
                (Examples.integerValue 2 8 "443")
                (Examples.rule 2 8 "443", Parsers.Int, VInt 443)
                1%positive 2%positive []
                (setValue objectNode Parsers.Object (VObject (<["port" := 2%positive]> ∅)))
                (valueNode (Examples.simpleKey 1 "port")
                   (Examples.rule 1 8 "80", Parsers.Int, VInt 80))
                (<["port" := 2%positive]> ∅)
                eq_refl eq_refl eq_refl eq_refl eq_refl eq_refl eq_refl eq_refl eq_refl
                eq_refl) as Hthm.
  destruct Hthm as (Hwalk & _ & Hpanic); [discriminate|].
  eexists. split; [exact Hwalk|]. split; [reflexivity|]. split; [reflexivity|].
  split; [reflexivity|]. apply Hpanic. reflexivity.
Defined.


Lemma array_elements_in_source_order_witness :
  EnterKey_value startParser (Examples.simpleKey 3 "ports") = Ok Examples.afterPortsKey ∧
  ∃ p' ls,
    Walk Examples.noFloats Examples.afterPortsKey
      (RArray (Examples.rule 3 8 "[80,443]")
         [RTerminal (Examples.token 3 8 "[");
          Examples.integerValue 3 9 "80";
          RTerminal (Examples.token 3 11 ",");
          Examples.integerValue 3 12 "443";
          RTerminal (Examples.token 3 15 "]")]) = Ok p' ∧
    stack p' = stack Examples.afterPortsKey ∧
    Forall2 (λ q e, heap p' !! q = Some (elementOf e)) ls
      [(Examples.rule 3 9 "80", Parsers.Int, VInt 80);
       (Examples.rule 3 12 "443", Parsers.Int, VInt 443)].
Proof.
  split; [reflexivity|].
  destruct (array_elements_in_source_order Examples.noFloats Examples.afterPortsKey
              (Examples.rule 3 8 "[80,443]")
              [RTerminal (Examples.token 3 8 "[");
               Examples.integerValue 3 9 "80";
               RTerminal (Examples.token 3 11 ",");
               Examples.integerValue 3 12 "443";
               RTerminal (Examples.token 3 15 "]")]
              [(Examples.rule 3 9 "80", Parsers.Int, VInt 80);
               (Examples.rule 3 12 "443", Parsers.Int, VInt 443)]
              2%positive [1%positive]
              (setNameLocation nullNode (keyLocation (Examples.simpleKey 3 "ports")))
              eq_refl eq_refl eq_refl)
    as (p' & ls & Hwalk & Hstack & _ & _ & Hnodes & _); [discriminate|].
  exists p', ls. split; [exact Hwalk|]. split; [exact Hstack|exact Hnodes].
Defined.

End TomlExamples.
(** ** Table headers in the tree [Parse] returns *)

Section TableLocations.
Import Toml Design.

(** [C9]. The value location of a table does not stay its name
    location. Parsed alone, a standard table header and an
    array-of-tables header give the tree a table node whose value
    location is its name location, the span of the header. Followed by a
    key that is given a value twice, the second time an inline table, the
    same header gives a node whose value location is the span of that
    inline table, two lines below its name location: the redefinition is
    refused without a node being pushed, so the handler of the value
    writes into the table on top of the stack. [Parse] returns the tree
    with a nil error list. *)
Theorem refused_key_moves_table_value_location (kind : TableKind) :
  let alone := Examples.parsedToml (Examples.tableAlone kind) in
  let whole := Examples.parsedToml (Examples.tableWithRedefinition kind) in
  let header :=
    locationOf (tableStart (Examples.aHeader kind)) (tableStop (Examples.aHeader kind)) in
  (Parse Examples.noFloats (Examples.tomlFrontendOf (Examples.tableAlone kind))
     Examples.newTomlParser EmptyString = Ok alone ∧
   alone.2 = (Some 1%positive, []) ∧
   ∃ l node,
     tableNode (heap alone.1) 1%positive "a" kind = Some l ∧
     heap alone.1 !! l = Some node ∧
     Type_ node = Parsers.Object ∧
     NameLocation node = header ∧
     ValueLocation node = NameLocation node) ∧
  (Parse Examples.noFloats (Examples.tomlFrontendOf (Examples.tableWithRedefinition kind))
     Examples.newTomlParser EmptyString = Ok whole ∧
   whole.2 = (Some 1%positive, []) ∧
   length (errs whole.1) = 1%nat ∧
   ∃ l node,
     tableNode (heap whole.1) 1%positive "a" kind = Some l ∧
     heap whole.1 !! l = Some node ∧
     Type_ node = Parsers.Object ∧
     NameLocation node = header ∧
     ValueLocation node = span 2 8 2 10 ∧
     ValueLocation node ≠ NameLocation node).
Proof.
  destruct kind; cbv zeta.
  - split.
    + split; [vm_compute; reflexivity|]. split; [vm_compute; reflexivity|].
      exists 2%positive. eexists.
      split; [vm_compute; reflexivity|]. split; [vm_compute; reflexivity|].
      split; [reflexivity|]. split; [vm_compute; reflexivity|]. reflexivity.
    + split; [vm_compute; reflexivity|]. split; [vm_compute; reflexivity|].
      split; [vm_compute; reflexivity|].
      exists 2%positive. eexists.
      split; [vm_compute; reflexivity|]. split; [vm_compute; reflexivity|].
      split; [reflexivity|]. split; [vm_compute; reflexivity|].
      split; [reflexivity|]. discriminate.
  - split.
    + split; [vm_compute; reflexivity|]. split; [vm_compute; reflexivity|].
      exists 3%positive. eexists.
      split; [vm_compute; reflexivity|]. split; [vm_compute; reflexivity|].
      split; [reflexivity|]. split; [vm_compute; reflexivity|]. reflexivity.
    + split; [vm_compute; reflexivity|]. split; [vm_compute; reflexivity|].
      split; [vm_compute; reflexivity|].
      exists 3%positive. eexists.
      split; [vm_compute; reflexivity|]. split; [vm_compute; reflexivity|].
      split; [reflexivity|]. split; [vm_compute; reflexivity|].
      split; [reflexivity|]. discriminate.
Qed.

End TableLocations.
